(** * NekoBot core client ([neko_bot/core/nekobot.py])

    A shallow embedding of the bot core and the properties proved of it.

    - [Staff]: the class-level [staff] dictionary, [staff_id] and
      [_load_staff].
    - [Command]: [on_command] and the filters it composes.
    - [Construct]: [__init__].
    - [Lifecycle]: [start], [stop], [finalized] and [begin] as computations
      that log the calls they make and return or raise.
    - [Shutdown]: the tasks that run [shutdown(sig)] and [finalized()] on the
      event loop, interleaved at their awaits, with the lock they share.
    - [Signalled]: [begin] with the handlers it installs run for the signals
      delivered while the loop runs the coroutine or idles.

    The modules named [...Facts] and [...More] hold the proofs. *)

From Stdlib Require Import ZArith Bool Lia.
From stdpp Require Import base option list gmap strings.

Local Open Scope Z_scope.
Local Open Scope string_scope.
Local Open Scope list_scope.

(** ** Python exceptions and results *)

(** The exception classes that occur in the module or are raised into it
    by its collaborators.  [OtherError] stands for any class that is neither
    [asyncio.CancelledError], nor [RuntimeError], nor one of their
    subclasses. *)
Inductive exn :=
  | KeyError
  | AttributeError
  | TypeError
  | ValueError
  | ImportError
  | ConnectionError
  | CancelledError
  | RuntimeError
  | NotImplementedError          (* subclass of RuntimeError *)
  | RecursionError               (* subclass of RuntimeError *)
  | OtherError (name : string).

Inductive result (A : Type) :=
  | Ok (a : A)
  | Raise (e : exn).
Arguments Ok {A} a.
Arguments Raise {A} e.

#[global] Instance exn_eq_dec : EqDecision exn.
Proof. solve_decision. Defined.

(** ** Staff registry *)

Module Staff.

(** Values held by the [staff] dictionary: [Config.OWNER_ID] (an integer)
    under "owner", lists of identifiers under the ranks. *)
Inductive pyval :=
  | VInt (n : Z)
  | VList (l : list Z).

#[global] Instance pyval_eq_dec : EqDecision pyval.
Proof. solve_decision. Defined.

(** A document of the "STAFF" collection. *)
Record staff_record := { _id : Z; rank : string }.

(** [self.staff["owner"] = Config.OWNER_ID] on the class-level dictionary
    (line 35 of [__init__]). *)
Definition set_owner (OWNER_ID : Z) (staff : gmap string pyval)
  : gmap string pyval :=
  <["owner" := VInt OWNER_ID]> staff.

(** The class attribute [staff = dict()] after the constructor has run. *)
Definition staff_init (OWNER_ID : Z) : gmap string pyval :=
  set_owner OWNER_ID ∅.

(** The [staff_id] property (lines 46-51).  The three subscripts raise
    [KeyError] on a missing key; [+] on anything but two lists and
    [extend] on a non-iterable raise [TypeError]. *)
Definition staff_id (staff : gmap string pyval) : result (list pyval) :=
  match staff !! "owner" with
  | None => Raise KeyError
  | Some owner =>
    match staff !! "dev" with
    | None => Raise KeyError
    | Some dev =>
      match staff !! "sudo" with
      | None => Raise KeyError
      | Some sudo =>
        match dev, sudo with
        | VList d, VList s => Ok (owner :: (VInt <$> (d ++ s)))
        | _, _ => Raise TypeError
        end
      end
    end
  end.

(** One iteration of the loop body, [self.staff[i["rank"]].append(i["_id"])]:
    the subscript raises [KeyError] on a missing rank, an integer has no
    [append], a list is extended in place. *)
Definition append_record (staff : gmap string pyval) (i : staff_record)
  : gmap string pyval * result unit :=
  match staff !! rank i with
  | None => (staff, Raise KeyError)
  | Some (VInt _) => (staff, Raise AttributeError)
  | Some (VList l) => (<[rank i := VList (l ++ [_id i])]> staff, Ok tt)
  end.

(** [async for i in _db.find(): ...] over the documents the cursor yields;
    the first exception ends the loop and leaves the dictionary as mutated
    so far. *)
Fixpoint load_loop (staff : gmap string pyval) (docs : list staff_record)
  : gmap string pyval * result unit :=
  match docs with
  | [] => (staff, Ok tt)
  | i :: docs' =>
    match append_record staff i with
    | (staff', Ok _) => load_loop staff' docs'
    | (staff', Raise e) => (staff', Raise e)
    end
  end.

(** [_load_staff] (lines 53-58): [self.staff.update({'dev': [], 'sudo': []})]
    followed by the loop. *)
Definition reset_ranks (staff : gmap string pyval) : gmap string pyval :=
  <["sudo" := VList []]> (<["dev" := VList []]> staff).

Definition _load_staff (staff : gmap string pyval) (docs : list staff_record)
  : gmap string pyval * result unit :=
  load_loop (reset_ranks staff) docs.

(** Identifiers of the documents of a given rank, in iteration order. *)
Definition ids_of (r : string) (docs : list staff_record) : list Z :=
  _id <$> filter (λ i, rank i = r) docs.

Definition rank_ok (i : staff_record) : bool :=
  bool_decide (rank i = "dev") || bool_decide (rank i = "sudo").

End Staff.

(** ** Command registration *)

Module Command.
Import Staff.

(** What a filter sees of the client: the staff dictionary and the bot's
    own user identifier. *)
Record client := { staff : gmap string pyval; me : Z }.

(** The chat a message was sent in, with its administrators when it is a
    group; a private chat has none. *)
Inductive chat :=
  | Private
  | Group (administrators : list Z).

(** What a filter sees of an incoming message: its sender, its chat and
    the command name it carries, if it carries one. *)
Record message := {
  from_user : Z;
  in_chat : chat;
  command_name : option string
}.

(** [cmd : Union[str, List[str]]] *)
Inductive commands :=
  | OneCommand (c : string)
  | ManyCommands (cs : list string).

(** Filter objects: the four filters of [cust_filter], any filter built
    by the caller, and [base & other] ([AndFilter]). *)
Inductive filter :=
  | FCommand (cmd : commands)
  | FAdmin
  | FBotAdmin
  | FStaff
  | FCustom (p : client → message → result bool)
  | FAnd (base other : filter).

Definition chat_administrators (c : chat) : list Z :=
  match c with
  | Private => []
  | Group administrators => administrators
  end.

(** Modelled from the spec: [cust_filter.command], which is not among the
    sources; "is one of these command names". *)
Definition command_filter (cmd : commands) (m : message) : result bool :=
  match command_name m with
  | None => Ok false
  | Some c =>
    match cmd with
    | OneCommand c' => Ok (bool_decide (c = c'))
    | ManyCommands cs => Ok (bool_decide (c ∈ cs))
    end
  end.

(** Modelled from the spec: [cust_filter.admin], which is not among the
    sources; "sender is a chat administrator", administrator status being
    meaningless in a private chat. *)
Definition admin_filter (m : message) : result bool :=
  Ok (bool_decide (from_user m ∈ chat_administrators (in_chat m))).

(** Modelled from the spec: [cust_filter.bot_admin], which is not among the
    sources; "bot itself is a chat administrator". *)
Definition bot_admin_filter (c : client) (m : message) : result bool :=
  Ok (bool_decide (me c ∈ chat_administrators (in_chat m))).

(** Modelled from the spec: [cust_filter.staff], which is not among the
    sources; "sender is in the Staff Registry's staff_ids()", read from the
    client when the filter runs. *)
Definition staff_filter (c : client) (m : message) : result bool :=
  match staff_id (staff c) with
  | Ok ids => Ok (bool_decide (VInt (from_user m) ∈ ids))
  | Raise e => Raise e
  end.

(** Calling a filter on an update.  [AndFilter.__call__] evaluates its base
    first and its other operand only when the base accepted. *)
Fixpoint eval (f : filter) (c : client) (m : message) : result bool :=
  match f with
  | FCommand cmd => command_filter cmd m
  | FAdmin => admin_filter m
  | FBotAdmin => bot_admin_filter c m
  | FStaff => staff_filter c m
  | FCustom p => p c m
  | FAnd base other =>
    match eval base c m with
    | Raise e => Raise e
    | Ok false => Ok false
    | Ok true => eval other c m
    end
  end.

(** Handlers registered with the client by [on_message]: dispatch group,
    filter and coroutine function, in registration order. *)
Definition handlers (H : Type) : Type := list (option Z * filter * H).

(** [self.on_message(filters=_filters, group=group)] applied to [coro]:
    registers the handler and returns the function unchanged. *)
Definition on_message {H} (filters : filter) (group : option Z) (coro : H)
    (hs : handlers H) : handlers H * H :=
  (hs ++ [(group, filters, coro)], coro).

(** Truth value of an [Optional[bool]] argument. *)
Definition truthy (b : option bool) : bool :=
  match b with
  | Some true => true
  | Some false | None => false
  end.

(** [decorator] (lines 157-167), the closure [on_command] returns, applied
    to [coro]. *)
Definition decorator {H} (cmd : commands) (filters : option filter)
    (admin staff : option bool) (group : option Z) (coro : H)
    (hs : handlers H) : handlers H * H :=
  let _filters := FCommand cmd in
  let _filters :=
    match filters with
    | Some f => FAnd _filters f
    | None => _filters
    end in
  let _filters :=
    if truthy admin then FAnd (FAnd _filters FAdmin) FBotAdmin
    else if truthy staff then FAnd _filters FStaff
    else _filters in
  on_message _filters group coro hs.

(** [on_command(cmd, filters, admin, staff, group)] (lines 126-168). *)
Definition on_command {H} (cmd : commands) (filters : option filter)
    (admin staff : option bool) (group : option Z)
  : H → handlers H → handlers H * H :=
  decorator cmd filters admin staff group.

End Command.

(** ** Construction *)

Module Construct.
Import Staff.

(** [neko_bot.Config], which is not among the sources: the four settings
    the constructor reads. *)
Record Config := {
  API_ID : Z;
  API_HASH : string;
  BOT_TOKEN : string;
  OWNER_ID : Z
}.

(** Keyword-argument values. *)
Inductive kwval :=
  | KNone
  | KBool (b : bool)
  | KInt (n : Z)
  | KStr (s : string).

(** What [__init__] leaves behind: the keyword arguments handed to
    [super().__init__], the recorded start time, and the class-level
    staff dictionary. *)
Record constructed (time : Type) := {
  client_kwargs : gmap string kwval;
  _start_time : time;
  class_staff : gmap string pyval
}.
Arguments client_kwargs {time} _.
Arguments _start_time {time} _.
Arguments class_staff {time} _.

(** [__init__(self, **kwargs)] (lines 26-36); [now] is what [time.time()]
    returns.  The parameter [kwargs] is rebound before it is read. *)
Definition __init__ {time} (cfg : Config) (now : time)
    (staff : gmap string pyval) (kwargs : gmap string kwval)
  : constructed time :=
  let kwargs : gmap string kwval :=
    <["session_name" := KStr ":memory:"]>
      (<["bot_token" := KStr (BOT_TOKEN cfg)]>
         (<["api_hash" := KStr (API_HASH cfg)]>
            (<["api_id" := KInt (API_ID cfg)]> ∅))) in
  {| client_kwargs := kwargs;
     _start_time := now;
     class_staff := set_owner (OWNER_ID cfg) staff |}.

End Construct.

(** ** Life cycle: start, stop, shutdown, begin *)

Module Lifecycle.
Import Staff.

(** Tasks of the event loop, by number. *)
Abbreviation task := nat.

Inductive Signals := SIGHUP | SIGTERM | SIGINT.

(** Calls the module makes on its collaborators, in the order made. *)
Inductive event :=
  | AddSignalHandler (sig : Signals)   (* self.loop.add_signal_handler *)
  | PoolStart                          (* pool.start() *)
  | ConnectDb (name : string)          (* self.connect_db(name) *)
  | ImportModule (name : string)       (* importlib.import_module *)
  | GetCollection (name : string)      (* self.get_collection(name) *)
  | Find                               (* async for ... in _db.find() *)
  | ClientStart                        (* super().start() *)
  | ClientStop                         (* super().stop() *)
  | DisconnectDb                       (* self.disconnect_db() *)
  | PoolStop                           (* pool.stop() *)
  | RunCoroutine                       (* run_until_complete(coro) *)
  | Idle                               (* idle() *)
  | LockAcquire                        (* entering [async with lock] *)
  | LockRelease                        (* leaving [async with lock] *)
  | CancelTracked (t : task)           (* task.cancel(), line 93 *)
  | CancelOther (t : task)             (* t.cancel(), line 97 *)
  | ShutdownAsyncgens                  (* self.loop.shutdown_asyncgens() *)
  | LoopStop                           (* self.loop.stop() *)
  | LoopClose                          (* self.loop.close() *)
  | Log (msg : string).                (* LOGGER.info / LOGGER.debug *)

#[global] Instance Signals_eq_dec : EqDecision Signals.
Proof. solve_decision. Defined.

#[global] Instance event_eq_dec : EqDecision event.
Proof. solve_decision. Defined.

(** What the collaborators do in one run: the plugin list and which plugins
    carry a true [__MODULE__]; which calls raise, and what; the documents of
    the "STAFF" collection; the tasks [asyncio.all_tasks()] reports and the
    task that is running. *)
Record env := {
  ALL_MODULES : list string;
  has_MODULE : string → bool;
  raises : event → option exn;
  STAFF : list staff_record;
  all_tasks : list task;
  current_task : task
}.

(** The mutable state the life cycle reads and writes: the staff
    dictionary, the client's [is_initialized] flag, the list [tasks] that
    [begin] creates and [finalized] closes over, and the calls made. *)
Record world := {
  staff : gmap string pyval;
  is_initialized : bool;
  tasks : list task;
  log : list event
}.

Definition set_staff (f : gmap string pyval → gmap string pyval) (w : world)
  : world :=
  {| staff := f (staff w); is_initialized := is_initialized w;
     tasks := tasks w; log := log w |}.

Definition set_initialized (b : bool) (w : world) : world :=
  {| staff := staff w; is_initialized := b; tasks := tasks w; log := log w |}.

Definition set_tasks (ts : list task) (w : world) : world :=
  {| staff := staff w; is_initialized := is_initialized w;
     tasks := ts; log := log w |}.

Definition add_log (e : event) (w : world) : world :=
  {| staff := staff w; is_initialized := is_initialized w;
     tasks := tasks w; log := log w ++ [e] |}.

(** Computations over the world that return or raise. *)
Definition run (A : Type) : Type := world → world * result A.

Definition ret {A} (a : A) : run A := λ w, (w, Ok a).

Definition bind {A B} (f : A → run B) (m : run A) : run B :=
  λ w, match m w with
       | (w', Ok a) => f a w'
       | (w', Raise e) => (w', Raise e)
       end.

#[global] Instance run_ret : MRet run := @ret.
#[global] Instance run_bind : MBind run := @bind.

(** [try: m finally: cleanup] *)
Definition try_finally {A} (m : run A) (cleanup : run unit) : run A :=
  λ w, match m w with
       | (w', r) =>
         match cleanup w' with
         | (w'', Ok _) => (w'', r)
         | (w'', Raise e) => (w'', Raise e)
         end
       end.

(** [try: m except classes: pass] *)
Definition try_except_pass (m : run unit) (classes : exn → bool) : run unit :=
  λ w, match m w with
       | (w', Ok a) => (w', Ok a)
       | (w', Raise e) => (w', if classes e then Ok tt else Raise e)
       end.

(** [for x in xs: body x] *)
Fixpoint for_each {A} (xs : list A) (body : A → run unit) : run unit :=
  match xs with
  | [] => ret tt
  | x :: xs' => body x ;; for_each xs' body
  end.

Definition get {A} (f : world → A) : run A := λ w, (w, Ok (f w)).

Definition modify (f : world → world) : run unit := λ w, (f w, Ok tt).

(** A call that cannot raise. *)
Definition emit (e : event) : run unit := modify (add_log e).

Section WithEnv.
Variable E : env.

(** A call that raises when the environment says so. *)
Definition call (e : event) : run unit :=
  λ w, (add_log e w,
        match raises E e with
        | None => Ok tt
        | Some x => Raise x
        end).

(** The loop of [_load_staff] over the documents of the environment. *)
Definition load_documents : run unit :=
  λ w, match load_loop (staff w) (STAFF E) with
       | (staff', r) => (set_staff (λ _, staff') w, r)
       end.

(** [await self._load_staff()] against the collection of the environment:
    the reset happens before the iteration starts. *)
Definition _load_staff : run unit :=
  call (GetCollection "STAFF") ;;
  modify (set_staff reset_ranks) ;;
  call Find ;;
  load_documents.

(** [start] (lines 60-75).  A successful [super().start()] leaves the
    client initialized. *)
Definition start : run unit :=
  call PoolStart ;;
  call (ConnectDb "NekoBot") ;;
  emit (Log "Importing available modules") ;;
  for_each (ALL_MODULES E) (λ mod_name,
    call (ImportModule mod_name) ;;
    if has_MODULE E mod_name
    then emit (Log (String.append mod_name " module loaded"))
    else ret tt) ;;
  _load_staff ;;
  emit (Log "Starting Bot Client...") ;;
  call ClientStart ;;
  modify (set_initialized true).

(** [stop] (lines 77-82).  A successful [super().stop()] leaves the client
    uninitialized. *)
Definition stop : run unit :=
  emit (Log "Disconnecting...") ;;
  call ClientStop ;;
  modify (set_initialized false) ;;
  call DisconnectDb ;;
  call PoolStop.

(** [async with lock: body], the lock being free. *)
Definition with_lock (body : run unit) : run unit :=
  emit LockAcquire ;;
  try_finally body (emit LockRelease).

(** [for task in tasks: task.cancel()] (lines 92-93) *)
Definition cancel_tracked : run unit :=
  get tasks ≫= (λ ts : list task,
    for_each ts (λ t, emit (CancelTracked t))).

(** [[t.cancel() for t in asyncio.all_tasks()
      if t is not asyncio.current_task()]] (line 97) *)
Definition cancel_others : run unit :=
  for_each (filter (λ t, t ≠ current_task E) (all_tasks E))
           (λ t, emit (CancelOther t)).

(** [finalized] (lines 90-100). *)
Definition finalized : run unit :=
  with_lock (
    cancel_tracked ;;
    get is_initialized ≫= (λ initialized : bool,
      if initialized then stop else ret tt) ;;
    cancel_others ;;
    call ShutdownAsyncgens ;;
    emit LoopStop ;;
    emit (Log "Loop stopped")).

(** [except (asyncio.CancelledError, RuntimeError)]: instances of the two
    classes and of their subclasses. *)
Definition cancelled_or_runtime (e : exn) : bool :=
  match e with
  | CancelledError | RuntimeError | NotImplementedError | RecursionError =>
      true
  | _ => false
  end.

(** The body of the [try] of [begin] (lines 113-119); [coro] tells whether
    a coroutine was passed. *)
Definition run_and_finalize (coro : bool) : run unit :=
  (if coro then emit (Log "Running Coroutine") ;; call RunCoroutine
   else emit (Log "Idling") ;; call Idle) ;;
  finalized.

(** [begin] (lines 84-124) when none of the three signals is delivered
    while the loop runs: the handlers are installed and none is run.
    [Signalled.begin] runs them. *)
Definition begin (coro : bool) : run unit :=
  modify (set_tasks []) ;;
  for_each [SIGHUP; SIGTERM; SIGINT] (λ sig, emit (AddSignalHandler sig)) ;;
  start ;;
  try_finally
    (try_except_pass (run_and_finalize coro) cancelled_or_runtime)
    (emit LoopClose ;; emit (Log "Loop closed")).

End WithEnv.

End Lifecycle.

(** ** Shutdown tasks on the event loop *)

Module Shutdown.
Import Lifecycle.

(** The future a task waits on inside [asyncio.Lock.acquire]: pending,
    given its result by [_wake_up_first], or cancelled. *)
Inductive future := Pending | Woken | Cancelled.

(** Where a task that runs [shutdown(sig)] or [finalized()] stands: created
    and not yet run (with the signal, when a handler created it); suspended
    in [lock.acquire()]; suspended, the lock held, in one of the awaits of
    [self.stop()] or in [await self.loop.shutdown_asyncgens()]; done. *)
Inductive pc :=
  | Created (sig : option Signals)
  | AwaitLock
  | AwaitClientStop
  | AwaitDisconnectDb
  | AwaitPoolStop
  | AwaitAsyncgens
  | Done (r : result unit).

(** A task of the loop: where it stands, and whether a cancellation
    requested by [cancel()] is still to be delivered to it. *)
Record job := { point : pc; must_cancel : bool }.

(** The lock and the list [tasks] created by [begin], the tasks of the
    loop (a task is its index), the client's [is_initialized] flag, and the
    calls made so far. *)
Record system := {
  _locked : bool;
  _waiters : list (task * future);
  jobs : list job;
  tracked : list task;
  client_initialized : bool;
  calls : list event
}.

Definition with_lock_state (l : bool) (ws : list (task * future))
    (s : system) : system :=
  {| _locked := l; _waiters := ws; jobs := jobs s; tracked := tracked s;
     client_initialized := client_initialized s; calls := calls s |}.

Definition with_jobs (js : list job) (s : system) : system :=
  {| _locked := _locked s; _waiters := _waiters s; jobs := js;
     tracked := tracked s; client_initialized := client_initialized s;
     calls := calls s |}.

Definition with_initialized (b : bool) (s : system) : system :=
  {| _locked := _locked s; _waiters := _waiters s; jobs := jobs s;
     tracked := tracked s; client_initialized := b; calls := calls s |}.

Definition record (e : event) (s : system) : system :=
  {| _locked := _locked s; _waiters := _waiters s; jobs := jobs s;
     tracked := tracked s; client_initialized := client_initialized s;
     calls := calls s ++ [e] |}.

Definition set_point (t : task) (p : pc) (s : system) : system :=
  with_jobs
    (alter (λ j, {| point := p; must_cancel := must_cancel j |}) t (jobs s)) s.

Definition set_must_cancel (t : task) (s : system) : system :=
  with_jobs
    (alter (λ j, {| point := point j; must_cancel := true |}) t (jobs s)) s.

(** The state of the future task [t] waits on, if it is in the queue. *)
Fixpoint future_of (t : task) (ws : list (task * future)) : option future :=
  match ws with
  | [] => None
  | (t', f) :: ws' => if decide (t' = t) then Some f else future_of t ws'
  end.

(** [self._waiters.remove(fut)] for the future of task [t]. *)
Fixpoint remove_waiter (t : task) (ws : list (task * future))
  : list (task * future) :=
  match ws with
  | [] => []
  | (t', f) :: ws' =>
      if decide (t' = t) then ws' else (t', f) :: remove_waiter t ws'
  end.

(** [fut.cancel()] on the pending future of task [t]. *)
Fixpoint cancel_waiter (t : task) (ws : list (task * future))
  : list (task * future) :=
  match ws with
  | [] => []
  | (t', f) :: ws' =>
      if decide (t' = t)
      then (t', match f with Pending => Cancelled | _ => f end) :: ws'
      else (t', f) :: cancel_waiter t ws'
  end.

(** [Lock._wake_up_first]: the first waiter gets its result unless its
    future is done already. *)
Definition _wake_up_first (ws : list (task * future))
  : list (task * future) :=
  match ws with
  | (t, Pending) :: ws' => (t, Woken) :: ws'
  | _ => ws
  end.

Definition is_cancelled (w : task * future) : bool :=
  match w.2 with Cancelled => true | _ => false end.

Definition is_done (j : job) : bool :=
  match point j with Done _ => true | _ => false end.

(** [Task.cancel()]: nothing on a task that is done; the future the task
    waits on is cancelled if it is still pending; otherwise the request is
    kept for the next time the task runs. *)
Definition cancel (t : task) (s : system) : system :=
  match jobs s !! t with
  | None => s
  | Some j =>
    match point j with
    | Done _ => s
    | AwaitLock =>
      match future_of t (_waiters s) with
      | Some Pending =>
          with_lock_state (_locked s) (cancel_waiter t (_waiters s)) s
      | _ => set_must_cancel t s
      end
    | _ => set_must_cancel t s
    end
  end.

(** [asyncio.all_tasks()]: the tasks of the loop that are not done. *)
Definition all_tasks (s : system) : list task :=
  filter (λ t, from_option is_done true (jobs s !! t) = false)
         (seq 0 (length (jobs s))).

(** Lines 92-93, run by the task that holds the lock. *)
Definition cancel_tracked (s : system) : system :=
  foldl (λ s t, cancel t (record (CancelTracked t) s)) s (tracked s).

(** Line 97, run by task [me]. *)
Definition cancel_others (me : task) (s : system) : system :=
  foldl (λ s t, cancel t (record (CancelOther t) s)) s
        (filter (λ t, t ≠ me) (all_tasks s)).

(** Leaving [async with lock] with outcome [r]: [lock.release()], which
    raises [RuntimeError] on a lock that is not held, and the end of the
    task. *)
Definition leave (t : task) (r : result unit) (s : system) : system :=
  let s := record LockRelease s in
  if _locked s
  then set_point t (Done r)
         (with_lock_state false (_wake_up_first (_waiters s)) s)
  else set_point t (Done (Raise RuntimeError)) s.

(** Lines 97-98 up to the suspension in [shutdown_asyncgens()]. *)
Definition after_stop (t : task) (s : system) : system :=
  set_point t AwaitAsyncgens (record ShutdownAsyncgens (cancel_others t s)).

(** Lines 92-95 once the lock is taken, up to the first suspension. *)
Definition enter (t : task) (s : system) : system :=
  let s := cancel_tracked (record LockAcquire s) in
  if client_initialized s
  then set_point t AwaitClientStop
         (record ClientStop (record (Log "Disconnecting...") s))
  else after_stop t s.

(** [lock.acquire()] by a task that starts running: the lock is taken at
    once when it is free and no live waiter is queued; otherwise the task
    queues a future and suspends. *)
Definition acquire (t : task) (s : system) : system :=
  if negb (_locked s) && forallb is_cancelled (_waiters s)
  then enter t (with_lock_state true (_waiters s) s)
  else set_point t AwaitLock
         (with_lock_state (_locked s) (_waiters s ++ [(t, Pending)]) s).

Definition signal_name (sig : Signals) : string :=
  match sig with
  | SIGHUP => "SIGHUP"
  | SIGTERM => "SIGTERM"
  | SIGINT => "SIGINT"
  end.

(** What moves the system: the loop runs the handler of a delivered signal
    (line 108), [begin] schedules [finalized()] itself (line 119), or the
    loop resumes a task, [raised] telling whether the call the task was
    suspended in raised. *)
Inductive label :=
  | Deliver (sig : Signals)
  | Finalize
  | Resume (t : task) (raised : option exn).

Definition spawn (sig : option Signals) (s : system) : system :=
  with_jobs (jobs s ++ [ {| point := Created sig; must_cancel := false |} ]) s.

(** One run of task [t] from where it stands to its next suspension.  A
    task created with a cancellation pending never runs its body.  In
    [lock.acquire()] the task goes on when its future has its result: it
    leaves the queue and takes the lock; a cancelled task leaves the queue,
    wakes the next waiter when the lock is free, and ends.  In the critical
    section a cancellation or an exception of the awaited call releases the
    lock and ends the task. *)
Definition resume (t : task) (raised : option exn) (s : system)
  : option system :=
  match jobs s !! t with
  | None => None
  | Some j =>
    let cancelled_or (k : system) : system :=
      if must_cancel j then leave t (Raise CancelledError) s
      else match raised with
           | Some e => leave t (Raise e) s
           | None => k
           end in
    match point j with
    | Done _ => None
    | Created sig =>
      if must_cancel j then Some (set_point t (Done (Raise CancelledError)) s)
      else
        let s :=
          match sig with
          | Some sig =>
              record (Log ("Received Stop Signal [" +:+ signal_name sig
                           +:+ "], Exiting...")) s
          | None => s
          end in
        Some (acquire t s)
    | AwaitLock =>
      let ws := remove_waiter t (_waiters s) in
      match must_cancel j, future_of t (_waiters s) with
      | false, Some Woken => Some (enter t (with_lock_state true ws s))
      | false, (Some Pending | None) => None
      | true, _ | false, Some Cancelled =>
        Some (set_point t (Done (Raise CancelledError))
                (with_lock_state (_locked s)
                   (if _locked s then ws else _wake_up_first ws) s))
      end
    | AwaitClientStop =>
      Some (cancelled_or
              (set_point t AwaitDisconnectDb
                 (record DisconnectDb (with_initialized false s))))
    | AwaitDisconnectDb =>
      Some (cancelled_or (set_point t AwaitPoolStop (record PoolStop s)))
    | AwaitPoolStop =>
      Some (cancelled_or (after_stop t s))
    | AwaitAsyncgens =>
      Some (cancelled_or
              (leave t (Ok tt)
                 (record (Log "Loop stopped") (record LoopStop s))))
    end
  end.

(** One step.  Of [self.loop.stop()] the system keeps the call only, so a
    run may go on after [LoopStop], which the loop of the program does not;
    and [start] is no step of it, so the client's flag is the one [initial]
    fixes until [super().stop()] clears it. *)
Definition step (s : system) (l : label) : option system :=
  match l with
  | Deliver sig => Some (spawn (Some sig) s)
  | Finalize => Some (spawn None s)
  | Resume t raised => resume t raised s
  end.

(** The system when [begin] has created the lock and the empty list
    [tasks], with the client initialized or not. *)
Definition initial (initialized : bool) : system :=
  {| _locked := false; _waiters := []; jobs := []; tracked := [];
     client_initialized := initialized; calls := [] |}.

Fixpoint steps (s : system) (ls : list label) : option system :=
  match ls with
  | [] => Some s
  | l :: ls' =>
    match step s l with
    | Some s' => steps s' ls'
    | None => None
    end
  end.

(** The task is suspended between taking and releasing the lock. *)
Definition in_critical_section (p : pc) : bool :=
  match p with
  | AwaitClientStop | AwaitDisconnectDb | AwaitPoolStop | AwaitAsyncgens =>
      true
  | _ => false
  end.

End Shutdown.

(** ** [begin] with the handlers of the signals it installs *)

Module Signalled.
Import Staff Lifecycle.

Section WithEnv.
Variable E : env.

(** The environment as the task [t] that a signal handler created sees it
    (line 108): [t] is one more task of the loop, and the one running. *)
Definition in_task (t : task) : env :=
  {| ALL_MODULES := ALL_MODULES E; has_MODULE := has_MODULE E;
     raises := raises E; STAFF := STAFF E;
     all_tasks := all_tasks E ++ [t]; current_task := t |}.

(** [shutdown(sig)] (lines 102-104), run by task [t]. *)
Definition shutdown (t : task) (sig : Signals) : run unit :=
  emit (Log ("Received Stop Signal [" +:+ Shutdown.signal_name sig
             +:+ "], Exiting...")) ;;
  finalized (in_task t).

(** What the loop does with the signals of (SIGHUP, SIGTERM, SIGINT)
    delivered while it runs the coroutine or idles, each with the task its
    handler creates: the task runs [shutdown(sig)], and what it raises stays
    in the task, which nothing awaits.  A task that gets to
    [self.loop.stop()] (line 99) stops the loop, after which no signal is
    handled.  The result tells whether the loop was stopped.  Each task runs
    to its end before the next signal is delivered and before the coroutine
    or [idle()] ends; module [Shutdown] has the tasks interleaved. *)
Fixpoint handlers (delivered : list (Signals * task)) (w : world)
  : world * bool :=
  match delivered with
  | [] => (w, false)
  | (sig, t) :: rest =>
      match shutdown t sig w with
      | (w', Ok _) => (w', true)
      | (w', Raise _) => handlers rest w'
      end
  end.

(** [self.loop.run_until_complete(coro)], or [idle()], which runs the loop
    likewise (lines 115, 118), with the signals delivered meanwhile.  The
    call raises what the coroutine or [idle()] raises, if anything;
    otherwise, when a handler's task has stopped the loop, it raises
    [RuntimeError] (the loop stopped before the future completed);
    otherwise it returns. *)
Definition run_loop (coro : bool) (delivered : list (Signals * task))
  : run unit :=
  let c := if coro then RunCoroutine else Idle in
  λ w, match handlers delivered (add_log c w) with
       | (w', stopped) =>
           (w', match raises E c with
                | Some x => Raise x
                | None => if stopped then Raise RuntimeError else Ok tt
                end)
       end.

(** The body of the [try] of [begin] (lines 113-119). *)
Definition run_and_finalize (coro : bool) (delivered : list (Signals * task))
  : run unit :=
  emit (Log (if coro then "Running Coroutine" else "Idling")) ;;
  run_loop coro delivered ;;
  finalized E.

(** [begin] (lines 84-124), the handlers installed at lines 106-108 being
    run for the signals delivered. *)
Definition begin (coro : bool) (delivered : list (Signals * task))
  : run unit :=
  modify (set_tasks []) ;;
  for_each [SIGHUP; SIGTERM; SIGINT] (λ sig, emit (AddSignalHandler sig)) ;;
  start E ;;
  try_finally
    (try_except_pass (run_and_finalize coro delivered) cancelled_or_runtime)
    (emit LoopClose ;; emit (Log "Loop closed")).

End WithEnv.

End Signalled.

(** * Properties *)

Module StaffFacts.
Import Staff.

(** States of the class-level dictionary that the module itself can
    produce: [dict()] with the owner set by a constructor, further
    constructions, and any number of (possibly failing) loads. *)
Inductive reachable (OWNER_ID : Z) : gmap string pyval → Prop :=
  | reach_init : reachable OWNER_ID (staff_init OWNER_ID)
  | reach_ctor staff :
      reachable OWNER_ID staff → reachable OWNER_ID (set_owner OWNER_ID staff)
  | reach_load staff docs :
      reachable OWNER_ID staff →
      reachable OWNER_ID (_load_staff staff docs).1.

Lemma rank_ok_spec i : rank_ok i = true ↔ rank i = "dev" ∨ rank i = "sudo".
Proof.
  unfold rank_ok. rewrite orb_true_iff, !bool_decide_eq_true. done.
Qed.

Lemma ids_of_cons_eq r i docs :
  rank i = r → ids_of r (i :: docs) = _id i :: ids_of r docs.
Proof. intros H. unfold ids_of. rewrite filter_cons_True by done. done. Qed.

Lemma ids_of_cons_ne r i docs :
  rank i ≠ r → ids_of r (i :: docs) = ids_of r docs.
Proof. intros H. unfold ids_of. rewrite filter_cons_False by done. done. Qed.

(** The loop over well-ranked documents succeeds and extends the two
    lists, leaving every other key alone. *)
Lemma load_loop_ok docs : ∀ (staff : gmap string pyval) d s,
  staff !! "dev" = Some (VList d) →
  staff !! "sudo" = Some (VList s) →
  Forall (λ i, rank_ok i = true) docs →
  ∃ staff',
    load_loop staff docs = (staff', Ok tt) ∧
    staff' !! "dev" = Some (VList (d ++ ids_of "dev" docs)) ∧
    staff' !! "sudo" = Some (VList (s ++ ids_of "sudo" docs)) ∧
    ∀ k, k ≠ "dev" → k ≠ "sudo" → staff' !! k = staff !! k.
Proof.
  induction docs as [|i docs IH]; intros staff d s Hd Hs Hall.
  - exists staff. simpl. rewrite !app_nil_r. done.
  - apply Forall_cons in Hall as [Hi Hall].
    apply rank_ok_spec in Hi. simpl. unfold append_record.
    destruct Hi as [Hi|Hi]; rewrite Hi.
    + rewrite Hd.
      destruct (IH (<["dev" := VList (d ++ [_id i])]> staff)
                  (d ++ [_id i]) s) as (staff' & Hl & Hd' & Hs' & Hk).
      { by rewrite lookup_insert_eq. }
      { by rewrite lookup_insert_ne. }
      { done. }
      exists staff'. split; [done|].
      rewrite (ids_of_cons_eq "dev") by done.
      rewrite (ids_of_cons_ne "sudo") by (rewrite Hi; done).
      rewrite Hd', Hs', <- app_assoc. simpl.
      repeat split; try done.
      intros k Hk1 Hk2. rewrite Hk by done. by rewrite lookup_insert_ne.
    + rewrite Hs.
      destruct (IH (<["sudo" := VList (s ++ [_id i])]> staff)
                  d (s ++ [_id i])) as (staff' & Hl & Hd' & Hs' & Hk).
      { by rewrite lookup_insert_ne. }
      { by rewrite lookup_insert_eq. }
      { done. }
      exists staff'. split; [done|].
      rewrite (ids_of_cons_eq "sudo") by done.
      rewrite (ids_of_cons_ne "dev") by (rewrite Hi; done).
      rewrite Hd', Hs', <- app_assoc. simpl.
      repeat split; try done.
      intros k Hk1 Hk2. rewrite Hk by done. by rewrite lookup_insert_ne.
Qed.

Lemma load_staff_ok (staff : gmap string pyval) docs :
  Forall (λ i, rank_ok i = true) docs →
  ∃ staff',
    _load_staff staff docs = (staff', Ok tt) ∧
    staff' !! "dev" = Some (VList (ids_of "dev" docs)) ∧
    staff' !! "sudo" = Some (VList (ids_of "sudo" docs)) ∧
    ∀ k, k ≠ "dev" → k ≠ "sudo" → staff' !! k = staff !! k.
Proof.
  intros Hall. unfold _load_staff, reset_ranks.
  destruct (load_loop_ok docs
              (<["sudo" := VList []]> (<["dev" := VList []]> staff)) [] [])
    as (staff' & Hl & Hd & Hs & Hk); [| |done|].
  { rewrite lookup_insert_ne by done. by rewrite lookup_insert_eq. }
  { by rewrite lookup_insert_eq. }
  exists staff'. repeat split; try done.
  intros k Hk1 Hk2. rewrite Hk by done. by rewrite !lookup_insert_ne.
Qed.

Lemma staff_id_of_load (OWNER_ID : Z) (staff : gmap string pyval) docs :
  staff !! "owner" = Some (VInt OWNER_ID) →
  Forall (λ i, rank i = "dev" ∨ rank i = "sudo") docs →
  ∃ staff',
    _load_staff staff docs = (staff', Ok tt) ∧
    staff_id staff' =
      Ok (VInt OWNER_ID ::
          (VInt <$> ids_of "dev" docs ++ ids_of "sudo" docs)).
Proof.
  intros Ho Hall.
  destruct (load_staff_ok staff docs) as (staff' & Hl & Hd & Hs & Hk).
  { eapply Forall_impl; [exact Hall|]. intros i Hi. by apply rank_ok_spec. }
  exists staff'. split; [done|].
  unfold staff_id. rewrite Hk by done. rewrite Ho, Hd, Hs. done.
Qed.

(** C1: after a load over documents ranked "dev" or "sudo", [staff_id] is
    the owner, then the "dev" identifiers, then the "sudo" identifiers, each
    group in iteration order and with duplicates kept. *)
Theorem staff_id_after_load (OWNER_ID : Z) (staff : gmap string pyval)
    (docs : list staff_record) :
  staff !! "owner" = Some (VInt OWNER_ID) →
  Forall (λ i, rank i = "dev" ∨ rank i = "sudo") docs →
  ∃ staff',
    _load_staff staff docs = (staff', Ok tt) ∧
    staff_id staff' =
      Ok (VInt OWNER_ID ::
          (VInt <$> (_id <$> filter (λ i, rank i = "dev") docs) ++
                    (_id <$> filter (λ i, rank i = "sudo") docs))).
Proof.
  intros Ho Hall. exact (staff_id_of_load OWNER_ID staff docs Ho Hall).
Qed.

Lemma staff_id_after_load_witness :
  ∃ staff',
    _load_staff (staff_init 7)
      [ {| _id := 3; rank := "sudo" |}; {| _id := 5; rank := "dev" |};
        {| _id := 3; rank := "sudo" |}; {| _id := 4; rank := "dev" |};
        {| _id := 5; rank := "dev" |} ] = (staff', Ok tt) ∧
    staff_id staff' =
      Ok [VInt 7; VInt 5; VInt 4; VInt 5; VInt 3; VInt 3].
Proof.
  apply (staff_id_after_load 7 (staff_init 7)
    [ {| _id := 3; rank := "sudo" |}; {| _id := 5; rank := "dev" |};
      {| _id := 3; rank := "sudo" |}; {| _id := 4; rank := "dev" |};
      {| _id := 5; rank := "dev" |} ]).
  - reflexivity.
  - repeat (apply Forall_cons; split;
            [ (left; reflexivity) || (right; reflexivity) | ]).
    by apply Forall_nil.
Defined.

(** *** Shape of the dictionary *)

(** What a subscript-then-append does at a key depends only on whether the
    key is absent, bound to an integer or bound to a list. *)
Inductive shape := Absent | IsInt | IsList.

Definition shape_of (o : option pyval) : shape :=
  match o with
  | None => Absent
  | Some (VInt _) => IsInt
  | Some (VList _) => IsList
  end.

Lemma append_record_shape (staff : gmap string pyval) i k :
  shape_of ((append_record staff i).1 !! k) = shape_of (staff !! k).
Proof.
  unfold append_record.
  destruct (staff !! rank i) as [[n|l]|] eqn:E; simpl; try done.
  destruct (decide (rank i = k)) as [<-|Hne].
  - by rewrite lookup_insert_eq, E.
  - by rewrite lookup_insert_ne.
Qed.

Lemma load_loop_shape docs : ∀ (staff : gmap string pyval) k,
  shape_of ((load_loop staff docs).1 !! k) = shape_of (staff !! k).
Proof.
  induction docs as [|i docs IH]; intros staff k; simpl; [done|].
  pose proof (append_record_shape staff i k) as Hs.
  destruct (append_record staff i) as [staff' [[]|e]]; simpl in *.
  - by rewrite IH.
  - done.
Qed.

Lemma reset_ranks_shape (staff : gmap string pyval) k :
  shape_of (reset_ranks staff !! k) =
    if bool_decide (k = "dev") || bool_decide (k = "sudo")
    then IsList else shape_of (staff !! k).
Proof.
  unfold reset_ranks.
  destruct (decide (k = "sudo")) as [->|Hs]; [by rewrite lookup_insert_eq|].
  rewrite lookup_insert_ne by done.
  destruct (decide (k = "dev")) as [->|Hd]; [by rewrite lookup_insert_eq|].
  rewrite lookup_insert_ne by done.
  by rewrite !bool_decide_eq_false_2.
Qed.

Lemma reset_ranks_dev (staff : gmap string pyval) :
  reset_ranks staff !! "dev" = Some (VList []).
Proof.
  unfold reset_ranks. rewrite lookup_insert_ne by done.
  by rewrite lookup_insert_eq.
Qed.

Lemma reset_ranks_sudo (staff : gmap string pyval) :
  reset_ranks staff !! "sudo" = Some (VList []).
Proof. unfold reset_ranks. by rewrite lookup_insert_eq. Qed.

Lemma load_loop_app pre : ∀ (staff : gmap string pyval) post,
  load_loop staff (pre ++ post) =
    match load_loop staff pre with
    | (staff', Ok _) => load_loop staff' post
    | (staff', Raise e) => (staff', Raise e)
    end.
Proof.
  induction pre as [|i pre IH]; intros staff post; simpl; [done|].
  destruct (append_record staff i) as [staff' [[]|e]]; [apply IH|done].
Qed.

(** *** Two dictionaries that a load cannot tell apart *)

Definition alike (s t : gmap string pyval) : Prop :=
  (∀ k, shape_of (s !! k) = shape_of (t !! k)) ∧
  s !! "dev" = t !! "dev" ∧ s !! "sudo" = t !! "sudo".

Lemma append_record_alike (s t : gmap string pyval) i :
  alike s t →
  alike (append_record s i).1 (append_record t i).1 ∧
  (append_record s i).2 = (append_record t i).2.
Proof.
  intros (Hsh & Hd & Hs). unfold append_record.
  pose proof (Hsh (rank i)) as Hr.
  destruct (s !! rank i) as [[n|l]|] eqn:Es;
    destruct (t !! rank i) as [[n'|l']|] eqn:Et; simpl in *; try done.
  split; [|done]. split; [|split].
  - intros k. destruct (decide (rank i = k)) as [<-|Hne].
    + by rewrite !lookup_insert_eq.
    + rewrite !lookup_insert_ne by done. apply Hsh.
  - destruct (decide (rank i = "dev")) as [Hi|Hne].
    + rewrite Hi in *. rewrite !lookup_insert_eq. congruence.
    + by rewrite !lookup_insert_ne.
  - destruct (decide (rank i = "sudo")) as [Hi|Hne].
    + rewrite Hi in *. rewrite !lookup_insert_eq. congruence.
    + by rewrite !lookup_insert_ne.
Qed.

Lemma load_loop_alike docs : ∀ (s t : gmap string pyval),
  alike s t →
  alike (load_loop s docs).1 (load_loop t docs).1 ∧
  (load_loop s docs).2 = (load_loop t docs).2.
Proof.
  induction docs as [|i docs IH]; intros s t Hst; simpl; [done|].
  destruct (append_record_alike s t i Hst) as [Ha Hr].
  destruct (append_record s i) as [s' rs], (append_record t i) as [t' rt].
  simpl in *. subst rt. destruct rs as [[]|e]; [by apply IH|done].
Qed.

(** C2: a load after an earlier load leaves under "dev" and "sudo" exactly
    what the same load produces without the earlier one (and ends the same
    way): the reset before repopulation forgets whatever was there. *)
Theorem load_twice_replaces (staff : gmap string pyval)
    (R1 R2 : list staff_record) :
  let after_R1 := (_load_staff staff R1).1 in
  (_load_staff after_R1 R2).1 !! "dev" = (_load_staff staff R2).1 !! "dev" ∧
  (_load_staff after_R1 R2).1 !! "sudo" = (_load_staff staff R2).1 !! "sudo" ∧
  (_load_staff after_R1 R2).2 = (_load_staff staff R2).2.
Proof.
  intros after_R1. unfold _load_staff.
  destruct (load_loop_alike R2 (reset_ranks after_R1) (reset_ranks staff))
    as [(_ & Hd & Hs) Hr]; [|done].
  split; [|by rewrite !reset_ranks_dev, !reset_ranks_sudo].
  intros k. rewrite !reset_ranks_shape.
  destruct (bool_decide (k = "dev") || bool_decide (k = "sudo")) eqn:E;
    [done|].
  subst after_R1. unfold _load_staff.
  rewrite load_loop_shape, reset_ranks_shape, E. done.
Qed.

(** *** Keys of the reachable dictionaries *)

Definition only_ranks (staff : gmap string pyval) : Prop :=
  shape_of (staff !! "owner") = IsInt ∧
  ∀ k, k ≠ "owner" → k ≠ "dev" → k ≠ "sudo" → staff !! k = None.

Lemma set_owner_only_ranks OWNER_ID (staff : gmap string pyval) :
  (∀ k, k ≠ "owner" → k ≠ "dev" → k ≠ "sudo" → staff !! k = None) →
  only_ranks (set_owner OWNER_ID staff).
Proof.
  intros H. unfold set_owner. split.
  - by rewrite lookup_insert_eq.
  - intros k Ho Hd Hs. rewrite lookup_insert_ne by done. by apply H.
Qed.

Lemma load_staff_shape (staff : gmap string pyval) docs k :
  k ≠ "dev" → k ≠ "sudo" →
  shape_of ((_load_staff staff docs).1 !! k) = shape_of (staff !! k).
Proof.
  intros Hd Hs. unfold _load_staff.
  rewrite load_loop_shape, reset_ranks_shape.
  by rewrite !bool_decide_eq_false_2.
Qed.

Lemma reachable_only_ranks OWNER_ID staff :
  reachable OWNER_ID staff → only_ranks staff.
Proof.
  induction 1 as [|staff _ [_ IH]|staff docs _ [IHo IH]].
  - apply set_owner_only_ranks. intros k _ _ _. apply lookup_empty.
  - by apply set_owner_only_ranks.
  - split.
    + by rewrite load_staff_shape.
    + intros k Ho Hd Hs. specialize (IH k Ho Hd Hs).
      pose proof (load_staff_shape staff docs k Hd Hs) as E.
      rewrite IH in E. revert E.
      by destruct ((_load_staff staff docs).1 !! k) as [[]|].
Qed.

(** C9: on a dictionary the module can have produced, a load succeeds when
    every document is ranked "dev" or "sudo"; the first document ranked
    otherwise ends it with [AttributeError] (rank "owner", an integer entry)
    or [KeyError] (any other rank, a missing key), returned to the caller,
    the documents before it having been appended and none after it. *)
Theorem load_fails_on_other_rank (OWNER_ID : Z) (staff : gmap string pyval)
    (docs : list staff_record) :
  reachable OWNER_ID staff →
  (Forall (λ i, rank i = "dev" ∨ rank i = "sudo") docs →
   (_load_staff staff docs).2 = Ok tt) ∧
  (∀ pre i post,
     docs = pre ++ i :: post →
     Forall (λ j, rank j = "dev" ∨ rank j = "sudo") pre →
     rank i ≠ "dev" → rank i ≠ "sudo" →
     (_load_staff staff docs).2 =
       Raise (if decide (rank i = "owner") then AttributeError else KeyError) ∧
     (_load_staff staff docs).1 = (_load_staff staff pre).1).
Proof.
  intros Hreach. apply reachable_only_ranks in Hreach as [Ho Hk].
  assert (Hok : ∀ l, Forall (λ i, rank i = "dev" ∨ rank i = "sudo") l →
            Forall (λ i, rank_ok i = true) l).
  { intros l Hl. eapply Forall_impl; [exact Hl|].
    intros i Hi. by apply rank_ok_spec. }
  split.
  - intros Hall. destruct (load_staff_ok staff docs (Hok _ Hall))
      as (staff' & -> & _). done.
  - intros pre i post -> Hpre Hd Hs.
    destruct (load_staff_ok staff pre (Hok _ Hpre)) as (staff' & Hl & _).
    pose proof (load_staff_shape staff pre) as Hsh.
    unfold _load_staff in *. rewrite load_loop_app, Hl in *. simpl in *.
    unfold append_record.
    destruct (decide (rank i = "owner")) as [Hi|Hi].
    + specialize (Hsh "owner"). rewrite Ho, Hi in *.
      destruct (staff' !! "owner") as [[n|l]|]; try done.
      by specialize (Hsh ltac:(done) ltac:(done)).
      by specialize (Hsh ltac:(done) ltac:(done)).
    + specialize (Hsh (rank i) Hd Hs). rewrite (Hk _ Hi Hd Hs) in Hsh.
      by destruct (staff' !! rank i) as [[n|l]|].
Qed.

Lemma load_fails_on_other_rank_witness :
  (_load_staff (staff_init 7)
     [ {| _id := 1; rank := "dev" |}; {| _id := 2; rank := "owner" |};
       {| _id := 3; rank := "sudo" |} ]).2 = Raise AttributeError ∧
  (_load_staff (staff_init 7)
     [ {| _id := 1; rank := "dev" |}; {| _id := 2; rank := "owner" |};
       {| _id := 3; rank := "sudo" |} ]).1 =
  (_load_staff (staff_init 7) [ {| _id := 1; rank := "dev" |} ]).1.
Proof.
  apply (proj2 (load_fails_on_other_rank 7 (staff_init 7)
     [ {| _id := 1; rank := "dev" |}; {| _id := 2; rank := "owner" |};
       {| _id := 3; rank := "sudo" |} ] (reach_init 7))
     [ {| _id := 1; rank := "dev" |} ] {| _id := 2; rank := "owner" |}
     [ {| _id := 3; rank := "sudo" |} ]).
  - reflexivity.
  - apply Forall_cons; split; [left; reflexivity | by apply Forall_nil].
  - simpl. discriminate.
  - simpl. discriminate.
Defined.

End StaffFacts.

Module CommandFacts.
Import Staff Command.

Lemma eval_and_true base other c m :
  eval (FAnd base other) c m = Ok true ↔
  eval base c m = Ok true ∧ eval other c m = Ok true.
Proof.
  simpl. destruct (eval base c m) as [[]|e]; split; try done.
  all: by intros [? ?].
Qed.

Lemma admin_filter_true m :
  admin_filter m = Ok true →
  from_user m ∈ chat_administrators (in_chat m) ∧ in_chat m ≠ Private.
Proof.
  unfold admin_filter. intros [= Hin%bool_decide_eq_true].
  split; [done|]. intros E. rewrite E in Hin. simpl in Hin.
  by apply not_elem_of_nil in Hin.
Qed.

Lemma staff_filter_true c m :
  staff_filter c m = Ok true ↔
  ∃ ids, staff_id (staff c) = Ok ids ∧ VInt (from_user m) ∈ ids.
Proof.
  unfold staff_filter. destruct (staff_id (staff c)) as [ids|e]; split.
  - intros [= Hin%bool_decide_eq_true]. by exists ids.
  - intros (ids' & [= <-] & Hin). by rewrite bool_decide_eq_true_2.
  - done.
  - by intros (ids' & [=] & _).
Qed.

(** The filter in front of which the permission filters are put. *)
Definition base_filters (cmd : commands) (filters : option filter) : filter :=
  match filters with
  | Some f => FAnd (FCommand cmd) f
  | None => FCommand cmd
  end.

(** C3: with [admin=True], whatever [staff] is, the handler is registered
    under the command filter (and the caller's filter, if any) conjoined
    with the administrator filter and the bot-administrator filter and
    nothing else; that filter accepts no message whose sender is not an
    administrator of the chat and no message of a private chat. *)
Theorem admin_takes_precedence {H} (cmd : commands) (filters : option filter)
    (staff : option bool) (group : option Z) (coro : H) (hs : handlers H) :
  let registered := FAnd (FAnd (base_filters cmd filters) FAdmin) FBotAdmin in
  on_command cmd filters (Some true) staff group coro hs =
    (hs ++ [(group, registered, coro)], coro) ∧
  (∀ c m, eval registered c m = Ok true →
     eval (base_filters cmd filters) c m = Ok true ∧
     from_user m ∈ chat_administrators (in_chat m) ∧
     me c ∈ chat_administrators (in_chat m)) ∧
  (∀ c m, from_user m ∉ chat_administrators (in_chat m) →
     eval registered c m ≠ Ok true) ∧
  (∀ c m, in_chat m = Private → eval registered c m ≠ Ok true).
Proof.
  intros registered.
  assert (Hacc : ∀ c m, eval registered c m = Ok true →
     eval (base_filters cmd filters) c m = Ok true ∧
     from_user m ∈ chat_administrators (in_chat m) ∧
     me c ∈ chat_administrators (in_chat m) ∧ in_chat m ≠ Private).
  { intros c m [[Hb Ha]%eval_and_true Hbot]%eval_and_true.
    apply admin_filter_true in Ha as [Ha Hp].
    injection Hbot as Hbot%bool_decide_eq_true. done. }
  split; [done|]. split; [|split].
  - intros c m Hev. destruct (Hacc c m Hev) as (? & ? & ? & _). done.
  - intros c m Hn Hev. destruct (Hacc c m Hev) as (_ & ? & _). done.
  - intros c m Hp Hev. destruct (Hacc c m Hev) as (_ & _ & _ & ?). done.
Qed.

Lemma elem_of_VInt x (l : list Z) : VInt x ∈ (VInt <$> l) ↔ x ∈ l.
Proof.
  rewrite list_elem_of_fmap. split.
  - by intros (y & [= ->] & Hy).
  - intros Hx. by exists x.
Qed.

(** C4: with [staff=True] and a falsy [admin], the handler is registered
    under the command filter (and the caller's filter, if any) conjoined
    with the staff filter; run against a client, that filter accepts only a
    sender found in what [staff_id] returns for that client then, so after a
    load it accepts the owner and the loaded identifiers only. *)
Theorem staff_filter_reads_current_staff {H} (cmd : commands)
    (filters : option filter) (admin : option bool) (group : option Z)
    (coro : H) (hs : handlers H) :
  truthy admin = false →
  let registered := FAnd (base_filters cmd filters) FStaff in
  on_command cmd filters admin (Some true) group coro hs =
    (hs ++ [(group, registered, coro)], coro) ∧
  (∀ c m, eval registered c m = Ok true ↔
     eval (base_filters cmd filters) c m = Ok true ∧
     ∃ ids, staff_id (Command.staff c) = Ok ids ∧ VInt (from_user m) ∈ ids) ∧
  (∀ c docs owner m,
     Command.staff c !! "owner" = Some (VInt owner) →
     Forall (λ i, rank i = "dev" ∨ rank i = "sudo") docs →
     let c' := {| Command.staff := (_load_staff (Command.staff c) docs).1;
                  me := me c |} in
     eval registered c' m = Ok true →
     from_user m ∈ owner :: ids_of "dev" docs ++ ids_of "sudo" docs).
Proof.
  intros Hadmin registered.
  assert (Hiff : ∀ c m, eval registered c m = Ok true ↔
     eval (base_filters cmd filters) c m = Ok true ∧
     ∃ ids, staff_id (Command.staff c) = Ok ids ∧ VInt (from_user m) ∈ ids).
  { intros c m. unfold registered. rewrite eval_and_true.
    simpl (eval FStaff c m). by rewrite staff_filter_true. }
  split; [|split; [done|]].
  - unfold on_command, decorator. by rewrite Hadmin.
  - intros c docs owner m Ho Hdocs c' Hev.
    apply Hiff in Hev as (_ & ids & Hids & Hin).
    destruct (StaffFacts.staff_id_of_load owner (Command.staff c) docs Ho Hdocs)
      as (staff' & Hl & Hid).
    subst c'. simpl in Hids. rewrite Hl in Hids. simpl in Hids.
    rewrite Hid in Hids. injection Hids as <-.
    apply (elem_of_VInt _ (owner :: _)). done.
Qed.

Lemma staff_filter_reads_current_staff_witness :
  let registered :=
    FAnd (base_filters (OneCommand "ban") None) FStaff in
  on_command (OneCommand "ban") None (Some false) (Some true) (Some 0)
    "ban_handler" [] = ([(Some 0, registered, "ban_handler")], "ban_handler") ∧
  (∀ c m, eval registered c m = Ok true ↔
     eval (base_filters (OneCommand "ban") None) c m = Ok true ∧
     ∃ ids, staff_id (Command.staff c) = Ok ids ∧ VInt (from_user m) ∈ ids) ∧
  (∀ c docs owner m,
     Command.staff c !! "owner" = Some (VInt owner) →
     Forall (λ i, rank i = "dev" ∨ rank i = "sudo") docs →
     let c' := {| Command.staff := (_load_staff (Command.staff c) docs).1;
                  me := me c |} in
     eval registered c' m = Ok true →
     from_user m ∈ owner :: ids_of "dev" docs ++ ids_of "sudo" docs).
Proof.
  apply (staff_filter_reads_current_staff (OneCommand "ban") None (Some false)
           (Some 0) "ban_handler" []).
  reflexivity.
Defined.

(** The same registered filter before and after a load that adds the
    sender to the "dev" list. *)
Example later_load_changes_acceptance :
  let registered := FAnd (FCommand (OneCommand "ban")) FStaff in
  let m := {| from_user := 5; in_chat := Private;
              command_name := Some "ban" |} in
  let before := (_load_staff (staff_init 7) []).1 in
  let after := (_load_staff before [ {| _id := 5; rank := "dev" |} ]).1 in
  eval registered {| Command.staff := before; me := 1 |} m = Ok false ∧
  eval registered {| Command.staff := after; me := 1 |} m = Ok true.
Proof. split; vm_compute; reflexivity. Qed.

End CommandFacts.

Module ConstructFacts.
Import Staff Construct.

(** C8: the configuration handed to the client does not depend on the
    keyword arguments the constructor was called with: it is always the API
    id, API hash and bot token of the configuration and the session name
    ":memory:", and nothing else of the constructed object depends on them
    either. *)
Theorem init_ignores_kwargs {time} (cfg : Config) (now : time)
    (staff : gmap string pyval) (kwargs1 kwargs2 : gmap string kwval) :
  __init__ cfg now staff kwargs1 = __init__ cfg now staff kwargs2 ∧
  client_kwargs (__init__ cfg now staff kwargs1) =
    {[ "api_id" := KInt (API_ID cfg);
       "api_hash" := KStr (API_HASH cfg);
       "bot_token" := KStr (BOT_TOKEN cfg);
       "session_name" := KStr ":memory:" ]}.
Proof.
  split; [reflexivity|]. simpl. apply map_eq. intros k.
  rewrite !lookup_insert, lookup_singleton, lookup_empty.
  repeat case_decide; congruence.
Qed.

End ConstructFacts.

Module LifecycleFacts.
Import Staff Lifecycle.

(** *** Equations of the primitive computations *)

Definition append_log (l : list event) (w : world) : world :=
  {| staff := staff w; is_initialized := is_initialized w;
     tasks := tasks w; log := log w ++ l |}.

Definition outcome (E : env) (e : event) : result unit :=
  match raises E e with
  | None => Ok tt
  | Some x => Raise x
  end.

Lemma bind_eq {A B} (m : run A) (f : A → run B) w :
  (m ≫= f) w =
    match m w with
    | (w', Ok a) => f a w'
    | (w', Raise e) => (w', Raise e)
    end.
Proof. reflexivity. Qed.

Lemma emit_eq e w : emit e w = (add_log e w, Ok tt).
Proof. reflexivity. Qed.

Lemma get_eq {A} (f : world → A) w : get f w = (w, Ok (f w)).
Proof. reflexivity. Qed.

Lemma modify_eq f w : modify f w = (f w, Ok tt).
Proof. reflexivity. Qed.

Lemma ret_eq {A} (a : A) w : ret a w = (w, Ok a).
Proof. reflexivity. Qed.

Lemma call_eq E e w : call E e w = (add_log e w, outcome E e).
Proof. reflexivity. Qed.

Lemma for_each_emit {A} (f : A → event) xs : ∀ w,
  for_each xs (λ x, emit (f x)) w = (append_log (f <$> xs) w, Ok tt).
Proof.
  induction xs as [|x xs IH]; intros [st i ts lg]; simpl.
  - unfold ret, append_log. simpl. by rewrite app_nil_r.
  - rewrite bind_eq, emit_eq, IH.
    unfold append_log. simpl. by rewrite <- app_assoc.
Qed.

Ltac run_step :=
  first [ rewrite bind_eq | rewrite for_each_emit | rewrite emit_eq
        | rewrite call_eq | rewrite get_eq | rewrite modify_eq
        | rewrite ret_eq
        | progress cbn [is_initialized tasks append_log add_log
                        set_initialized] ];
  cbv beta iota.

(** *** The shutdown sequence *)

(** The calls of a shutdown that nothing interrupts, between taking and
    releasing the lock. *)
Definition critical_steps (E : env) (w : world) : list event :=
  (CancelTracked <$> tasks w) ++
  (if is_initialized w
   then [Log "Disconnecting..."; ClientStop; DisconnectDb; PoolStop]
   else []) ++
  (CancelOther <$> filter (λ t, t ≠ current_task E) (all_tasks E)) ++
  [ShutdownAsyncgens; LoopStop; Log "Loop stopped"].

(** The calls a shutdown makes, up to the first one that raises. *)
Definition steps_made (E : env) (w : world) : list event :=
  let unless_raised e (more : list event) :=
    match raises E e with
    | Some _ => []
    | None => more
    end in
  let rest :=
    (CancelOther <$> filter (λ t, t ≠ current_task E) (all_tasks E)) ++
    ShutdownAsyncgens ::
      unless_raised ShutdownAsyncgens [LoopStop; Log "Loop stopped"] in
  (CancelTracked <$> tasks w) ++
  if is_initialized w then
    Log "Disconnecting..." :: ClientStop ::
      unless_raised ClientStop (DisconnectDb ::
        unless_raised DisconnectDb (PoolStop ::
          unless_raised PoolStop rest))
  else rest.

Ltac finalized_cases E w :=
  destruct w as [st i ts lg];
  unfold finalized, with_lock, try_finally, cancel_tracked, cancel_others,
    stop, critical_steps, steps_made;
  destruct i;
  destruct (raises E ClientStop) eqn:E1;
  destruct (raises E DisconnectDb) eqn:E2;
  destruct (raises E PoolStop) eqn:E3;
  destruct (raises E ShutdownAsyncgens) eqn:E4;
  repeat (repeat run_step; unfold outcome; rewrite ?E1, ?E2, ?E3, ?E4);
  cbn [fst snd log tasks is_initialized add_log append_log set_initialized].

Lemma finalized_log E w :
  log (finalized E w).1 = log w ++ LockAcquire :: steps_made E w ++ [LockRelease].
Proof.
  finalized_cases E w.
  all: rewrite <- ?app_assoc; cbn [app]; rewrite <- ?app_assoc; reflexivity.
Qed.

Lemma finalized_result E w :
  (finalized E w).2 = Ok tt → steps_made E w = critical_steps E w.
Proof. finalized_cases E w; done. Qed.

Lemma finalized_completes E w :
  (is_initialized w = true →
   raises E ClientStop = None ∧ raises E DisconnectDb = None ∧
   raises E PoolStop = None) →
  raises E ShutdownAsyncgens = None →
  (finalized E w).2 = Ok tt.
Proof.
  intros Hstop Hgens. finalized_cases E w; try done.
  all: destruct Hstop as (? & ? & ?); done.
Qed.

Lemma steps_made_prefix E w : steps_made E w `prefix_of` critical_steps E w.
Proof.
  unfold steps_made, critical_steps.
  destruct (is_initialized w), (raises E ClientStop), (raises E DisconnectDb),
    (raises E PoolStop), (raises E ShutdownAsyncgens).
  all: cbn [app].
  all: repeat first [ apply prefix_app | apply prefix_cons | apply prefix_nil
                    | done ].
Qed.


Lemma steps_made_uninitialized E w :
  is_initialized w = false →
  (ClientStop ∉ steps_made E w) ∧ (DisconnectDb ∉ steps_made E w) ∧
  (PoolStop ∉ steps_made E w).
Proof.
  intros Hi. unfold steps_made. rewrite Hi.
  assert (H : ∀ e, e ∈ steps_made E w →
            (∃ t, e = CancelTracked t) ∨ (∃ t, e = CancelOther t) ∨
            e = ShutdownAsyncgens ∨ e = LoopStop ∨ e = Log "Loop stopped").
  { intros e. unfold steps_made. rewrite Hi.
    rewrite !elem_of_app, !list_elem_of_fmap, elem_of_cons.
    intros [(t & -> & _)|[(t & -> & _)|[->|He]]]; eauto.
    destruct (raises E ShutdownAsyncgens); [by apply not_elem_of_nil in He|].
    apply elem_of_cons in He as [->|He]; [eauto|].
    apply list_elem_of_singleton in He as ->. eauto 6. }
  unfold steps_made in H. rewrite Hi in H.
  repeat split; intros Hin; apply H in Hin.
  all: destruct Hin as [[t ?]|[[t ?]|[?|[?|?]]]]; done.
Qed.

(** C5: a shutdown takes the lock, then makes its calls in this order:
    cancel the tracked tasks; if the client is initialized, stop it, then
    disconnect the database, then stop the pool; cancel every task but the
    running one; shut the asynchronous generators down; stop the loop.  A call
    that raises cuts the sequence short, and the lock is released either way.
    When the client is not initialized none of the three stop calls is made,
    and the shutdown completes unless shutting the generators down raises. *)
Theorem shutdown_order (E : env) (w : world) :
  ∃ made,
    log (finalized E w).1 = log w ++ LockAcquire :: made ++ [LockRelease] ∧
    made `prefix_of` critical_steps E w ∧
    ((finalized E w).2 = Ok tt → made = critical_steps E w) ∧
    ((∀ e, raises E e = None) → (finalized E w).2 = Ok tt) ∧
    (is_initialized w = false →
       (ClientStop ∉ made) ∧ (DisconnectDb ∉ made) ∧ (PoolStop ∉ made) ∧
       (raises E ShutdownAsyncgens = None → (finalized E w).2 = Ok tt)).
Proof.
  exists (steps_made E w). split; [apply finalized_log|].
  split; [apply steps_made_prefix|].
  split; [apply finalized_result|].
  split.
  - intros Hno. apply finalized_completes; [|done]. intros _. by rewrite !Hno.
  - intros Hi. destruct (steps_made_uninitialized E w Hi) as (? & ? & ?).
    repeat split; try done.
    intros Hgens. apply finalized_completes; [|done]. by rewrite Hi.
Qed.

(** *** What a computation leaves alone *)

(** [quiet P m]: [m] does not touch the tracked-task list, and every call
    it makes satisfies [P] of that list. *)
Definition quiet (P : list task → event → Prop) {A} (m : run A) : Prop :=
  ∀ w, tasks (m w).1 = tasks w ∧
       ∃ l, log (m w).1 = log w ++ l ∧ Forall (P (tasks w)) l.

Section Quiet.
Context (P : list task → event → Prop).

Lemma quiet_ret {A} (a : A) : quiet P (ret a).
Proof. intros w. split; [done|]. exists []. by rewrite app_nil_r. Qed.

Lemma quiet_get {A} (f : world → A) : quiet P (get f).
Proof. intros w. split; [done|]. exists []. by rewrite app_nil_r. Qed.

Lemma quiet_emit e : (∀ ts, P ts e) → quiet P (emit e).
Proof.
  intros He w. split; [done|]. exists [e]. split; [done|].
  apply Forall_singleton, He.
Qed.

Lemma quiet_call E e : (∀ ts, P ts e) → quiet P (call E e).
Proof.
  intros He w. split; [done|]. exists [e]. split; [done|].
  apply Forall_singleton, He.
Qed.

Lemma quiet_modify f :
  (∀ w, tasks (f w) = tasks w ∧ log (f w) = log w) → quiet P (modify f).
Proof.
  intros Hf w. destruct (Hf w) as [Ht Hl]. split; [done|].
  exists []. simpl. by rewrite app_nil_r.
Qed.

Lemma quiet_bind {A B} (m : run A) (f : A → run B) :
  quiet P m → (∀ a, quiet P (f a)) → quiet P (m ≫= f).
Proof.
  intros Hm Hf w. rewrite bind_eq.
  destruct (Hm w) as (Ht & l & Hl & HP).
  destruct (m w) as [w' [a|e]]; simpl in *.
  - destruct (Hf a w') as (Ht' & l' & Hl' & HP').
    split; [congruence|]. exists (l ++ l').
    rewrite Hl', Hl, app_assoc. split; [done|].
    apply Forall_app. split; [done|]. by rewrite <- Ht.
  - split; [done|]. by exists l.
Qed.

Lemma quiet_for_each {A} (xs : list A) (body : A → run unit) :
  (∀ x, quiet P (body x)) → quiet P (for_each xs body).
Proof.
  intros Hb. induction xs as [|x xs IH]; simpl.
  - apply quiet_ret.
  - apply quiet_bind; [apply Hb|]. intros _. apply IH.
Qed.

Lemma quiet_try_finally {A} (m : run A) (cleanup : run unit) :
  quiet P m → quiet P cleanup → quiet P (try_finally m cleanup).
Proof.
  intros Hm Hc w. unfold try_finally.
  destruct (Hm w) as (Ht & l & Hl & HP).
  destruct (m w) as [w' r]; simpl in *.
  destruct (Hc w') as (Ht' & l' & Hl' & HP').
  destruct (cleanup w') as [w'' [[]|e]]; simpl in *.
  all: split; [congruence|]; exists (l ++ l').
  all: rewrite Hl', Hl, app_assoc; split; [done|].
  all: apply Forall_app; split; [done|]; by rewrite <- Ht.
Qed.

Lemma quiet_try_except_pass (m : run unit) classes :
  quiet P m → quiet P (try_except_pass m classes).
Proof.
  intros Hm w. unfold try_except_pass.
  destruct (Hm w) as (Ht & l & Hl & HP).
  destruct (m w) as [w' [a|e]]; simpl in *; eauto.
Qed.

Lemma quiet_cancel_tracked :
  (∀ ts t, t ∈ ts → P ts (CancelTracked t)) → quiet P cancel_tracked.
Proof.
  intros HP w. unfold cancel_tracked.
  rewrite bind_eq, get_eq, for_each_emit. simpl. split; [done|].
  eexists. split; [done|]. apply Forall_fmap, Forall_forall.
  intros t Ht. by apply HP.
Qed.

Lemma quiet_load_documents E : quiet P (load_documents E).
Proof.
  intros w. unfold load_documents.
  destruct (load_loop _ _) as [staff' r]. simpl. split; [done|].
  exists []. by rewrite app_nil_r.
Qed.

End Quiet.

(** [m] closes nothing: it makes no call to [loop.close()]. *)
Definition not_close (_ : list task) (e : event) : Prop := e ≠ LoopClose.

(** Only tasks of the tracked list are cancelled at line 93. *)
Definition tracked_only (ts : list task) (e : event) : Prop :=
  ∀ t, e = CancelTracked t → t ∈ ts.

Ltac quiet_tac :=
  repeat first
    [ apply quiet_cancel_tracked; intros ? ?
    | apply quiet_bind; [|intros ?]
    | apply quiet_emit; intros ?
    | apply quiet_call; intros ?
    | apply quiet_ret
    | apply quiet_get
    | apply quiet_for_each; intros ?
    | apply quiet_try_finally
    | apply quiet_try_except_pass
    | apply quiet_load_documents
    | apply quiet_modify; intros ?; split; reflexivity
    | match goal with |- quiet _ (if ?b then _ else _) => destruct b end ];
  try (unfold not_close, tracked_only;
       first [ done | by intros ? [=] | by intros ? ? [= <-] ]).

Lemma start_keeps_open E : quiet not_close (start E).
Proof. unfold start, _load_staff. quiet_tac. Qed.

Lemma start_tracked_only E : quiet tracked_only (start E).
Proof. unfold start, _load_staff. quiet_tac. Qed.

Lemma finalized_tracked_only E : quiet tracked_only (finalized E).
Proof.
  unfold finalized, with_lock, stop, cancel_others. quiet_tac.
Qed.

(** *** [begin] *)

(** The world in which [start] runs: the tracked-task list has been created
    empty and the three signal handlers installed. *)
Definition before_start (w : world) : world :=
  append_log (AddSignalHandler <$> [SIGHUP; SIGTERM; SIGINT]) (set_tasks [] w).

(** What the [try] statement makes of the outcome of its body. *)
Definition after_except (r : result unit) : result unit :=
  match r with
  | Ok _ => Ok tt
  | Raise e => if cancelled_or_runtime e then Ok tt else Raise e
  end.

Lemma begin_eq E coro w :
  begin E coro w =
    match start E (before_start w) with
    | (w1, Raise e) => (w1, Raise e)
    | (w1, Ok _) =>
      match run_and_finalize E coro w1 with
      | (w2, r) =>
          (append_log [LoopClose; Log "Loop closed"] w2, after_except r)
      end
    end.
Proof.
  unfold begin. rewrite bind_eq, modify_eq. cbv beta iota.
  rewrite bind_eq, for_each_emit. cbv beta iota.
  fold (before_start w). rewrite bind_eq.
  destruct (start E (before_start w)) as [w1 [[]|e]]; [|done].
  unfold try_finally, try_except_pass.
  destruct (run_and_finalize E coro w1) as [w2 [[]|e]].
  all: rewrite bind_eq, !emit_eq; cbv beta iota.
  all: unfold append_log, add_log; simpl; rewrite <- app_assoc; simpl.
  all: done.
Qed.

Lemma run_and_finalize_tracked_only E coro :
  quiet tracked_only (run_and_finalize E coro).
Proof.
  unfold run_and_finalize. apply quiet_bind.
  - destruct coro; quiet_tac.
  - intros _. apply finalized_tracked_only.
Qed.

Lemma before_start_tasks w : tasks (before_start w) = [].
Proof. reflexivity. Qed.

Lemma before_start_log w :
  log (before_start w) =
    log w ++ (AddSignalHandler <$> [SIGHUP; SIGTERM; SIGINT]).
Proof. reflexivity. Qed.

(** *** [start], call by call *)

(** Logging does not raise; every other call of [start] may. *)
Definition is_log (e : event) : bool :=
  match e with Log _ => true | _ => false end.

(** The calls of [l] made in order up to the first one that raises: the
    calls made, and the outcome. *)
Fixpoint attempt (E : env) (l : list event) : list event * result unit :=
  match l with
  | [] => ([], Ok tt)
  | c :: l' =>
      match (if is_log c then None else raises E c) with
      | Some e => ([c], Raise e)
      | None => (c :: (attempt E l').1, (attempt E l').2)
      end
  end.

(** The calls of one plugin import. *)
Definition import_steps (E : env) (mod_name : string) : list event :=
  ImportModule mod_name ::
  if has_MODULE E mod_name
  then [Log (mod_name +:+ " module loaded")] else [].

(** The calls of a start that nothing interrupts. *)
Definition startup_steps (E : env) : list event :=
  [PoolStart; ConnectDb "NekoBot"; Log "Importing available modules"] ++
  (ALL_MODULES E ≫= import_steps E) ++
  [GetCollection "STAFF"; Find; Log "Starting Bot Client..."; ClientStart].

(** Those of them made before the documents of the collection are filed. *)
Definition load_steps (E : env) : list event :=
  [PoolStart; ConnectDb "NekoBot"; Log "Importing available modules"] ++
  (ALL_MODULES E ≫= import_steps E) ++ [GetCollection "STAFF"; Find].

(** The calls [start] makes and its outcome, the staff dictionary being
    [st]: the calls up to [_db.find()], the loop over the documents, which
    makes no call but raises on a document it cannot file, and the start of
    the client. *)
Definition startup (E : env) (st : gmap string pyval)
  : list event * result unit :=
  match attempt E (load_steps E) with
  | (made, Raise e) => (made, Raise e)
  | (made, Ok _) =>
      match (load_loop (reset_ranks st) (STAFF E)).2 with
      | Raise e => (made, Raise e)
      | Ok _ =>
          (made ++ (attempt E [Log "Starting Bot Client..."; ClientStart]).1,
           (attempt E [Log "Starting Bot Client..."; ClientStart]).2)
      end
  end.

Lemma startup_steps_eq E :
  startup_steps E = load_steps E ++ [Log "Starting Bot Client..."; ClientStart].
Proof. unfold startup_steps, load_steps. by rewrite <- !app_assoc. Qed.

Lemma attempt_app E l1 l2 :
  attempt E (l1 ++ l2) =
    match attempt E l1 with
    | (m, Ok _) => (m ++ (attempt E l2).1, (attempt E l2).2)
    | (m, Raise e) => (m, Raise e)
    end.
Proof.
  induction l1 as [|c l1 IH]; simpl; [by destruct (attempt E l2)|].
  destruct (if is_log c then None else raises E c); [done|].
  rewrite IH. by destruct (attempt E l1) as [m [[]|e]].
Qed.

Lemma attempt_ok E l m : attempt E l = (m, Ok tt) → m = l.
Proof.
  revert m. induction l as [|c l IH]; intros m; simpl; [by intros [= <-]|].
  destruct (if is_log c then None else raises E c); [done|].
  destruct (attempt E l) as [m' [[]|e]]; [|done].
  intros [= <-]. f_equal. by apply IH.
Qed.

Lemma attempt_all E l :
  (∀ c, c ∈ l → is_log c = false → raises E c = None) →
  attempt E l = (l, Ok tt).
Proof.
  induction l as [|c l IH]; intros H; simpl; [done|].
  assert (Hc : (if is_log c then None else raises E c) = None).
  { destruct (is_log c) eqn:Hl; [done|]. apply H; [left|done]. }
  rewrite Hc, IH; [done|]. intros c' Hin. apply H. by right.
Qed.

Lemma attempt_first_raise E pre c post e :
  is_log c = false → raises E c = Some e →
  (∀ c', c' ∈ pre → is_log c' = false → raises E c' = None) →
  attempt E (pre ++ c :: post) = (pre ++ [c], Raise e).
Proof.
  intros Hl Hc Hpre. rewrite attempt_app, (attempt_all E pre Hpre).
  simpl. by rewrite Hl, Hc.
Qed.

(** The first call of [start] that raises ends it. *)
Lemma startup_first_raise E st pre c post e :
  startup_steps E = pre ++ c :: post →
  is_log c = false → raises E c = Some e →
  (∀ c', c' ∈ pre → is_log c' = false → raises E c' = None) →
  (Find ∈ pre → (load_loop (reset_ranks st) (STAFF E)).2 = Ok tt) →
  startup E st = (pre ++ [c], Raise e).
Proof.
  intros Heq Hl Hc Hpre Hload.
  pose proof (attempt_first_raise E pre c post e Hl Hc Hpre) as Ha.
  rewrite <- Heq, startup_steps_eq, attempt_app in Ha. unfold startup.
  destruct (attempt E (load_steps E)) as [m [[]|e']] eqn:Hm; [|done].
  apply attempt_ok in Hm as ->.
  assert (Ht : attempt E [Log "Starting Bot Client..."; ClientStart] =
            ([Log "Starting Bot Client..."; ClientStart],
             match raises E ClientStart with
             | Some x => Raise x
             | None => Ok tt
             end)) by (simpl; by destruct (raises E ClientStart)).
  rewrite Ht in Ha |- *. clear Ht.
  pose proof (f_equal fst Ha) as Hmade. pose proof (f_equal snd Ha) as Hres.
  cbn [fst snd] in Hmade, Hres.
  assert (Hfind : Find ∈ pre).
  { change [Log "Starting Bot Client..."; ClientStart]
      with ([Log "Starting Bot Client..."] ++ [ClientStart]) in Hmade.
    rewrite app_assoc in Hmade. apply app_inj_tail in Hmade as [<- _].
    unfold load_steps. rewrite !elem_of_app, !elem_of_cons. tauto. }
  rewrite (Hload Hfind). cbn [fst snd]. by rewrite Hmade, Hres.
Qed.

(** So does a document that the loop cannot file. *)
Lemma startup_load_fails E st e :
  (∀ c, c ∈ load_steps E → is_log c = false → raises E c = None) →
  (load_loop (reset_ranks st) (STAFF E)).2 = Raise e →
  startup E st = (load_steps E, Raise e).
Proof.
  intros Hno Hload. unfold startup. by rewrite (attempt_all _ _ Hno), Hload.
Qed.

Lemma startup_returns E st :
  (∀ c, c ∈ startup_steps E → is_log c = false → raises E c = None) →
  (load_loop (reset_ranks st) (STAFF E)).2 = Ok tt →
  startup E st = (startup_steps E, Ok tt).
Proof.
  intros Hno Hload. unfold startup. rewrite startup_steps_eq in *.
  rewrite (attempt_all E (load_steps E)), Hload.
  - rewrite (attempt_all E [_; _]); [done|].
    intros c Hin. apply Hno, elem_of_app. by right.
  - intros c Hin. apply Hno, elem_of_app. by left.
Qed.

Lemma attempt_import E x :
  attempt E (import_steps E x) =
    match raises E (ImportModule x) with
    | Some e => ([ImportModule x], Raise e)
    | None => (import_steps E x, Ok tt)
    end.
Proof.
  unfold import_steps. simpl.
  destruct (raises E (ImportModule x)); [done|]. by destruct (has_MODULE E x).
Qed.

Lemma imports_attempt E xs : ∀ w,
  for_each xs (λ mod_name,
    call E (ImportModule mod_name) ;;
    if has_MODULE E mod_name
    then emit (Log (String.append mod_name " module loaded"))
    else ret tt) w =
  (append_log (attempt E (xs ≫= import_steps E)).1 w,
   (attempt E (xs ≫= import_steps E)).2).
Proof.
  induction xs as [|x xs IH]; intros [st i ts lg].
  - simpl. unfold ret, append_log. simpl. by rewrite app_nil_r.
  - cbn [for_each]. rewrite !bind_eq, call_eq. unfold outcome.
    change ((x :: xs) ≫= import_steps E)
      with (import_steps E x ++ (xs ≫= import_steps E)).
    rewrite attempt_app, attempt_import.
    destruct (raises E (ImportModule x)) as [e|]; [done|].
    unfold import_steps.
    destruct (has_MODULE E x); rewrite ?emit_eq, ?ret_eq; cbv beta iota;
      rewrite IH; unfold append_log, add_log; simpl;
      by rewrite <- ?app_assoc.
Qed.

(** [start] does what [startup] says, and marks the client initialized
    exactly when it returns. *)
Lemma start_outcome E w :
  log (start E w).1 = log w ++ (startup E (staff w)).1 ∧
  (start E w).2 = (startup E (staff w)).2 ∧
  is_initialized (start E w).1 =
    match (startup E (staff w)).2 with
    | Ok _ => true
    | Raise _ => is_initialized w
    end.
Proof.
  destruct w as [st i ts lg].
  unfold start, Lifecycle._load_staff, startup, load_steps, load_documents.
  cbn [attempt is_log app staff log is_initialized].
  rewrite attempt_app.
  destruct (raises E PoolStart) eqn:E1;
    [repeat run_step; unfold outcome; rewrite E1; by simpl|].
  destruct (raises E (ConnectDb "NekoBot")) eqn:E2;
    [repeat (repeat run_step; unfold outcome; rewrite ?E1, ?E2); simpl;
     by rewrite <- ?app_assoc|].
  repeat (repeat run_step; unfold outcome; rewrite ?E1, ?E2).
  rewrite imports_attempt.
  destruct (attempt E (ALL_MODULES E ≫= import_steps E)) as [mi [[]|e]];
    cbv beta iota; cbn [attempt is_log fst snd];
    [|simpl; by rewrite <- ?app_assoc].
  destruct (raises E (GetCollection "STAFF")) eqn:E3;
    [repeat (repeat run_step; unfold outcome; rewrite ?E3); simpl;
     by rewrite <- ?app_assoc|].
  destruct (raises E Find) eqn:E4;
    [repeat (repeat run_step; unfold outcome; rewrite ?E3, ?E4); simpl;
     by rewrite <- ?app_assoc|].
  repeat (repeat run_step; unfold outcome; rewrite ?E3, ?E4).
  cbn [staff set_staff append_log add_log log is_initialized tasks].
  destruct (load_loop (reset_ranks st) (STAFF E)) as [st' [[]|e]];
    cbn [fst snd]; [|simpl; by rewrite <- ?app_assoc].
  cbv beta iota.
  destruct (raises E ClientStart) eqn:E5.
  all: repeat (repeat run_step; unfold outcome; rewrite ?E5).
  all: simpl; by rewrite <- ?app_assoc.
Qed.

(** *** [begin], its handlers run *)

(** The call in which [begin] runs the loop. *)
Definition run_call (coro : bool) : event :=
  if coro then RunCoroutine else Idle.

(** The world in which [start] has returned. *)
Definition started (E : env) (w : world) : world :=
  (start E (before_start w)).1.

(** The world when the loop has run the handlers of the signals delivered,
    and whether one of their tasks has stopped the loop. *)
Definition looped (E : env) (coro : bool) (delivered : list (Signals * task))
    (w : world) : world * bool :=
  Signalled.handlers E delivered
    (append_log [Log (if coro then "Running Coroutine" else "Idling");
                 run_call coro] w).

Lemma signalled_begin_eq E coro delivered w :
  Signalled.begin E coro delivered w =
    match start E (before_start w) with
    | (w1, Raise e) => (w1, Raise e)
    | (w1, Ok _) =>
      match Signalled.run_and_finalize E coro delivered w1 with
      | (w2, r) =>
          (append_log [LoopClose; Log "Loop closed"] w2, after_except r)
      end
    end.
Proof.
  unfold Signalled.begin. rewrite bind_eq, modify_eq. cbv beta iota.
  rewrite bind_eq, for_each_emit. cbv beta iota.
  fold (before_start w). rewrite bind_eq.
  destruct (start E (before_start w)) as [w1 [[]|e]]; [|done].
  unfold try_finally, try_except_pass.
  destruct (Signalled.run_and_finalize E coro delivered w1) as [w2 [[]|e]].
  all: rewrite bind_eq, !emit_eq; cbv beta iota.
  all: unfold append_log, add_log; simpl; rewrite <- app_assoc; simpl.
  all: done.
Qed.

Lemma run_and_finalize_eq E coro delivered w :
  Signalled.run_and_finalize E coro delivered w =
    match raises E (run_call coro) with
    | Some e => ((looped E coro delivered w).1, Raise e)
    | None =>
        if (looped E coro delivered w).2
        then ((looped E coro delivered w).1, Raise RuntimeError)
        else finalized E (looped E coro delivered w).1
    end.
Proof.
  unfold Signalled.run_and_finalize, Signalled.run_loop, looped, run_call.
  rewrite bind_eq, emit_eq. cbv beta iota. rewrite bind_eq.
  assert (Hw : ∀ c msg, add_log c (add_log (Log msg) w)
                        = append_log [Log msg; c] w).
  { intros c msg. unfold append_log, add_log. simpl.
    by rewrite <- app_assoc. }
  rewrite Hw.
  destruct (Signalled.handlers _ _ _) as [w' stopped]. cbn [fst snd].
  destruct (raises E (if coro then RunCoroutine else Idle)); [done|].
  by destruct stopped.
Qed.

(** With no signal delivered, [begin] is [Lifecycle.begin]. *)
Lemma begin_undisturbed E coro w :
  Signalled.begin E coro [] w = begin E coro w.
Proof.
  rewrite signalled_begin_eq, begin_eq.
  destruct (start E (before_start w)) as [w1 [[]|e]]; [|done].
  rewrite run_and_finalize_eq. unfold looped, run_call.
  cbn [Signalled.handlers fst snd]. unfold run_and_finalize.
  assert (Hw : ∀ c msg, add_log c (add_log (Log msg) w1)
                        = append_log [Log msg; c] w1).
  { intros c msg. unfold append_log, add_log. simpl.
    by rewrite <- app_assoc. }
  destruct coro; rewrite !bind_eq, emit_eq; cbv beta iota;
    rewrite call_eq, Hw; unfold outcome.
  - by destruct (raises E RunCoroutine).
  - by destruct (raises E Idle).
Qed.

(** What a shutdown leaves of the client's flag. *)
Lemma finalized_initialized E w :
  is_initialized (finalized E w).1 =
    if is_initialized w
    then match raises E ClientStop with Some _ => true | None => false end
    else false.
Proof. finalized_cases E w; done. Qed.

(** The handlers of a client that is not initialized: the first task stops
    the loop, unless shutting the generators down raises. *)
Lemma handlers_uninitialized E delivered w :
  is_initialized w = false → raises E ShutdownAsyncgens = None →
  is_initialized (Signalled.handlers E delivered w).1 = false ∧
  (delivered ≠ [] → (Signalled.handlers E delivered w).2 = true).
Proof.
  intros Hi Hgens. destruct delivered as [|[sig t] rest]; [done|].
  cbn [Signalled.handlers]. unfold Signalled.shutdown.
  rewrite bind_eq, emit_eq. cbv beta iota.
  set (w1 := add_log _ w).
  pose proof (finalized_completes (Signalled.in_task E t) w1) as Hok.
  pose proof (finalized_initialized (Signalled.in_task E t) w1) as Hfl.
  destruct (finalized (Signalled.in_task E t) w1) as [w2 [[]|e]];
    cbn [fst snd] in *.
  - split; [|done]. rewrite Hfl. subst w1. simpl. by rewrite Hi.
  - exfalso. assert (H : Raise e = Ok tt); [|done].
    apply Hok; [|done]. subst w1. simpl. by rewrite Hi.
Qed.

(** An initialized client that [super().stop()] stops: whatever else the
    handlers' tasks raise, the client is left uninitialized. *)
Lemma handlers_stop_client E delivered w :
  delivered ≠ [] → is_initialized w = true →
  raises E ClientStop = None → raises E ShutdownAsyncgens = None →
  is_initialized (Signalled.handlers E delivered w).1 = false.
Proof.
  intros Hne Hi Hstop Hgens. destruct delivered as [|[sig t] rest]; [done|].
  cbn [Signalled.handlers]. unfold Signalled.shutdown.
  rewrite bind_eq, emit_eq. cbv beta iota.
  set (w1 := add_log _ w).
  pose proof (finalized_initialized (Signalled.in_task E t) w1) as Hfl.
  assert (Hfl' : is_initialized (finalized (Signalled.in_task E t) w1).1
                 = false).
  { rewrite Hfl. simpl. rewrite Hstop. by destruct (is_initialized w). }
  destruct (finalized (Signalled.in_task E t) w1) as [w2 [[]|e]];
    cbn [fst snd] in *; [done|].
  by apply handlers_uninitialized.
Qed.

(** C7 (as amended): an error raised by a call of the startup phase, or by
    a document that the staff load cannot file, leaves [begin] as it is, the
    loop not being closed.  Once the startup has succeeded the loop is closed
    in every case, and [begin] returns unless an error reaches it that is
    neither an [asyncio.CancelledError] nor a [RuntimeError] (nor of a
    subclass): the error the coroutine or [idle()] raised, or else the one
    the shutdown that [begin] runs itself raised, when no handler's task has
    stopped the loop before.  What the shutdown task of a signal handler
    raises stays in that task: with a signal delivered, [super().stop()] and
    [shutdown_asyncgens()] returning, [begin] returns whatever
    [disconnect_db()] and [pool.stop()] raise. *)
Theorem begin_error_handling (E : env) (coro : bool)
    (delivered : list (Signals * task)) (w : world) :
  (∀ pre c post e,
     startup_steps E = pre ++ c :: post →
     is_log c = false → raises E c = Some e →
     (∀ c', c' ∈ pre → is_log c' = false → raises E c' = None) →
     (Find ∈ pre → (load_loop (reset_ranks (staff w)) (STAFF E)).2 = Ok tt) →
     (Signalled.begin E coro delivered w).2 = Raise e ∧
     ∃ l, log (Signalled.begin E coro delivered w).1 = log w ++ l ∧
          LoopClose ∉ l) ∧
  (∀ e,
     (∀ c, c ∈ load_steps E → is_log c = false → raises E c = None) →
     (load_loop (reset_ranks (staff w)) (STAFF E)).2 = Raise e →
     (Signalled.begin E coro delivered w).2 = Raise e ∧
     ∃ l, log (Signalled.begin E coro delivered w).1 = log w ++ l ∧
          LoopClose ∉ l) ∧
  ((∀ c, c ∈ startup_steps E → is_log c = false → raises E c = None) →
   (load_loop (reset_ranks (staff w)) (STAFF E)).2 = Ok tt →
     log (Signalled.begin E coro delivered w).1 =
       log (Signalled.run_and_finalize E coro delivered (started E w)).1 ++
       [LoopClose; Log "Loop closed"] ∧
     (Signalled.begin E coro delivered w).2 =
       match raises E (run_call coro) with
       | Some e => if cancelled_or_runtime e then Ok tt else Raise e
       | None =>
           if (looped E coro delivered (started E w)).2 then Ok tt
           else match (finalized E (looped E coro delivered (started E w)).1).2
                with
                | Ok _ => Ok tt
                | Raise e => if cancelled_or_runtime e then Ok tt else Raise e
                end
       end ∧
     (delivered ≠ [] → raises E (run_call coro) = None →
      raises E ClientStop = None → raises E ShutdownAsyncgens = None →
      (Signalled.begin E coro delivered w).2 = Ok tt)).
Proof.
  rewrite signalled_begin_eq. unfold started.
  destruct (start_outcome E (before_start w)) as (Hlog & Hres & Hinit).
  destruct (start_keeps_open E (before_start w)) as (_ & l & Hl & Hopen).
  assert (Hraise : ∀ made e, startup E (staff w) = (made, Raise e) →
    (start E (before_start w)).2 = Raise e →
    (let (w1, r) := start E (before_start w) in
     match r with
     | Ok _ =>
         let (w2, r0) := Signalled.run_and_finalize E coro delivered w1 in
         (append_log [LoopClose; Log "Loop closed"] w2, after_except r0)
     | Raise e0 => (w1, Raise e0)
     end).2 = Raise e ∧
    ∃ l0, log (let (w1, r) := start E (before_start w) in
               match r with
               | Ok _ =>
                   let (w2, r0) :=
                     Signalled.run_and_finalize E coro delivered w1 in
                   (append_log [LoopClose; Log "Loop closed"] w2,
                    after_except r0)
               | Raise e0 => (w1, Raise e0)
               end).1 = log w ++ l0 ∧ LoopClose ∉ l0).
  { intros made e _ Hr.
    destruct (start E (before_start w)) as [w1 [[]|e']]; simpl in *; [done|].
    split; [done|]. rewrite Hl, <- app_assoc. eexists. split; [done|].
    rewrite elem_of_app. intros [Hin|Hin].
    - by repeat (apply elem_of_cons in Hin as [?|Hin]; [done|]);
        apply not_elem_of_nil in Hin.
    - rewrite Forall_forall in Hopen. by apply Hopen in Hin. }
  change (staff (before_start w)) with (staff w) in *.
  split; [|split].
  - intros pre c post e Heq Hc He Hpre Hload.
    pose proof (startup_first_raise E (staff w) pre c post e
                  Heq Hc He Hpre Hload) as Hs.
    apply (Hraise (pre ++ [c]) e Hs). by rewrite Hres, Hs.
  - intros e Hno Hload.
    pose proof (startup_load_fails E (staff w) e Hno Hload) as Hs.
    apply (Hraise (load_steps E) e Hs). by rewrite Hres, Hs.
  - intros Hno Hload.
    pose proof (startup_returns E (staff w) Hno Hload) as Hs.
    rewrite Hs in Hres, Hinit. cbn [snd] in Hres, Hinit. clear Hraise.
    destruct (start E (before_start w)) as [w1 [[]|e']]; [|done].
    cbn [fst snd] in *.
    pose proof (run_and_finalize_eq E coro delivered w1) as Hrun.
    destruct (Signalled.run_and_finalize E coro delivered w1) as [w2 r].
    cbn [fst snd]. split; [done|].
    assert (Hr : after_except r =
      match raises E (run_call coro) with
      | Some e => if cancelled_or_runtime e then Ok tt else Raise e
      | None =>
          if (looped E coro delivered w1).2 then Ok tt
          else match (finalized E (looped E coro delivered w1).1).2 with
               | Ok _ => Ok tt
               | Raise e => if cancelled_or_runtime e then Ok tt else Raise e
               end
      end).
    { destruct (raises E (run_call coro)) as [e|].
      - by injection Hrun as _ ->.
      - destruct (looped E coro delivered w1).2.
        + by injection Hrun as _ ->.
        + rewrite <- Hrun. simpl. by destruct r as [[]|]. }
    split; [done|]. rewrite Hr.
    intros Hne Hrunning Hstop Hgens. rewrite Hrunning.
    assert (Hflag : is_initialized (looped E coro delivered w1).1 = false).
    { unfold looped. by apply handlers_stop_client. }
    destruct (looped E coro delivered w1).2; [done|].
    rewrite finalized_completes; [done| |done]. by rewrite Hflag.
Qed.

(** The environment in which nothing raises but connecting the database,
    which raises [ConnectionError]. *)
Definition connect_raises_ConnectionError : env :=
  {| ALL_MODULES := ["admin"]; has_MODULE := λ _, true;
     raises := λ e, match e with
                    | ConnectDb _ => Some ConnectionError
                    | _ => None
                    end;
     STAFF := []; all_tasks := [0%nat]; current_task := 0%nat |}.

(** The environment in which nothing raises but the coroutine passed to
    [begin], which raises [ValueError]. *)
Definition coroutine_raises_ValueError : env :=
  {| ALL_MODULES := ["admin"]; has_MODULE := λ _, true;
     raises := λ e, match e with
                    | RunCoroutine => Some ValueError
                    | _ => None
                    end;
     STAFF := [ {| _id := 2; rank := "dev" |} ];
     all_tasks := [0%nat]; current_task := 0%nat |}.

(** The environment in which nothing raises but [disconnect_db], which
    raises [ConnectionError]. *)
Definition disconnect_raises_ConnectionError : env :=
  {| ALL_MODULES := ["admin"]; has_MODULE := λ _, true;
     raises := λ e, match e with
                    | DisconnectDb => Some ConnectionError
                    | _ => None
                    end;
     STAFF := [ {| _id := 2; rank := "dev" |} ];
     all_tasks := [0%nat]; current_task := 0%nat |}.

Definition fresh_world : world :=
  {| staff := staff_init 7; is_initialized := false; tasks := []; log := [] |}.

(** A failing [connect_db] leaves [begin]; with SIGINT delivered while
    idling, the [ConnectionError] of [disconnect_db] stays in the task of
    the handler and [begin] returns. *)
Lemma begin_error_handling_witness :
  ((Signalled.begin connect_raises_ConnectionError false [] fresh_world).2
     = Raise ConnectionError ∧
   ∃ l, log (Signalled.begin connect_raises_ConnectionError false []
               fresh_world).1 = log fresh_world ++ l ∧ LoopClose ∉ l) ∧
  (Signalled.begin disconnect_raises_ConnectionError false
     [(SIGINT, 1%nat)] fresh_world).2 = Ok tt.
Proof.
  split.
  - apply (proj1 (begin_error_handling connect_raises_ConnectionError false []
                    fresh_world)
             [PoolStart] (ConnectDb "NekoBot")
             [Log "Importing available modules"; ImportModule "admin";
              Log "admin module loaded"; GetCollection "STAFF"; Find;
              Log "Starting Bot Client..."; ClientStart]).
    + reflexivity.
    + reflexivity.
    + reflexivity.
    + intros c' Hin _. by apply list_elem_of_singleton in Hin as ->.
    + reflexivity.
  - apply (proj2 (proj2 (begin_error_handling
                           disconnect_raises_ConnectionError false
                           [(SIGINT, 1%nat)] fresh_world))).
    + intros c Hin _.
      repeat (apply elem_of_cons in Hin as [->|Hin]; [reflexivity|]).
      by apply elem_of_nil in Hin.
    + reflexivity.
    + done.
    + reflexivity.
    + reflexivity.
    + reflexivity.
Defined.

(** C7 (as stated) fails: the startup having succeeded and no signal being
    delivered, a [ValueError] raised by the coroutine leaves [begin], and so
    does a [ConnectionError] raised by [disconnect_db] in the shutdown that
    [begin] runs after the coroutine; the loop has been closed. *)
Lemma begin_lets_other_errors_through :
  (start coroutine_raises_ValueError (before_start fresh_world)).2 = Ok tt ∧
  (Signalled.begin coroutine_raises_ValueError true [] fresh_world).2
    = Raise ValueError ∧
  LoopClose ∈
    log (Signalled.begin coroutine_raises_ValueError true [] fresh_world).1 ∧
  (start disconnect_raises_ConnectionError (before_start fresh_world)).2
    = Ok tt ∧
  (Signalled.begin disconnect_raises_ConnectionError true [] fresh_world).2
    = Raise ConnectionError ∧
  LoopClose ∈
    log (Signalled.begin disconnect_raises_ConnectionError true []
           fresh_world).1.
Proof.
  repeat split; try by vm_compute.
  all: vm_compute log; apply list_elem_of_In; simpl; tauto.
Qed.

(** The tracked-task list during [begin]. *)
Lemma begin_tracks_nothing E coro w :
  tasks (begin E coro w).1 = [] ∧
  ∃ l, log (begin E coro w).1 = log w ++ l ∧ ∀ t, CancelTracked t ∉ l.
Proof.
  rewrite begin_eq.
  destruct (start_tracked_only E (before_start w)) as (Ht & l & Hl & HP).
  rewrite before_start_tasks in *. rewrite before_start_log in Hl.
  assert (Hnil : ∀ l, Forall (tracked_only []) l → ∀ t, CancelTracked t ∉ l).
  { intros l0 Hl0 t Hin. rewrite Forall_forall in Hl0.
    pose proof (Hl0 _ Hin t eq_refl) as Hin'.
    by apply not_elem_of_nil in Hin'. }
  assert (Hsig : ∀ t, CancelTracked t ∉
            (AddSignalHandler <$> [SIGHUP; SIGTERM; SIGINT])).
  { intros t Hin.
    by repeat (apply elem_of_cons in Hin as [?|Hin]; [done|]);
      apply not_elem_of_nil in Hin. }
  destruct (start E (before_start w)) as [w1 [[]|e]]; simpl in *.
  - destruct (run_and_finalize_tracked_only E coro w1)
      as (Ht' & l' & Hl' & HP').
    rewrite Ht in *.
    destruct (run_and_finalize E coro w1) as [w2 r]; simpl in *.
    split; [done|]. rewrite Hl', Hl, <- !app_assoc.
    eexists. split; [done|]. intros t.
    rewrite !elem_of_app. intros [Hin|[Hin|[Hin|Hin]]].
    + by apply Hsig in Hin.
    + by apply Hnil in Hin.
    + by apply Hnil in Hin.
    + by repeat (apply elem_of_cons in Hin as [?|Hin]; [done|]);
        apply not_elem_of_nil in Hin.
  - split; [done|]. rewrite Hl, <- !app_assoc.
    eexists. split; [done|]. intros t.
    rewrite !elem_of_app. intros [Hin|Hin].
    + by apply Hsig in Hin.
    + by apply Hnil in Hin.
Qed.

End LifecycleFacts.

Module ShutdownFacts.
Import Lifecycle Shutdown.

(** *** What the mutual-exclusion argument looks at *)

(** Where each task stands. *)
Definition places (s : system) : list pc := point <$> jobs s.

Definition woken (w : task * future) : bool :=
  match w.2 with Woken => true | _ => false end.

(** Task [t] is suspended inside the critical section. *)
Definition critical (ps : list pc) (t : task) : Prop :=
  ∃ p, ps !! t = Some p ∧ in_critical_section p = true.

Definition no_woken (ws : list (task * future)) : Prop :=
  Forall (λ w, woken w = false) ws.

(** At most one task is inside; none is when the lock is free; only the
    first waiter can have been woken, and only while the lock is free. *)
Record invariant (s : system) : Prop := {
  inv_one : ∀ t1 t2, critical (places s) t1 → critical (places s) t2 → t1 = t2;
  inv_free : _locked s = false → ∀ t, ¬ critical (places s) t;
  inv_tail : no_woken (tail (_waiters s));
  inv_held : _locked s = true → no_woken (_waiters s)
}.

(** *** Lists of places *)

Lemma critical_alter p t ps t' :
  critical (alter (λ _, p) t ps) t' →
  (t' = t ∧ in_critical_section p = true) ∨ (t' ≠ t ∧ critical ps t').
Proof.
  intros (q & Hq & Hin). destruct (decide (t' = t)) as [->|Hne].
  - left. split; [done|]. rewrite list_lookup_alter_eq in Hq.
    by apply fmap_Some in Hq as (p0 & _ & ->).
  - right. split; [done|]. rewrite list_lookup_alter_ne in Hq by done.
    by exists q.
Qed.

Lemma critical_snoc ps p t :
  in_critical_section p = false → critical (ps ++ [p]) t → critical ps t.
Proof.
  intros Hp (q & Hq & Hin). apply lookup_app_Some in Hq as [Hq|[_ Hq]].
  - by exists q.
  - apply list_lookup_singleton_Some in Hq as [_ ->]. congruence.
Qed.

Lemma places_alter (f : job → job) (t : task) (js : list job) :
  point <$> alter f t js =
    alter (λ p, from_option (λ j, point (f j)) p (js !! t)) t (point <$> js).
Proof.
  revert t. induction js as [|j js IH]; intros [|t]; simpl; try done.
  f_equal. apply IH.
Qed.

Lemma places_set_point t p s :
  places (set_point t p s) = alter (λ _, p) t (places s).
Proof.
  unfold places, set_point. simpl. rewrite places_alter.
  apply list_alter_ext; [|done]. intros q Hq.
  rewrite list_lookup_fmap in Hq. by destruct (jobs s !! t).
Qed.

Lemma places_set_must_cancel t s : places (set_must_cancel t s) = places s.
Proof.
  unfold places, set_must_cancel. simpl. rewrite places_alter.
  apply list_eq. intros i. destruct (decide (i = t)) as [->|Hne].
  - rewrite list_lookup_alter_eq, list_lookup_fmap.
    by destruct (jobs s !! t).
  - by rewrite list_lookup_alter_ne.
Qed.

(** *** Queues of waiters *)

Lemma no_woken_remove t ws : no_woken ws → no_woken (remove_waiter t ws).
Proof.
  unfold no_woken. induction ws as [|[t' f] ws IH]; simpl; [done|].
  intros [Hw Hws]%Forall_cons. case_decide; [done|].
  apply Forall_cons. split; [done|]. by apply IH.
Qed.

Lemma no_woken_tail_remove t ws :
  no_woken (tail ws) → no_woken (tail (remove_waiter t ws)).
Proof.
  destruct ws as [|[t' f] ws]; simpl; [done|]. intros Hws.
  case_decide; simpl.
  - unfold no_woken. destruct ws; simpl; [done|].
    by apply Forall_cons in Hws as [_ ?].
  - by apply no_woken_remove.
Qed.

Lemma future_of_woken t ws :
  future_of t ws = Some Woken → ∃ i, ws !! i = Some (t, Woken).
Proof.
  induction ws as [|[t' f] ws IH]; simpl; [done|]. case_decide.
  - intros [= ->]. subst. by exists 0%nat.
  - intros [i Hi]%IH. by exists (S i).
Qed.

(** The woken waiter, when there is one, is the first of the queue, so
    removing it leaves none. *)
Lemma remove_woken t ws :
  no_woken (tail ws) → future_of t ws = Some Woken →
  no_woken (remove_waiter t ws).
Proof.
  destruct ws as [|[t' f] ws]; simpl; [done|]. intros Hws.
  case_decide; [done|]. intros [i Hi]%future_of_woken.
  unfold no_woken in Hws. rewrite Forall_forall in Hws.
  apply list_elem_of_lookup_2, Hws in Hi. done.
Qed.

Lemma no_woken_tail_wake ws :
  no_woken (tail ws) → no_woken (tail (_wake_up_first ws)).
Proof. by destruct ws as [|[t []] ws]. Qed.

Lemma woken_cancel_waiter t ws :
  woken <$> cancel_waiter t ws = woken <$> ws.
Proof.
  induction ws as [|[t' f] ws IH]; simpl; [done|]. case_decide; simpl.
  - by destruct f.
  - f_equal. apply IH.
Qed.

Lemma no_woken_fmap ws ws' :
  woken <$> ws = woken <$> ws' → no_woken ws → no_woken ws'.
Proof.
  unfold no_woken. revert ws'.
  induction ws as [|w ws IH]; intros [|w' ws']; simpl; try done.
  intros [= Hw Hws] [H1 H2]%Forall_cons. apply Forall_cons.
  split; [congruence|]. by apply IH.
Qed.

Lemma no_woken_tail_fmap ws ws' :
  woken <$> ws = woken <$> ws' → no_woken (tail ws) → no_woken (tail ws').
Proof.
  destruct ws as [|w ws], ws' as [|w' ws']; simpl; try done.
  intros [= _ Hws]. by apply no_woken_fmap.
Qed.

(** *** Steps that move no task and wake no waiter *)

(** Two systems the invariant cannot tell apart. *)
Definition same_view (s s' : system) : Prop :=
  _locked s' = _locked s ∧ places s' = places s ∧
  woken <$> _waiters s' = woken <$> _waiters s ∧
  tracked s' = tracked s.

Lemma same_view_trans s1 s2 s3 :
  same_view s1 s2 → same_view s2 s3 → same_view s1 s3.
Proof.
  intros (? & ? & ? & ?) (? & ? & ? & ?).
  repeat split; congruence.
Qed.

Lemma same_view_record e s : same_view s (record e s).
Proof. done. Qed.

Lemma same_view_cancel t s : same_view s (cancel t s).
Proof.
  unfold cancel. destruct (jobs s !! t) as [j|]; [|done].
  assert (same_view s (set_must_cancel t s)).
  { repeat split; try done. apply places_set_must_cancel. }
  destruct (point j); try done.
  destruct (future_of t (_waiters s)) as [[]|]; try done.
  repeat split; try done. simpl. apply woken_cancel_waiter.
Qed.

Lemma same_view_foldl {A} (f : system → A → system) xs :
  (∀ s x, same_view s (f s x)) → ∀ s, same_view s (foldl f s xs).
Proof.
  intros Hf. induction xs as [|x xs IH]; intros s; simpl; [done|].
  eapply same_view_trans; [apply Hf|apply IH].
Qed.

Lemma same_view_cancel_step (mk : task → event) s t :
  same_view s (cancel t (record (mk t) s)).
Proof.
  eapply same_view_trans; [apply same_view_record|apply same_view_cancel].
Qed.

Lemma same_view_cancel_tracked s : same_view s (cancel_tracked s).
Proof.
  unfold cancel_tracked.
  apply (same_view_foldl (λ s t, cancel t (record (CancelTracked t) s))).
  intros s' t. apply (same_view_cancel_step CancelTracked).
Qed.

Lemma same_view_cancel_others me s : same_view s (cancel_others me s).
Proof.
  unfold cancel_others.
  apply (same_view_foldl (λ s t, cancel t (record (CancelOther t) s))).
  intros s' t. apply (same_view_cancel_step CancelOther).
Qed.

Lemma invariant_same_view s s' : same_view s s' → invariant s → invariant s'.
Proof.
  intros (Hl & Hp & Hw & _) [H1 H2 H3 H4]. split.
  - rewrite Hp. apply H1.
  - rewrite Hp, Hl. apply H2.
  - eapply no_woken_tail_fmap; [symmetry; exact Hw|done].
  - rewrite Hl. intros Hlk. eapply no_woken_fmap; [symmetry; exact Hw|auto].
Qed.

(** *** Steps that move one task *)

(** [s'] is [s] with task [t] moved to [p], for all the invariant sees. *)
Definition moved (t : task) (p : pc) (s s' : system) : Prop :=
  _locked s' = _locked s ∧ places s' = alter (λ _, p) t (places s) ∧
  woken <$> _waiters s' = woken <$> _waiters s.

Lemma moved_set_point t p s : moved t p s (set_point t p s).
Proof. repeat split. apply places_set_point. Qed.

Lemma moved_same_view t p s s0 s' :
  same_view s s0 → moved t p s0 s' → moved t p s s'.
Proof.
  intros (Hl & Hp & Hw & _) (Hl' & Hp' & Hw'). repeat split; congruence.
Qed.

Lemma moved_after_stop t s : moved t AwaitAsyncgens s (after_stop t s).
Proof.
  unfold after_stop. eapply moved_same_view; [|apply moved_set_point].
  eapply same_view_trans; [apply same_view_cancel_others|].
  apply same_view_record.
Qed.

Lemma moved_enter t s :
  ∃ p, in_critical_section p = true ∧ moved t p s (enter t s).
Proof.
  unfold enter.
  assert (Hv : same_view s (cancel_tracked (record LockAcquire s))).
  { eapply same_view_trans; [apply same_view_record|].
    apply same_view_cancel_tracked. }
  destruct (client_initialized _).
  - exists AwaitClientStop. split; [done|].
    eapply moved_same_view; [|apply moved_set_point].
    eapply same_view_trans; [exact Hv|].
    eapply same_view_trans; apply same_view_record.
  - exists AwaitAsyncgens. split; [done|].
    eapply moved_same_view; [exact Hv|apply moved_after_stop].
Qed.

Lemma no_woken_moved t p s s' :
  moved t p s s' →
  (no_woken (tail (_waiters s)) → no_woken (tail (_waiters s'))) ∧
  (no_woken (_waiters s) → no_woken (_waiters s')).
Proof.
  intros (_ & _ & Hw). split.
  - by apply no_woken_tail_fmap.
  - by apply no_woken_fmap.
Qed.

(** A task moves to a place outside the critical section. *)
Lemma invariant_moved_out t p s s' :
  in_critical_section p = false → moved t p s s' →
  invariant s → invariant s'.
Proof.
  intros Hp Hm [H1 H2 H3 H4].
  destruct (no_woken_moved _ _ _ _ Hm) as [Ht Hw].
  destruct Hm as (Hl & Hpl & _).
  assert (Hc : ∀ t', critical (places s') t' → critical (places s) t').
  { intros t'. rewrite Hpl. intros [[_ ?]|[_ ?]]%critical_alter; [|done].
    congruence. }
  split; [auto|rewrite Hl; naive_solver|auto|rewrite Hl; auto].
Qed.

(** A task moves to a place inside the critical section: from inside it,
    or while no task is inside. *)
Lemma invariant_moved_in t p s s' :
  (critical (places s) t ∨ ∀ t', ¬ critical (places s) t') →
  _locked s = true → moved t p s s' →
  invariant s → invariant s'.
Proof.
  intros Hin Hlk Hm [H1 H2 H3 H4].
  destruct (no_woken_moved _ _ _ _ Hm) as [Ht Hw].
  destruct Hm as (Hl & Hpl & _).
  assert (Hc : ∀ t', critical (places s') t' → t' = t).
  { intros t'. rewrite Hpl. intros [[? _]|[Hne Hc]]%critical_alter; [done|].
    destruct Hin as [Hin|Hin]; [by apply H1|by apply Hin in Hc]. }
  split; [|congruence|auto|rewrite Hl; auto].
  intros t1 t2 ->%Hc ->%Hc. done.
Qed.

(** Taking the lock while it is free and no waiter has been woken. *)
Lemma invariant_take ws s :
  _locked s = false → no_woken ws → invariant s →
  invariant (with_lock_state true ws s) ∧
  ∀ t', ¬ critical (places (with_lock_state true ws s)) t'.
Proof.
  intros Hl Hws [H1 H2 H3 H4]. split; [|by apply H2].
  split; simpl; [done|done| |done].
  destruct ws; [done|]. by apply Forall_cons in Hws as [_ ?].
Qed.

Lemma invariant_enter t ws s :
  _locked s = false → no_woken ws → invariant s →
  invariant (enter t (with_lock_state true ws s)).
Proof.
  intros Hl Hws Hinv.
  destruct (invariant_take ws s Hl Hws Hinv) as [Hinv' Hnone].
  destruct (moved_enter t (with_lock_state true ws s)) as (p & Hp & Hm).
  eapply invariant_moved_in; [right; exact Hnone|done|exact Hm|done].
Qed.

(** Releasing the lock and ending the task that was inside. *)
Lemma invariant_leave t r s :
  critical (places s) t → invariant s → invariant (leave t r s).
Proof.
  intros Hin Hinv. unfold leave. simpl.
  destruct (_locked s) eqn:Hl.
  - destruct Hinv as [H1 H2 H3 H4]. split.
    + rewrite places_set_point. intros t1 t2.
      intros [[_ ?]|[Hne Hc]]%critical_alter; [done|].
      by apply (H1 _ _ Hin) in Hc.
    + intros _ t'. rewrite places_set_point.
      intros [[_ ?]|[Hne Hc]]%critical_alter; [done|].
      by apply (H1 _ _ Hin) in Hc.
    + simpl. by apply no_woken_tail_wake.
    + done.
  - eapply invariant_moved_out; [|apply moved_set_point|]; [done|].
    eapply invariant_same_view; [apply same_view_record|done].
Qed.

(** A task leaves the queue of the lock cancelled. *)
Lemma invariant_give_up t r s :
  invariant s →
  invariant
    (set_point t (Done r)
       (with_lock_state (_locked s)
          (if _locked s then remove_waiter t (_waiters s)
           else _wake_up_first (remove_waiter t (_waiters s))) s)).
Proof.
  intros [H1 H2 H3 H4].
  eapply invariant_moved_out; [|apply moved_set_point|]; [done|].
  split; simpl; [done|done| |].
  - destruct (_locked s).
    + by apply no_woken_tail_remove.
    + by apply no_woken_tail_wake, no_woken_tail_remove.
  - intros Hl. rewrite Hl. by apply no_woken_remove, H4.
Qed.

Lemma no_woken_cancelled ws : forallb is_cancelled ws = true → no_woken ws.
Proof.
  unfold no_woken. rewrite forallb_forall, Forall_forall.
  intros H w Hw%list_elem_of_In%H. unfold is_cancelled, woken in *.
  by destruct (w.2).
Qed.

Lemma invariant_acquire t s : invariant s → invariant (acquire t s).
Proof.
  intros Hinv. unfold acquire.
  destruct (negb (_locked s) && forallb is_cancelled (_waiters s)) eqn:E.
  - apply andb_true_iff in E as [Hl%negb_true_iff Hc%no_woken_cancelled].
    by apply invariant_enter.
  - eapply invariant_moved_out; [|apply moved_set_point|]; [done|].
    destruct Hinv as [H1 H2 H3 H4]. split; simpl; [done|done| |].
    + destruct (_waiters s) as [|w ws]; [by apply Forall_nil|]. simpl in *.
      apply Forall_app. split; [done|]. by apply Forall_singleton.
    + intros Hl. apply Forall_app. split; [by apply H4|].
      by apply Forall_singleton.
Qed.

Lemma invariant_spawn sig s : invariant s → invariant (spawn sig s).
Proof.
  intros [H1 H2 H3 H4].
  assert (Hc : ∀ t, critical (places (spawn sig s)) t → critical (places s) t).
  { intros t. unfold places, spawn. simpl. rewrite fmap_app.
    by apply critical_snoc. }
  split; [auto|naive_solver|done|done].
Qed.

Lemma future_of_woken_held t s :
  invariant s → future_of t (_waiters s) = Some Woken → _locked s = false.
Proof.
  intros [_ _ _ H4] [i Hi]%future_of_woken.
  destruct (_locked s); [|done]. specialize (H4 eq_refl).
  unfold no_woken in H4. rewrite Forall_forall in H4.
  apply list_elem_of_lookup_2, H4 in Hi. done.
Qed.

Lemma invariant_resume t raised s s' :
  resume t raised s = Some s' → invariant s → invariant s'.
Proof.
  unfold resume. intros Hr Hinv.
  destruct (jobs s !! t) as [[p mc]|] eqn:Hj; [|done]. simpl in Hr.
  assert (Hp : places s !! t = Some p).
  { unfold places. by rewrite list_lookup_fmap, Hj. }
  assert (Hin : in_critical_section p = true → critical (places s) t).
  { intros ?. by exists p. }
  assert (Hleave : ∀ r, in_critical_section p = true →
            invariant (leave t r s)).
  { intros r ?. apply invariant_leave; auto. }
  assert (Hheld : in_critical_section p = true → _locked s = true).
  { intros Hc. clear Hr. destruct (_locked s) eqn:Hl; [done|].
    destruct Hinv as [_ H2 _ _]. by destruct (H2 Hl t (Hin Hc)). }
  destruct p; simpl in Hr.
  - (* created *)
    destruct mc; injection Hr as <-.
    + eapply invariant_moved_out; [|apply moved_set_point|]; done.
    + apply invariant_acquire. destruct sig; [|done].
      eapply invariant_same_view; [apply same_view_record|done].
  - (* waiting for the lock *)
    destruct mc.
    { injection Hr as <-. by apply invariant_give_up. }
    destruct (future_of t (_waiters s)) as [[]|] eqn:Hf; try done;
      injection Hr as <-.
    + apply invariant_enter; [by eapply future_of_woken_held| |done].
      apply remove_woken; [by destruct Hinv|done].
    + by apply invariant_give_up.
  - (* super().stop() *)
    injection Hr as <-. destruct mc; [auto|]. destruct raised; [auto|].
    eapply invariant_moved_in; [left; auto|auto| |exact Hinv].
    eapply moved_same_view; [|apply moved_set_point]. done.
  - (* self.disconnect_db() *)
    injection Hr as <-. destruct mc; [auto|]. destruct raised; [auto|].
    eapply invariant_moved_in; [left; auto|auto| |exact Hinv].
    eapply moved_same_view; [|apply moved_set_point]. done.
  - (* pool.stop() *)
    injection Hr as <-. destruct mc; [auto|]. destruct raised; [auto|].
    eapply invariant_moved_in; [left; auto|auto| |exact Hinv].
    apply moved_after_stop.
  - (* self.loop.shutdown_asyncgens() *)
    injection Hr as <-. destruct mc; [auto|]. destruct raised; [auto|].
    apply invariant_leave; [by apply Hin|].
    eapply invariant_same_view; [|exact Hinv]. done.
  - done.
Qed.

Lemma invariant_step s l s' : step s l = Some s' → invariant s → invariant s'.
Proof.
  destruct l as [sig| |t raised]; simpl.
  - intros [= <-]. apply invariant_spawn.
  - intros [= <-]. apply invariant_spawn.
  - apply invariant_resume.
Qed.

Lemma invariant_initial b : invariant (initial b).
Proof.
  split; simpl.
  - by intros t1 t2 (p & Hp & _).
  - by intros _ t (p & Hp & _).
  - by apply Forall_nil.
  - intros _. by apply Forall_nil.
Qed.

Lemma invariant_steps ls : ∀ s s',
  steps s ls = Some s' → invariant s → invariant s'.
Proof.
  induction ls as [|l ls IH]; intros s s'; simpl.
  - by intros [= <-].
  - destruct (step s l) as [s1|] eqn:Hs; [|done].
    intros Hsteps Hinv. eapply IH; [exact Hsteps|].
    by eapply invariant_step.
Qed.

(** The tasks suspended between taking and releasing the lock. *)
Definition inside (s : system) : list task :=
  filter (λ t, in_critical_section <$> places s !! t = Some true)
         (seq 0 (length (jobs s))).

Lemma at_most_one {A} (l : list A) :
  NoDup l → (∀ x y, x ∈ l → y ∈ l → x = y) → (length l ≤ 1)%nat.
Proof.
  intros Hnd Heq. destruct l as [|x [|y l]]; simpl; [lia|lia|].
  apply NoDup_cons in Hnd as [Hx _]. destruct Hx.
  rewrite (Heq x y); [left|left|right; left].
Qed.

Lemma elem_of_inside s t : t ∈ inside s → critical (places s) t.
Proof.
  unfold inside. intros [Hin _]%list_elem_of_filter.
  apply fmap_Some in Hin as (p & Hp & Hc). by exists p.
Qed.

(** C6: whatever signals are delivered and however the loop schedules the
    tasks they create, at most one task is between taking and releasing the
    lock at any time. *)
Theorem one_shutdown_at_a_time (initialized : bool) (ls : list label)
    (s : system) :
  steps (initial initialized) ls = Some s →
  (length (inside s) ≤ 1)%nat ∧
  ∀ t1 t2 j1 j2,
    jobs s !! t1 = Some j1 → in_critical_section (point j1) = true →
    jobs s !! t2 = Some j2 → in_critical_section (point j2) = true →
    t1 = t2.
Proof.
  intros Hs. apply invariant_steps in Hs; [|apply invariant_initial].
  split.
  - apply at_most_one; [apply NoDup_filter, NoDup_seq|].
    intros t1 t2 H1%elem_of_inside H2%elem_of_inside.
    by apply (inv_one s Hs).
  - intros t1 t2 j1 j2 H1 Hc1 H2 Hc2. apply (inv_one s Hs).
    + exists (point j1). unfold places. by rewrite list_lookup_fmap, H1.
    + exists (point j2). unfold places. by rewrite list_lookup_fmap, H2.
Qed.

(** Three signals while the client is initialized: the first task is in
    [self.stop()], the other two wait for the lock. *)
Definition three_signals : list label :=
  [Deliver SIGINT; Deliver SIGTERM; Resume 0 None; Deliver SIGHUP;
   Resume 1 None; Resume 0 None; Resume 2 None].

Lemma one_shutdown_at_a_time_witness :
  ∃ s, steps (initial true) three_signals = Some s ∧
       inside s = [0%nat] ∧
       (point <$> jobs s) = [AwaitDisconnectDb; AwaitLock; AwaitLock] ∧
       (length (inside s) ≤ 1)%nat.
Proof.
  eexists. split; [vm_compute; reflexivity|].
  split; [vm_compute; reflexivity|]. split; [vm_compute; reflexivity|].
  refine (proj1 (one_shutdown_at_a_time true three_signals _ _)).
  vm_compute; reflexivity.
Defined.

(** *** The tracked-task list *)

Definition not_tracked_cancel (e : event) : Prop := ∀ t, e ≠ CancelTracked t.

(** The list is empty and line 93 has cancelled nothing. *)
Definition untracked (s : system) : Prop :=
  tracked s = [] ∧ Forall not_tracked_cancel (calls s).

Lemma untracked_record e s :
  not_tracked_cancel e → untracked s → untracked (record e s).
Proof.
  intros He [Ht Hc]. split; [done|]. simpl.
  apply Forall_app. split; [done|]. by apply Forall_singleton.
Qed.

Lemma untracked_same s s' :
  tracked s' = tracked s → calls s' = calls s → untracked s → untracked s'.
Proof. intros Ht Hc [? ?]. split; congruence. Qed.

Lemma untracked_cancel t s : untracked s → untracked (cancel t s).
Proof.
  apply untracked_same; unfold cancel.
  all: destruct (jobs s !! t) as [j|]; [|done].
  all: destruct (point j); try done.
  all: by destruct (future_of t (_waiters s)) as [[]|].
Qed.

Lemma cancel_tracked_nil s : tracked s = [] → cancel_tracked s = s.
Proof. intros Ht. unfold cancel_tracked. by rewrite Ht. Qed.

Lemma untracked_cancel_others me s :
  untracked s → untracked (cancel_others me s).
Proof.
  unfold cancel_others. generalize (filter (λ t, t ≠ me) (all_tasks s)).
  intros ts. revert s. induction ts as [|t ts IH]; intros s Hs; [done|].
  simpl. apply IH, untracked_cancel, untracked_record; [|done].
  by intros t'.
Qed.

Lemma untracked_set_point t p s : untracked s → untracked (set_point t p s).
Proof. by apply untracked_same. Qed.

Lemma untracked_after_stop t s : untracked s → untracked (after_stop t s).
Proof.
  intros Hs. unfold after_stop.
  apply untracked_set_point, untracked_record; [by intros t'|].
  by apply untracked_cancel_others.
Qed.

Lemma untracked_enter t s : untracked s → untracked (enter t s).
Proof.
  intros Hs. unfold enter.
  assert (Hs' : untracked (record LockAcquire s)).
  { apply untracked_record; [by intros t'|done]. }
  rewrite cancel_tracked_nil by apply Hs'.
  destruct (client_initialized _).
  - apply untracked_set_point.
    do 2 (apply untracked_record; [by intros t'|]). done.
  - by apply untracked_after_stop.
Qed.

Lemma untracked_leave t r s : untracked s → untracked (leave t r s).
Proof.
  intros Hs. unfold leave.
  assert (Hs' : untracked (record LockRelease s)).
  { apply untracked_record; [by intros t'|done]. }
  destruct (_locked _); apply untracked_set_point; [|done].
  revert Hs'. by apply untracked_same.
Qed.

Lemma untracked_acquire t s : untracked s → untracked (acquire t s).
Proof.
  intros Hs. unfold acquire. destruct (_ && _).
  - apply untracked_enter. revert Hs. by apply untracked_same.
  - apply untracked_set_point. revert Hs. by apply untracked_same.
Qed.

Lemma untracked_resume t raised s s' :
  resume t raised s = Some s' → untracked s → untracked s'.
Proof.
  unfold resume. intros Hr Hs.
  destruct (jobs s !! t) as [[p mc]|]; [|done]. simpl in Hr.
  assert (Hgive : ∀ l ws r,
            untracked (set_point t (Done r) (with_lock_state l ws s))).
  { intros l ws r. apply untracked_set_point. revert Hs.
    by apply untracked_same. }
  destruct p; simpl in Hr.
  - destruct mc; injection Hr as <-; [by apply untracked_set_point|].
    apply untracked_acquire. destruct sig; [|done].
    apply untracked_record; [by intros t'|done].
  - destruct mc; [by injection Hr as <-|].
    destruct (future_of t (_waiters s)) as [[]|]; try done;
      injection Hr as <-; [|done].
    apply untracked_enter. revert Hs. by apply untracked_same.
  - injection Hr as <-.
    destruct mc; [by apply untracked_leave|].
    destruct raised; [by apply untracked_leave|].
    apply untracked_set_point, untracked_record; [by intros t'|].
    revert Hs. by apply untracked_same.
  - injection Hr as <-.
    destruct mc; [by apply untracked_leave|].
    destruct raised; [by apply untracked_leave|].
    apply untracked_set_point, untracked_record; [by intros t'|done].
  - injection Hr as <-.
    destruct mc; [by apply untracked_leave|].
    destruct raised; [by apply untracked_leave|].
    by apply untracked_after_stop.
  - injection Hr as <-.
    destruct mc; [by apply untracked_leave|].
    destruct raised; [by apply untracked_leave|].
    apply untracked_leave.
    do 2 (apply untracked_record; [by intros t'|]). done.
  - done.
Qed.

Lemma untracked_steps ls : ∀ s s',
  steps s ls = Some s' → untracked s → untracked s'.
Proof.
  induction ls as [|l ls IH]; intros s s'; simpl.
  - by intros [= <-].
  - destruct (step s l) as [s1|] eqn:Hstep; [|done].
    intros Hsteps Hs. eapply IH; [exact Hsteps|].
    destruct l as [sig| |t raised]; simpl in Hstep.
    + injection Hstep as <-. revert Hs. by apply untracked_same.
    + injection Hstep as <-. revert Hs. by apply untracked_same.
    + by eapply untracked_resume.
Qed.

Lemma reachable_untracked b ls s :
  steps (initial b) ls = Some s →
  tracked s = [] ∧ ∀ t, CancelTracked t ∉ calls s.
Proof.
  intros Hs. apply untracked_steps in Hs as [Ht Hc].
  - split; [done|]. intros t Hin. rewrite Forall_forall in Hc.
    by apply (Hc _ Hin t).
  - split; [done|]. simpl. by apply Forall_nil.
Qed.

(** A task that runs alone makes the calls of [Lifecycle.finalized]. *)
Example lone_task_agrees :
  let E := {| ALL_MODULES := []; has_MODULE := λ _, false;
              raises := λ _, None; STAFF := [];
              Lifecycle.all_tasks := [0%nat]; current_task := 0%nat |} in
  let w := {| staff := ∅; is_initialized := true; tasks := []; log := [] |} in
  calls <$> steps (initial true)
              [Finalize; Resume 0 None; Resume 0 None; Resume 0 None;
               Resume 0 None; Resume 0 None]
    = Some (log (finalized E w).1).
Proof. vm_compute. reflexivity. Qed.

(** C10: the list [tasks] of [begin] is empty whenever a shutdown runs,
    in [begin] itself and in every task a signal handler creates, and no
    task is ever cancelled at line 93; on the empty list the first phase
    changes nothing. *)
Theorem tracked_tasks_stay_empty :
  (∀ E coro w,
     tasks (begin E coro w).1 = [] ∧
     ∃ l, log (begin E coro w).1 = log w ++ l ∧ ∀ t, CancelTracked t ∉ l) ∧
  (∀ initialized ls s,
     steps (initial initialized) ls = Some s →
     tracked s = [] ∧ ∀ t, CancelTracked t ∉ calls s) ∧
  (∀ w, tasks w = [] → Lifecycle.cancel_tracked w = (w, Ok tt)) ∧
  (∀ s, tracked s = [] → cancel_tracked s = s).
Proof.
  split; [apply LifecycleFacts.begin_tracks_nothing|].
  split; [apply reachable_untracked|].
  split; [|apply cancel_tracked_nil].
  intros [st i ts lg] Ht. simpl in Ht. subst ts. reflexivity.
Qed.

End ShutdownFacts.

(** * Further properties *)

Module StaffMore.
Import Staff StaffFacts.

(** An entry that is not a list is out of reach of the loop. *)
Lemma append_record_keeps (staff : gmap string pyval) i k :
  shape_of (staff !! k) ≠ IsList →
  (append_record staff i).1 !! k = staff !! k.
Proof.
  intros Hk. unfold append_record.
  destruct (staff !! rank i) as [[n|l]|] eqn:E; simpl; try done.
  destruct (decide (rank i = k)) as [<-|Hne].
  - by rewrite E in Hk.
  - by rewrite lookup_insert_ne.
Qed.

Lemma load_loop_keeps docs : ∀ (staff : gmap string pyval) k,
  shape_of (staff !! k) ≠ IsList →
  (load_loop staff docs).1 !! k = staff !! k.
Proof.
  induction docs as [|i docs IH]; intros staff k Hk; simpl; [done|].
  pose proof (append_record_keeps staff i k Hk) as Hs.
  pose proof (append_record_shape staff i k) as Hsh.
  destruct (append_record staff i) as [staff' [[]|e]]; simpl in *; [|done].
  rewrite IH; [done|]. by rewrite Hsh.
Qed.

Lemma load_staff_keeps (staff : gmap string pyval) docs k :
  k ≠ "dev" → k ≠ "sudo" → shape_of (staff !! k) ≠ IsList →
  (_load_staff staff docs).1 !! k = staff !! k.
Proof.
  intros Hd Hs Hk. unfold _load_staff.
  assert (Hr : reset_ranks staff !! k = staff !! k).
  { unfold reset_ranks. by rewrite !lookup_insert_ne. }
  rewrite load_loop_keeps; [done|]. by rewrite Hr.
Qed.

(** X1: a load never changes an integer owner entry, whatever the documents
    are ranked and whether or not the load fails. *)
Theorem load_keeps_owner (OWNER_ID : Z) (staff : gmap string pyval)
    (docs : list staff_record) :
  staff !! "owner" = Some (VInt OWNER_ID) →
  (_load_staff staff docs).1 !! "owner" = Some (VInt OWNER_ID).
Proof.
  intros Ho. rewrite load_staff_keeps; [done|done|done|]. by rewrite Ho.
Qed.

Lemma load_keeps_owner_witness :
  (_load_staff (staff_init 7)
     [ {| _id := 1; rank := "dev" |}; {| _id := 2; rank := "owner" |} ]).1
    !! "owner" = Some (VInt 7).
Proof. apply load_keeps_owner. reflexivity. Defined.

(** What the reachable dictionaries look like: the owner is the configured
    one, and the two rank lists are both missing or both present. *)
Definition well_formed (OWNER_ID : Z) (staff : gmap string pyval) : Prop :=
  staff !! "owner" = Some (VInt OWNER_ID) ∧
  (∀ k, k ≠ "owner" → k ≠ "dev" → k ≠ "sudo" → staff !! k = None) ∧
  ((staff !! "dev" = None ∧ staff !! "sudo" = None) ∨
   (∃ d s, staff !! "dev" = Some (VList d) ∧ staff !! "sudo" = Some (VList s))).

Lemma lists_after_load (staff : gmap string pyval) docs :
  ∃ d s, (_load_staff staff docs).1 !! "dev" = Some (VList d) ∧
         (_load_staff staff docs).1 !! "sudo" = Some (VList s).
Proof.
  unfold _load_staff.
  pose proof (load_loop_shape docs (reset_ranks staff) "dev") as Hd.
  pose proof (load_loop_shape docs (reset_ranks staff) "sudo") as Hs.
  rewrite reset_ranks_dev in Hd. rewrite reset_ranks_sudo in Hs.
  destruct ((load_loop _ docs).1 !! "dev") as [[|d]|]; try done.
  destruct ((load_loop _ docs).1 !! "sudo") as [[|s]|]; try done.
  by exists d, s.
Qed.

Lemma well_formed_load OWNER_ID (staff : gmap string pyval) docs :
  well_formed OWNER_ID staff →
  well_formed OWNER_ID (_load_staff staff docs).1.
Proof.
  intros (Ho & Hk & _). split; [by apply load_keeps_owner|]. split.
  - intros k H1 H2 H3. rewrite load_staff_keeps; [auto|done|done|].
    by rewrite Hk.
  - right. apply lists_after_load.
Qed.

Lemma reachable_well_formed OWNER_ID staff :
  reachable OWNER_ID staff → well_formed OWNER_ID staff.
Proof.
  induction 1 as [|staff _ (Ho & Hk & Hl)|staff docs _ IH].
  - split; [done|]. split; [|by left].
    intros k H1 _ _. unfold staff_init, set_owner.
    by rewrite lookup_insert_ne.
  - unfold set_owner. split; [by rewrite lookup_insert_eq|]. split.
    + intros k H1 H2 H3. rewrite lookup_insert_ne by done. auto.
    + by rewrite !lookup_insert_ne.
  - by apply well_formed_load.
Qed.

(** X2: on every dictionary the constructor and loads can produce,
    [staff_id] either raises [KeyError], the rank lists being missing, or
    returns a list headed by the configured owner; it never raises anything
    else.  A load that fails in [get_collection] leaves the dictionary as
    it was; a load that gets past it leaves [staff_id] defined, whether it
    then fails in [_db.find()], on a document, or not at all.  Either way
    the dictionary is again one of those. *)
Theorem staff_id_total_after_load (OWNER_ID : Z) (E : Lifecycle.env)
    (w : Lifecycle.world) :
  reachable OWNER_ID (Lifecycle.staff w) →
  ((staff_id (Lifecycle.staff w) = Raise KeyError ∧
    Lifecycle.staff w !! "dev" = None) ∨
   ∃ d s, staff_id (Lifecycle.staff w) =
            Ok (VInt OWNER_ID :: (VInt <$> d ++ s))) ∧
  (∀ e, Lifecycle.raises E (Lifecycle.GetCollection "STAFF") = Some e →
     (Lifecycle._load_staff E w).2 = Raise e ∧
     Lifecycle.staff (Lifecycle._load_staff E w).1 = Lifecycle.staff w) ∧
  (Lifecycle.raises E (Lifecycle.GetCollection "STAFF") = None →
     ∃ d s, staff_id (Lifecycle.staff (Lifecycle._load_staff E w).1) =
              Ok (VInt OWNER_ID :: (VInt <$> d ++ s))) ∧
  reachable OWNER_ID (Lifecycle.staff (Lifecycle._load_staff E w).1).
Proof.
  intros Hr. pose proof (reachable_well_formed _ _ Hr) as Hwf.
  assert (Hid : ∀ st, well_formed OWNER_ID st →
    (staff_id st = Raise KeyError ∧ st !! "dev" = None) ∨
    ∃ d s, staff_id st = Ok (VInt OWNER_ID :: (VInt <$> d ++ s))).
  { intros st (Ho & _ & [[Hd Hs]|(d & s & Hd & Hs)]); unfold staff_id.
    - left. by rewrite Ho, Hd.
    - right. exists d, s. by rewrite Ho, Hd, Hs. }
  assert (Hloaded : ∀ docs, ∃ d s,
    staff_id (_load_staff (Lifecycle.staff w) docs).1 =
      Ok (VInt OWNER_ID :: (VInt <$> d ++ s))).
  { intros docs.
    destruct (Hid _ (well_formed_load _ _ docs Hwf)) as [[_ Hd]|?]; [|done].
    destruct (lists_after_load (Lifecycle.staff w) docs) as (d & s & Hd' & _).
    congruence. }
  split; [by apply Hid|].
  destruct w as [st i ts lg]. simpl in *.
  unfold Lifecycle._load_staff, Lifecycle.load_documents.
  cbv [mbind Lifecycle.run_bind Lifecycle.bind Lifecycle.call
       Lifecycle.modify].
  cbn [Lifecycle.add_log Lifecycle.set_staff Lifecycle.staff fst snd].
  destruct (Lifecycle.raises E (Lifecycle.GetCollection "STAFF")) as [e0|].
  { cbn [fst snd Lifecycle.staff]. split; [by intros e [= <-]|].
    split; [done|done]. }
  split; [done|].
  destruct (Lifecycle.raises E Lifecycle.Find) as [e1|];
    cbn [fst snd Lifecycle.staff].
  - split.
    + intros _. apply (Hloaded []).
    + apply (reach_load OWNER_ID st [] Hr).
  - pose proof (Hloaded (Lifecycle.STAFF E)) as Hl.
    pose proof (reach_load OWNER_ID st (Lifecycle.STAFF E) Hr) as Hr'.
    unfold _load_staff in Hl, Hr'.
    destruct (load_loop (reset_ranks st) (Lifecycle.STAFF E)) as [st' r].
    cbn [fst snd Lifecycle.staff] in *. split; [by intros _|done].
Qed.

(** A collection that cannot be got, and one that cannot be read. *)
Definition get_collection_raises : Lifecycle.env :=
  {| Lifecycle.ALL_MODULES := []; Lifecycle.has_MODULE := λ _, false;
     Lifecycle.raises := λ e, match e with
                              | Lifecycle.GetCollection _ =>
                                  Some ConnectionError
                              | _ => None
                              end;
     Lifecycle.STAFF := [ {| _id := 3; rank := "sudo" |} ];
     Lifecycle.all_tasks := []; Lifecycle.current_task := 0%nat |}.

Definition find_raises : Lifecycle.env :=
  {| Lifecycle.ALL_MODULES := []; Lifecycle.has_MODULE := λ _, false;
     Lifecycle.raises := λ e, match e with
                              | Lifecycle.Find => Some ConnectionError
                              | _ => None
                              end;
     Lifecycle.STAFF := [ {| _id := 3; rank := "sudo" |} ];
     Lifecycle.all_tasks := []; Lifecycle.current_task := 0%nat |}.

Definition before_any_load : Lifecycle.world :=
  {| Lifecycle.staff := staff_init 7; Lifecycle.is_initialized := false;
     Lifecycle.tasks := []; Lifecycle.log := [] |}.

Lemma staff_id_total_after_load_witness :
  staff_id (Lifecycle.staff
              (Lifecycle._load_staff get_collection_raises
                 before_any_load).1) = Raise KeyError ∧
  ∃ d s, staff_id (Lifecycle.staff
                     (Lifecycle._load_staff find_raises before_any_load).1)
         = Ok (VInt 7 :: (VInt <$> d ++ s)).
Proof.
  split.
  - destruct (staff_id_total_after_load 7 get_collection_raises
                before_any_load (reach_init 7)) as (_ & Hfail & _).
    destruct (Hfail ConnectionError eq_refl) as [_ ->]. reflexivity.
  - destruct (staff_id_total_after_load 7 find_raises
                before_any_load (reach_init 7)) as (_ & _ & Hpast & _).
    apply Hpast. reflexivity.
Defined.

Lemma all_rank_ok docs :
  Forall (λ i, rank i = "dev" ∨ rank i = "sudo") docs →
  Forall (λ i, rank_ok i = true) docs.
Proof.
  intros H. eapply Forall_impl; [exact H|]. intros i Hi. by apply rank_ok_spec.
Qed.

(** Where a load stops: the dictionary is the one a load of the documents
    before the first ill-ranked one produces. *)
Lemma load_stops_at OWNER_ID (staff : gmap string pyval) pre i post :
  well_formed OWNER_ID staff →
  Forall (λ j, rank j = "dev" ∨ rank j = "sudo") pre →
  rank i ≠ "dev" → rank i ≠ "sudo" →
  (_load_staff staff (pre ++ i :: post)).1 = (_load_staff staff pre).1 ∧
  is_Some (match (_load_staff staff (pre ++ i :: post)).2 with
           | Raise e => Some e
           | Ok _ => None
           end).
Proof.
  intros Hwf Hpre Hd Hs.
  destruct (load_staff_ok staff pre (all_rank_ok _ Hpre)) as (staff' & Hl & _).
  destruct (well_formed_load _ _ pre Hwf) as (Ho & Hk & _).
  unfold _load_staff in *. rewrite load_loop_app, Hl in *. simpl in *.
  unfold append_record.
  destruct (decide (rank i = "owner")) as [Hi|Hi].
  - rewrite Hi, Ho. simpl. eauto.
  - rewrite (Hk _ Hi Hd Hs). simpl. eauto.
Qed.

(** X3: when a load fails on a document, [staff_id] afterwards answers with
    the owner and the identifiers of the documents read before it, "dev"
    first; whatever an earlier load had put there is gone. *)
Theorem staff_id_after_failed_load (OWNER_ID : Z)
    (staff : gmap string pyval) (pre post : list staff_record)
    (i : staff_record) :
  reachable OWNER_ID staff →
  Forall (λ j, rank j = "dev" ∨ rank j = "sudo") pre →
  rank i ≠ "dev" → rank i ≠ "sudo" →
  (_load_staff staff (pre ++ i :: post)).2 ≠ Ok tt ∧
  staff_id (_load_staff staff (pre ++ i :: post)).1 =
    Ok (VInt OWNER_ID :: (VInt <$> ids_of "dev" pre ++ ids_of "sudo" pre)).
Proof.
  intros Hr%reachable_well_formed Hpre Hd Hs.
  destruct (load_stops_at OWNER_ID staff pre i post Hr Hpre Hd Hs)
    as [Hst [e He]].
  split.
  - intros Hok. by rewrite Hok in He.
  - rewrite Hst.
    destruct (staff_id_of_load OWNER_ID staff pre (proj1 Hr) Hpre)
      as (staff' & Hl & Hid).
    by rewrite Hl.
Qed.

Lemma staff_id_after_failed_load_witness :
  let old := (_load_staff (staff_init 7) [ {| _id := 9; rank := "sudo" |} ]).1 in
  let docs_pre := [ {| _id := 1; rank := "dev" |} ] in
  let bad := {| _id := 2; rank := "admin" |} in
  let docs_post := [ {| _id := 3; rank := "sudo" |} ] in
  (_load_staff old (docs_pre ++ bad :: docs_post)).2 ≠ Ok tt ∧
  staff_id (_load_staff old (docs_pre ++ bad :: docs_post)).1 =
    Ok (VInt 7 :: (VInt <$> ids_of "dev" docs_pre ++ ids_of "sudo" docs_pre)).
Proof.
  intros old docs_pre bad docs_post.
  apply staff_id_after_failed_load.
  - apply reach_load, reach_init.
  - apply Forall_cons; split; [left; reflexivity | by apply Forall_nil].
  - simpl. discriminate.
  - simpl. discriminate.
Defined.

(** X4: on a dictionary the module can have produced, what a load returns
    and the whole dictionary it leaves depend on its own documents only, not
    on any earlier load; in particular loading the same documents again
    changes nothing. *)
Theorem load_forgets_earlier_loads (OWNER_ID : Z)
    (staff : gmap string pyval) (R1 R2 : list staff_record) :
  reachable OWNER_ID staff →
  _load_staff (_load_staff staff R1).1 R2 = _load_staff staff R2 ∧
  _load_staff (_load_staff staff R2).1 R2 = _load_staff staff R2.
Proof.
  intros Hr%reachable_well_formed.
  assert (H : ∀ R, _load_staff (_load_staff staff R).1 R2 = _load_staff staff R2).
  { intros R.
    pose proof (well_formed_load _ _ R Hr) as (Ho1 & Hk1 & _).
    destruct Hr as (Ho & Hk & _).
    assert (Hal : alike (reset_ranks (_load_staff staff R).1)
                        (reset_ranks staff)).
    { split; [|by rewrite !reset_ranks_dev, !reset_ranks_sudo].
      intros k. rewrite !reset_ranks_shape.
      destruct (bool_decide (k = "dev") || bool_decide (k = "sudo")) eqn:E;
        [done|].
      apply orb_false_iff in E as [Hd%bool_decide_eq_false
                                    Hs%bool_decide_eq_false].
      by rewrite load_staff_shape. }
    destruct (load_loop_alike R2 _ _ Hal) as [(_ & Hd & Hs) Hres].
    unfold _load_staff at 1 3.
    destruct (load_loop (reset_ranks (_load_staff staff R).1) R2)
      as [m1 r1] eqn:E1.
    destruct (load_loop (reset_ranks staff) R2) as [m2 r2] eqn:E2.
    simpl in *. subst r2. f_equal. apply map_eq. intros k.
    destruct (decide (k = "dev")) as [->|Hkd]; [done|].
    destruct (decide (k = "sudo")) as [->|Hks]; [done|].
    assert (Hm1 : m1 !! k = (_load_staff staff R).1 !! k).
    { change m1 with (m1, r1).1. rewrite <- E1.
      apply (load_staff_keeps (_load_staff staff R).1 R2 k Hkd Hks).
      destruct (decide (k = "owner")) as [->|Hko]; [by rewrite Ho1|].
      by rewrite Hk1. }
    assert (Hm2 : m2 !! k = staff !! k).
    { change m2 with (m2, r1).1. rewrite <- E2.
      apply (load_staff_keeps staff R2 k Hkd Hks).
      destruct (decide (k = "owner")) as [->|Hko]; [by rewrite Ho|].
      by rewrite Hk. }
    rewrite Hm1, Hm2. apply load_staff_keeps; [done|done|].
    destruct (decide (k = "owner")) as [->|Hko]; [by rewrite Ho|].
    by rewrite Hk. }
  split; apply H.
Qed.

Lemma load_forgets_earlier_loads_witness :
  let R1 := [ {| _id := 9; rank := "sudo" |}; {| _id := 8; rank := "x" |} ] in
  let R2 := [ {| _id := 1; rank := "dev" |}; {| _id := 1; rank := "dev" |} ] in
  _load_staff (_load_staff (staff_init 7) R1).1 R2 = _load_staff (staff_init 7) R2 ∧
  _load_staff (_load_staff (staff_init 7) R2).1 R2 = _load_staff (staff_init 7) R2.
Proof. intros R1 R2. apply (load_forgets_earlier_loads 7). apply reach_init. Defined.

(** X5: a successful load drops no document and invents none: the
    identifiers [staff_id] returns after the owner are a rearrangement of the
    identifiers of the documents, so there is one entry per document. *)
Theorem staff_id_counts_every_document (OWNER_ID : Z)
    (staff : gmap string pyval) (docs : list staff_record) :
  staff !! "owner" = Some (VInt OWNER_ID) →
  Forall (λ i, rank i = "dev" ∨ rank i = "sudo") docs →
  ∃ ids,
    staff_id (_load_staff staff docs).1 = Ok (VInt OWNER_ID :: (VInt <$> ids)) ∧
    ids ≡ₚ _id <$> docs ∧
    length ids = length docs.
Proof.
  intros Ho Hall.
  destruct (staff_id_of_load OWNER_ID staff docs Ho Hall) as (staff' & Hl & Hid).
  exists (ids_of "dev" docs ++ ids_of "sudo" docs). rewrite Hl. simpl.
  split; [done|].
  assert (Hp : ids_of "dev" docs ++ ids_of "sudo" docs ≡ₚ _id <$> docs).
  { clear Hl Hid. induction docs as [|i docs IH]; [done|].
    apply Forall_cons in Hall as [Hi Hall]. specialize (IH Hall).
    destruct Hi as [Hi|Hi].
    - rewrite (ids_of_cons_eq "dev") by done.
      rewrite (ids_of_cons_ne "sudo") by (rewrite Hi; done).
      simpl. by rewrite IH.
    - rewrite (ids_of_cons_ne "dev") by (rewrite Hi; done).
      rewrite (ids_of_cons_eq "sudo") by done.
      rewrite <- Permutation_middle. simpl. by rewrite IH. }
  split; [done|]. by rewrite Hp, length_fmap.
Qed.

Lemma staff_id_counts_every_document_witness :
  let docs := [ {| _id := 3; rank := "sudo" |}; {| _id := 5; rank := "dev" |};
                {| _id := 3; rank := "sudo" |} ] in
  ∃ ids,
    staff_id (_load_staff (staff_init 7) docs).1 = Ok (VInt 7 :: (VInt <$> ids)) ∧
    ids ≡ₚ _id <$> docs ∧
    length ids = length docs.
Proof.
  intros docs. apply staff_id_counts_every_document.
  - reflexivity.
  - repeat (apply Forall_cons; split;
            [ (left; reflexivity) || (right; reflexivity) | ]).
    by apply Forall_nil.
Defined.

End StaffMore.

Module CommandMore.
Import Staff Command CommandFacts.

(** The filter [decorator] hands to [on_message]. *)
Definition registered_filter (cmd : commands) (filters : option filter)
    (admin staff : option bool) : filter :=
  if truthy admin then FAnd (FAnd (base_filters cmd filters) FAdmin) FBotAdmin
  else if truthy staff then FAnd (base_filters cmd filters) FStaff
  else base_filters cmd filters.

Lemma on_command_eq {H} cmd filters admin staff group (coro : H) hs :
  on_command cmd filters admin staff group coro hs =
    (hs ++ [(group, registered_filter cmd filters admin staff, coro)], coro).
Proof.
  unfold on_command, decorator, registered_filter, base_filters, on_message.
  by destruct filters, (truthy admin), (truthy staff).
Qed.

Lemma eval_and_not_true base other c m :
  eval base c m ≠ Ok true → eval (FAnd base other) c m = eval base c m.
Proof. simpl. by destruct (eval base c m) as [[]|e]. Qed.

Lemma base_filters_true cmd filters c m :
  eval (base_filters cmd filters) c m = Ok true →
  eval (FCommand cmd) c m = Ok true ∧
  ∀ f, filters = Some f → eval f c m = Ok true.
Proof.
  destruct filters as [f|]; simpl (base_filters _ _).
  - intros [Hc Hf]%eval_and_true. split; [done|]. by intros ? [= <-].
  - intros Hc. split; [done|]. by intros ? [=].
Qed.

(** X6: whatever the flags, [on_command] returns the handler unchanged and
    adds exactly one registration, with the given group, after the earlier
    ones; the filter it registers accepts only messages that the command
    filter and the caller's filter, if any, accept; with neither [admin] nor
    [staff] it is exactly those two. *)
Theorem on_command_registers_once {H} (cmd : commands)
    (filters : option filter) (admin staff : option bool) (group : option Z)
    (coro : H) (hs : handlers H) :
  ∃ registered,
    on_command cmd filters admin staff group coro hs =
      (hs ++ [(group, registered, coro)], coro) ∧
    (∀ c m, eval registered c m = Ok true →
       eval (FCommand cmd) c m = Ok true ∧
       ∀ f, filters = Some f → eval f c m = Ok true) ∧
    (truthy admin = false → truthy staff = false →
       registered = match filters with
                    | Some f => FAnd (FCommand cmd) f
                    | None => FCommand cmd
                    end).
Proof.
  exists (registered_filter cmd filters admin staff).
  split; [apply on_command_eq|]. split.
  - intros c m. unfold registered_filter.
    destruct (truthy admin); [|destruct (truthy staff)].
    + intros [[Hb _]%eval_and_true _]%eval_and_true.
      by apply base_filters_true.
    + intros [Hb _]%eval_and_true. by apply base_filters_true.
    + apply base_filters_true.
  - intros Ha Hs. unfold registered_filter. by rewrite Ha, Hs.
Qed.

(** X7: the permission filters are consulted only for messages the command
    filter and the caller's filter accepted: on any other message the
    registered filter answers what those answer, so a message that is not the
    command is rejected even while [staff_id] would raise. *)
Theorem on_command_short_circuits {H} (cmd : commands)
    (filters : option filter) (admin staff : option bool) (group : option Z)
    (coro : H) (hs : handlers H) :
  ∃ registered,
    on_command cmd filters admin staff group coro hs =
      (hs ++ [(group, registered, coro)], coro) ∧
    (∀ c m, eval (FCommand cmd) c m ≠ Ok true →
       eval registered c m = eval (FCommand cmd) c m) ∧
    (∀ c m f, filters = Some f → eval (FCommand cmd) c m = Ok true →
       eval f c m ≠ Ok true → eval registered c m = eval f c m).
Proof.
  exists (registered_filter cmd filters admin staff).
  split; [apply on_command_eq|].
  assert (Hbase : ∀ c m, eval (base_filters cmd filters) c m ≠ Ok true →
    eval (registered_filter cmd filters admin staff) c m =
      eval (base_filters cmd filters) c m).
  { intros c m Hb. unfold registered_filter.
    destruct (truthy admin); [|destruct (truthy staff)]; [| |done].
    - pose proof (eval_and_not_true _ FAdmin c m Hb) as H1.
      rewrite eval_and_not_true; by rewrite H1.
    - by rewrite eval_and_not_true. }
  split.
  - intros c m Hc. rewrite Hbase.
    + unfold base_filters. destruct filters; [|done].
      by apply eval_and_not_true.
    + unfold base_filters. destruct filters; [|done].
      by rewrite eval_and_not_true.
  - intros c m f -> Hc Hf.
    assert (Hb : eval (base_filters cmd (Some f)) c m = eval f c m).
    { simpl. simpl in Hc. by rewrite Hc. }
    rewrite Hbase; [done|]. by rewrite Hb.
Qed.

(** A staff-only command on a client whose staff was never loaded: a
    message that is not the command is rejected, the command itself makes
    the filter raise. *)
Example staff_command_before_load :
  let registered := registered_filter (OneCommand "ban") None None (Some true) in
  let c := {| Command.staff := staff_init 7; me := 1 |} in
  eval registered c {| from_user := 5; in_chat := Private;
                       command_name := Some "start" |} = Ok false ∧
  eval registered c {| from_user := 5; in_chat := Private;
                       command_name := Some "ban" |} = Raise KeyError.
Proof. split; vm_compute; reflexivity. Qed.

End CommandMore.

Module ConstructMore.
Import Staff Construct.

(** X8: the constructor writes the owner entry of the class-level
    dictionary and nothing else of it, so rank lists loaded through one
    instance survive the construction of another, and constructing again
    changes nothing more; on a dictionary nothing was loaded into,
    [staff_id] raises [KeyError] after construction. *)
Theorem init_touches_owner_only {time} (cfg : Config) (now : time)
    (staff : gmap string pyval) (kwargs : gmap string kwval) :
  let staff' := class_staff (__init__ cfg now staff kwargs) in
  staff' !! "owner" = Some (VInt (OWNER_ID cfg)) ∧
  (∀ k, k ≠ "owner" → staff' !! k = staff !! k) ∧
  (∀ d s, staff !! "dev" = Some (VList d) → staff !! "sudo" = Some (VList s) →
     staff_id staff' = Ok (VInt (OWNER_ID cfg) :: (VInt <$> d ++ s))) ∧
  (staff !! "dev" = None ∨ staff !! "sudo" = None →
     staff_id staff' = Raise KeyError) ∧
  class_staff (__init__ cfg now staff' kwargs) = staff'.
Proof.
  intros staff'. subst staff'. simpl. unfold set_owner.
  split; [by rewrite lookup_insert_eq|].
  split; [intros k Hk; by rewrite lookup_insert_ne|].
  split; [|split].
  - intros d s Hd Hs. unfold staff_id.
    rewrite lookup_insert_eq, !lookup_insert_ne by done. by rewrite Hd, Hs.
  - intros Hnone. unfold staff_id.
    rewrite lookup_insert_eq, !lookup_insert_ne by done.
    destruct Hnone as [->| ->]; [done|]. by destruct (staff !! "dev").
  - by rewrite insert_insert_eq.
Qed.

End ConstructMore.

Module LifecycleMore.
Import Staff Lifecycle LifecycleFacts.

(** *** [start] *)

(** [start] up to and including [super().start()]. *)
Definition start_calls (E : env) : run unit :=
  call E PoolStart ;;
  call E (ConnectDb "NekoBot") ;;
  emit (Log "Importing available modules") ;;
  for_each (ALL_MODULES E) (λ mod_name,
    call E (ImportModule mod_name) ;;
    if has_MODULE E mod_name
    then emit (Log (String.append mod_name " module loaded"))
    else ret tt) ;;
  _load_staff E ;;
  emit (Log "Starting Bot Client...") ;;
  call E ClientStart.

Lemma bind_assoc {A B C} (m : run A) (f : A → run B) (g : B → run C) w :
  ((m ≫= f) ≫= g) w = (m ≫= λ a, f a ≫= g) w.
Proof. rewrite !bind_eq. by destruct (m w) as [w' [a|e]]. Qed.

Lemma bind_ext {A B} (m : run A) (f g : A → run B) w :
  (∀ a w', f a w' = g a w') → (m ≫= f) w = (m ≫= g) w.
Proof. intros H. rewrite !bind_eq. by destruct (m w) as [w' [a|e]]. Qed.

Lemma start_eq E w :
  start E w =
    match start_calls E w with
    | (w', Ok _) => (set_initialized true w', Ok tt)
    | (w', Raise e) => (w', Raise e)
    end.
Proof.
  transitivity ((start_calls E ≫= λ _, modify (set_initialized true)) w).
  - unfold start, start_calls. revert w.
    do 6 (intros w; rewrite bind_assoc; apply bind_ext; intros []; clear w).
    done.
  - rewrite bind_eq. by destruct (start_calls E w) as [w' [[]|e]].
Qed.

(** X9: [start] makes its calls in this order: start the pool, connect the
    database, import the plugins in list order (logging those that carry a
    true [__MODULE__]), get the "STAFF" collection and read it, start the
    client.  The first call that raises ends [start] with what it raised,
    the calls before it made and none after it; so does, once [_db.find()]
    has returned, a document that the loop cannot file, before the client is
    started.  When nothing raises every call is made.  The client is marked
    initialized when [start] returns and left as it was when [start]
    raises. *)
Theorem start_order (E : env) (w : world) :
  (∀ pre c post e,
     startup_steps E = pre ++ c :: post →
     is_log c = false → raises E c = Some e →
     (∀ c', c' ∈ pre → is_log c' = false → raises E c' = None) →
     (Find ∈ pre → (load_loop (reset_ranks (staff w)) (STAFF E)).2 = Ok tt) →
     log (start E w).1 = log w ++ pre ++ [c] ∧
     (start E w).2 = Raise e ∧
     is_initialized (start E w).1 = is_initialized w) ∧
  (∀ e,
     (∀ c, c ∈ load_steps E → is_log c = false → raises E c = None) →
     (load_loop (reset_ranks (staff w)) (STAFF E)).2 = Raise e →
     log (start E w).1 = log w ++ load_steps E ∧
     (start E w).2 = Raise e ∧
     is_initialized (start E w).1 = is_initialized w) ∧
  ((∀ c, c ∈ startup_steps E → is_log c = false → raises E c = None) →
   (load_loop (reset_ranks (staff w)) (STAFF E)).2 = Ok tt →
     log (start E w).1 = log w ++ startup_steps E ∧
     (start E w).2 = Ok tt ∧
     is_initialized (start E w).1 = true).
Proof.
  destruct (start_outcome E w) as (Hlog & Hres & Hinit).
  split; [|split].
  - intros pre c post e Heq Hc He Hpre Hload.
    rewrite (startup_first_raise E (staff w) pre c post e) in *; done.
  - intros e Hno Hload.
    rewrite (startup_load_fails E (staff w) e) in *; done.
  - intros Hno Hload. rewrite (startup_returns E (staff w)) in *; done.
Qed.

(** The second of three plugins cannot be imported. *)
Definition import_raises_ImportError : env :=
  {| ALL_MODULES := ["admin"; "misc"; "staff"];
     has_MODULE := λ m, bool_decide (m = "admin");
     raises := λ e, match e with
                    | ImportModule "misc" => Some ImportError
                    | _ => None
                    end;
     STAFF := [ {| _id := 3; rank := "sudo" |} ];
     Lifecycle.all_tasks := [0%nat]; current_task := 0%nat |}.

Lemma start_order_witness :
  let w := {| staff := staff_init 7; is_initialized := false;
              tasks := []; log := [] |} in
  log (start import_raises_ImportError w).1 =
    log w ++ [PoolStart; ConnectDb "NekoBot";
              Log "Importing available modules"; ImportModule "admin";
              Log "admin module loaded"] ++ [ImportModule "misc"] ∧
  (start import_raises_ImportError w).2 = Raise ImportError ∧
  is_initialized (start import_raises_ImportError w).1 = is_initialized w.
Proof.
  intros w.
  apply (proj1 (start_order import_raises_ImportError w) _ _
           [ImportModule "staff"; GetCollection "STAFF"; Find;
            Log "Starting Bot Client..."; ClientStart]).
  - reflexivity.
  - reflexivity.
  - reflexivity.
  - intros c' Hin _.
    repeat (apply elem_of_cons in Hin as [->|Hin]; [reflexivity|]).
    by apply elem_of_nil in Hin.
  - intros Hin.
    repeat (apply elem_of_cons in Hin as [?|Hin]; [done|]).
    by apply elem_of_nil in Hin.
Defined.

(** *** What [start] does to the staff dictionary *)

Definition keeps_staff {A} (m : run A) : Prop :=
  ∀ w, staff (m w).1 = staff w.

Lemma keeps_staff_bind {A B} (m : run A) (f : A → run B) :
  keeps_staff m → (∀ a, keeps_staff (f a)) → keeps_staff (m ≫= f).
Proof.
  intros Hm Hf w. rewrite bind_eq. specialize (Hm w).
  destruct (m w) as [w' [a|e]]; simpl in *; [|done]. by rewrite Hf.
Qed.

Lemma keeps_staff_for_each {A} (xs : list A) (body : A → run unit) :
  (∀ x, keeps_staff (body x)) → keeps_staff (for_each xs body).
Proof.
  intros Hb. induction xs as [|x xs IH]; simpl; [done|].
  apply keeps_staff_bind; [apply Hb|]. intros _. apply IH.
Qed.

Lemma keeps_staff_imports E :
  keeps_staff (for_each (ALL_MODULES E) (λ mod_name,
    call E (ImportModule mod_name) ;;
    if has_MODULE E mod_name
    then emit (Log (String.append mod_name " module loaded"))
    else ret tt)).
Proof.
  apply keeps_staff_for_each. intros x. apply keeps_staff_bind; [done|].
  intros _. by destruct (has_MODULE E x).
Qed.

Ltac forward H w' :=
  rewrite bind_eq in H;
  match type of H with
  | match ?m ?w with _ => _ end = _ =>
      let Hs := fresh "Hs" in
      assert (Hs : staff (m w).1 = staff w)
        by first [ done | apply keeps_staff_imports ];
      destruct (m w) as [w' [[]|?]]; simpl in Hs; [|done]
  end.

(** When [_load_staff] returns, the dictionary is the one
    [Staff._load_staff] computes from the collection. *)
Lemma load_staff_returns E w w' :
  Lifecycle._load_staff E w = (w', Ok tt) →
  Staff._load_staff (staff w) (STAFF E) = (staff w', Ok tt).
Proof.
  unfold Lifecycle._load_staff, Staff._load_staff. intros H.
  forward H w1. rewrite bind_eq, modify_eq in H. cbv beta iota in H.
  rewrite bind_eq, call_eq in H. destruct (outcome E Find); [|done].
  unfold load_documents in H. simpl in H. rewrite Hs in H.
  destruct (load_loop _ _) as [staff' r]. by injection H as <- ->.
Qed.

Lemma start_loads_staff E w w' :
  start E w = (w', Ok tt) →
  Staff._load_staff (staff w) (STAFF E) = (staff w', Ok tt).
Proof.
  rewrite start_eq. destruct (start_calls E w) as [w1 [[]|e]] eqn:H; [|done].
  intros [= <-]. simpl. unfold start_calls in H.
  forward H w2. forward H w3. forward H w4. forward H w5.
  rewrite bind_eq in H.
  destruct (Lifecycle._load_staff E w5) as [w6 [[]|e]] eqn:Hload; [|done].
  apply load_staff_returns in Hload.
  forward H w7.
  assert (Hs5 : staff (call E ClientStart w7).1 = staff w7) by done.
  rewrite H in Hs5. simpl in Hs5. congruence.
Qed.

Lemma first_ill_ranked docs :
  Forall (λ i, rank i = "dev" ∨ rank i = "sudo") docs ∨
  ∃ pre i post, docs = pre ++ i :: post ∧
    Forall (λ j, rank j = "dev" ∨ rank j = "sudo") pre ∧
    rank i ≠ "dev" ∧ rank i ≠ "sudo".
Proof.
  induction docs as [|i docs IH]; [left; by apply Forall_nil|].
  destruct (decide (rank i = "dev" ∨ rank i = "sudo")) as [Hi|Hi].
  - destruct IH as [IH|(pre & j & post & -> & Hpre & Hj)].
    + left. by apply Forall_cons.
    + right. exists (i :: pre), j, post.
      split; [done|]. split; [by apply Forall_cons|done].
  - right. exists [], i, docs.
    split; [done|]. split; [by apply Forall_nil|]. tauto.
Qed.

(** X10: when [start] returns, on a dictionary the module can have
    produced, every document of the "STAFF" collection was ranked "dev" or
    "sudo" and [staff_id] is defined: the owner, then the "dev" and the
    "sudo" identifiers of the collection. *)
Theorem start_leaves_staff_loaded (OWNER_ID : Z) (E : env) (w w' : world) :
  StaffFacts.reachable OWNER_ID (staff w) →
  start E w = (w', Ok tt) →
  Forall (λ i, rank i = "dev" ∨ rank i = "sudo") (STAFF E) ∧
  staff_id (staff w') =
    Ok (VInt OWNER_ID ::
        (VInt <$> ids_of "dev" (STAFF E) ++ ids_of "sudo" (STAFF E))).
Proof.
  intros Hr Hstart. apply start_loads_staff in Hstart as Hload.
  pose proof (StaffMore.reachable_well_formed _ _ Hr) as Hwf.
  assert (Hall : Forall (λ i, rank i = "dev" ∨ rank i = "sudo") (STAFF E)).
  { destruct (first_ill_ranked (STAFF E))
      as [?|(pre & i & post & Heq & Hpre & Hd & Hs)]; [done|].
    destruct (StaffMore.load_stops_at OWNER_ID (staff w) pre i post
                Hwf Hpre Hd Hs) as [_ [x Hx]].
    rewrite <- Heq, Hload in Hx. done. }
  split; [done|].
  destruct (StaffFacts.staff_id_of_load OWNER_ID (staff w) (STAFF E)
              (proj1 Hwf) Hall) as (staff' & Hl & Hid).
  rewrite Hload in Hl. by injection Hl as <-.
Qed.

(** A collection of two staff members, two plugins, and no failing call. *)
Definition quiet_env : env :=
  {| ALL_MODULES := ["admin"; "misc"];
     has_MODULE := λ m, bool_decide (m = "admin");
     raises := λ _, None;
     STAFF := [ {| _id := 3; rank := "sudo" |}; {| _id := 5; rank := "dev" |} ];
     Lifecycle.all_tasks := [0%nat; 1%nat]; current_task := 0%nat |}.

Lemma start_leaves_staff_loaded_witness :
  let w := {| staff := staff_init 7; is_initialized := false;
              tasks := []; log := [] |} in
  Forall (λ i, rank i = "dev" ∨ rank i = "sudo") (STAFF quiet_env) ∧
  staff_id (staff (start quiet_env w).1) =
    Ok (VInt 7 :: (VInt <$> ids_of "dev" (STAFF quiet_env) ++
                            ids_of "sudo" (STAFF quiet_env))).
Proof.
  intros w.
  apply (start_leaves_staff_loaded 7 quiet_env w (start quiet_env w).1).
  - apply StaffFacts.reach_init.
  - vm_compute. reflexivity.
Defined.

(** *** [stop] *)

(** X11: [stop] stops the client, then disconnects the database, then stops
    the pool, and gives up at the first of the three that raises: the
    database is disconnected only if stopping the client returned, the pool
    stopped only if both returned; [stop] returns exactly when none of the
    three raises, and otherwise raises what the first failing call raised. *)
Theorem stop_order (E : env) (w : world) :
  ∃ made,
    log (stop E w).1 = log w ++ Log "Disconnecting..." :: ClientStop :: made ∧
    made `prefix_of` [DisconnectDb; PoolStop] ∧
    (DisconnectDb ∈ made ↔ raises E ClientStop = None) ∧
    (PoolStop ∈ made ↔
       raises E ClientStop = None ∧ raises E DisconnectDb = None) ∧
    (stop E w).2 =
      match raises E ClientStop, raises E DisconnectDb, raises E PoolStop with
      | Some e, _, _ | None, Some e, _ | None, None, Some e => Raise e
      | None, None, None => Ok tt
      end.
Proof.
  destruct w as [st i ts lg]. unfold stop.
  destruct (raises E ClientStop) eqn:E1;
    destruct (raises E DisconnectDb) eqn:E2;
    destruct (raises E PoolStop) eqn:E3.
  all: repeat (repeat run_step; unfold outcome; rewrite ?E1, ?E2, ?E3).
  all: cbn [fst snd log add_log set_initialized].
  all: rewrite <- ?app_assoc; cbn [app].
  all: eexists; split; [reflexivity|].
  all: split; [by repeat first [apply prefix_cons | apply prefix_nil]|].
  all: rewrite ?elem_of_cons, ?elem_of_nil; split; [|split; [|done]].
  all: try (split; [intros; try done; tauto | intros; try done; tauto]).
  all: intuition congruence.
Qed.

(** *** [begin], end to end *)

Lemma imports_succeed E (Hno : ∀ e, raises E e = None) xs : ∀ w,
  for_each xs (λ mod_name,
    call E (ImportModule mod_name) ;;
    if has_MODULE E mod_name
    then emit (Log (String.append mod_name " module loaded"))
    else ret tt) w = (append_log (xs ≫= import_steps E) w, Ok tt).
Proof.
  induction xs as [|x xs IH]; intros [st i ts lg]; simpl.
  - unfold ret, append_log. simpl. by rewrite app_nil_r.
  - rewrite !bind_eq, call_eq. unfold outcome. rewrite Hno. cbv beta iota.
    unfold import_steps at 1.
    destruct (has_MODULE E x); rewrite ?emit_eq, ?ret_eq; cbv beta iota;
      rewrite IH; unfold append_log, add_log; simpl;
      by rewrite <- ?app_assoc.
Qed.

(** The calls [begin] makes of its own when everything returns. *)
Definition full_run (E : env) (coro : bool) : list event :=
  (AddSignalHandler <$> [SIGHUP; SIGTERM; SIGINT]) ++
  startup_steps E ++
  (if coro then [Log "Running Coroutine"; RunCoroutine]
   else [Log "Idling"; Idle]) ++
  [LockAcquire; Log "Disconnecting..."; ClientStop; DisconnectDb; PoolStop] ++
  (CancelOther <$> filter (λ t, t ≠ current_task E) (Lifecycle.all_tasks E)) ++
  [ShutdownAsyncgens; LoopStop; Log "Loop stopped"; LockRelease;
   LoopClose; Log "Loop closed"].

(** X12: when no call raises and the staff load succeeds, [begin] returns
    after installing the three signal handlers, a complete start, the
    coroutine (or idling), a complete shutdown that stops the client, the
    database and the pool, and closing the loop, in that order; it leaves
    the client uninitialized and the staff dictionary as the load made it. *)
Theorem begin_runs_to_completion (E : env) (coro : bool) (w : world) :
  (∀ e, raises E e = None) →
  (Staff._load_staff (staff w) (STAFF E)).2 = Ok tt →
  (begin E coro w).2 = Ok tt ∧
  log (begin E coro w).1 = log w ++ full_run E coro ∧
  is_initialized (begin E coro w).1 = false ∧
  staff (begin E coro w).1 = (Staff._load_staff (staff w) (STAFF E)).1.
Proof.
  intros Hno Hload. destruct w as [st i ts lg].
  unfold Staff._load_staff in *. simpl in Hload.
  destruct (load_loop (reset_ranks st) (STAFF E)) as [staff' r] eqn:Hl.
  simpl in Hload. subst r.
  unfold begin, start, Lifecycle._load_staff, run_and_finalize, finalized,
    with_lock, Lifecycle.cancel_tracked, Lifecycle.cancel_others, stop,
    try_finally, try_except_pass, load_documents, full_run, startup_steps.
  destruct coro.
  all: repeat (repeat run_step; unfold outcome;
               rewrite ?Hno, ?imports_succeed;
               cbv beta iota;
               cbn [staff set_staff set_tasks tasks add_log append_log];
               rewrite ?Hl).
  all: cbn [fst snd log staff is_initialized add_log append_log
            set_initialized set_staff set_tasks].
  all: repeat split; try done.
  all: rewrite <- ?app_assoc; cbn [app fmap list_fmap];
       rewrite <- ?app_assoc; reflexivity.
Qed.

Lemma begin_runs_to_completion_witness :
  let w := {| staff := staff_init 7; is_initialized := false;
              tasks := [4%nat]; log := [] |} in
  (begin quiet_env false w).2 = Ok tt ∧
  log (begin quiet_env false w).1 = log w ++ full_run quiet_env false ∧
  is_initialized (begin quiet_env false w).1 = false ∧
  staff (begin quiet_env false w).1 =
    (Staff._load_staff (staff w) (STAFF quiet_env)).1.
Proof.
  intros w. apply begin_runs_to_completion.
  - reflexivity.
  - vm_compute. reflexivity.
Defined.

(** X13: when the coroutine passed to [begin] (or idling) raises, [begin]
    makes no shutdown call of its own: closing the loop is the next call
    after the one that raised, so neither the client, nor the database, nor
    the pool is stopped by [begin]. *)
Theorem begin_skips_shutdown_when_run_raises (E : env) (coro : bool)
    (w : world) (e : exn) :
  (start E (before_start w)).2 = Ok tt →
  raises E (if coro then RunCoroutine else Idle) = Some e →
  log (begin E coro w).1 =
    log (start E (before_start w)).1 ++
    (if coro then [Log "Running Coroutine"; RunCoroutine]
     else [Log "Idling"; Idle]) ++ [LoopClose; Log "Loop closed"] ∧
  (begin E coro w).2 = (if cancelled_or_runtime e then Ok tt else Raise e).
Proof.
  intros Hstart Hraise. rewrite begin_eq.
  destruct (start E (before_start w)) as [[st i ts lg] [[]|x]]; [|done].
  unfold run_and_finalize. destruct coro.
  all: repeat (repeat run_step; unfold outcome; rewrite ?Hraise).
  all: cbn [fst snd log is_initialized add_log append_log after_except].
  all: by rewrite <- ?app_assoc.
Qed.

Lemma begin_skips_shutdown_when_run_raises_witness :
  let E := {| ALL_MODULES := ["admin"]; has_MODULE := λ _, false;
              raises := λ e, match e with
                             | Idle => Some CancelledError
                             | _ => None
                             end;
              STAFF := []; Lifecycle.all_tasks := []; current_task := 0%nat |} in
  let w := {| staff := staff_init 7; is_initialized := false;
              tasks := []; log := [] |} in
  log (begin E false w).1 =
    log (start E (before_start w)).1 ++
    [Log "Idling"; Idle] ++ [LoopClose; Log "Loop closed"] ∧
  (begin E false w).2 = Ok tt.
Proof.
  intros E w.
  apply (begin_skips_shutdown_when_run_raises E false w CancelledError).
  - vm_compute. reflexivity.
  - reflexivity.
Defined.

End LifecycleMore.

Module ShutdownMore.
Import Lifecycle Shutdown ShutdownFacts.

(** *** The queue of the lock and the tasks that wait *)

(** The tasks queued on the lock, first come first. *)
Definition queue (s : system) : list task := (_waiters s).*1.

(** The lock is held only while a task is inside; the queue lists, once
    each, the tasks suspended in [lock.acquire()]; while the lock is free the
    first waiter, if any, has been woken or cancelled. *)
Record consistent (s : system) : Prop := {
  con_held : _locked s = true → ∃ t, critical (places s) t;
  con_nodup : NoDup (queue s);
  con_queue : ∀ t, t ∈ queue s ↔ places s !! t = Some AwaitLock;
  con_head : _locked s = false →
             ∀ t f ws, _waiters s = (t, f) :: ws → f ≠ Pending
}.

Lemma fst_cancel_waiter t ws : (cancel_waiter t ws).*1 = ws.*1.
Proof.
  induction ws as [|[t' f] ws IH]; simpl; [done|]. case_decide; simpl.
  - done.
  - f_equal. apply IH.
Qed.

Lemma fst_wake ws : (_wake_up_first ws).*1 = ws.*1.
Proof. by destruct ws as [|[t []] ws]. Qed.

Lemma head_wake ws t f ws' : _wake_up_first ws = (t, f) :: ws' → f ≠ Pending.
Proof. destruct ws as [|[t' []] ws]; simpl; by intros [= <- <- <-]. Qed.

Lemma elem_of_remove_waiter t ws t' :
  NoDup ws.*1 → t' ∈ (remove_waiter t ws).*1 ↔ t' ∈ ws.*1 ∧ t' ≠ t.
Proof.
  induction ws as [|[t0 f] ws IH]; simpl.
  - intros _. rewrite elem_of_nil. tauto.
  - intros [Hnotin Hnd]%NoDup_cons. case_decide as Ht0; simpl.
    + subst t0. rewrite elem_of_cons. split.
      * intros Hin. split; [by right|]. by intros ->.
      * by intros [[->|Hin] Hne].
    + rewrite !elem_of_cons, IH by done. intuition congruence.
Qed.

Lemma NoDup_remove_waiter t ws : NoDup ws.*1 → NoDup (remove_waiter t ws).*1.
Proof.
  induction ws as [|[t0 f] ws IH]; simpl; [done|].
  intros [Hnotin Hnd]%NoDup_cons. case_decide; simpl; [done|].
  apply NoDup_cons. split; [|by apply IH].
  rewrite elem_of_remove_waiter by done. tauto.
Qed.

(** Steps that leave the queue's tasks as they are. *)
Definition same_queue (s s' : system) : Prop := queue s' = queue s.

Lemma same_queue_cancel t s : same_queue s (cancel t s).
Proof.
  unfold same_queue, queue, cancel. destruct (jobs s !! t) as [j|]; [|done].
  destruct (point j); try done.
  destruct (future_of t (_waiters s)) as [[]|]; try done.
  simpl. apply fst_cancel_waiter.
Qed.

Lemma same_queue_foldl {A} (f : system → A → system) xs :
  (∀ s x, same_queue s (f s x)) → ∀ s, same_queue s (foldl f s xs).
Proof.
  intros Hf. induction xs as [|x xs IH]; intros s; simpl; [done|].
  unfold same_queue in *. by rewrite IH, Hf.
Qed.

Lemma same_queue_cancel_tracked s : same_queue s (cancel_tracked s).
Proof.
  unfold cancel_tracked.
  apply (same_queue_foldl (λ s t, cancel t (record (CancelTracked t) s))).
  intros s' t. apply (same_queue_cancel t (record (CancelTracked t) s')).
Qed.

Lemma same_queue_cancel_others me s : same_queue s (cancel_others me s).
Proof.
  unfold cancel_others.
  apply (same_queue_foldl (λ s t, cancel t (record (CancelOther t) s))).
  intros s' t. apply (same_queue_cancel t (record (CancelOther t) s')).
Qed.

Lemma same_queue_after_stop t s : same_queue s (after_stop t s).
Proof. unfold after_stop. apply (same_queue_cancel_others t s). Qed.

Lemma same_queue_enter t s : same_queue s (enter t s).
Proof.
  unfold enter, same_queue.
  pose proof (same_queue_cancel_tracked (record LockAcquire s)) as Hq.
  destruct (client_initialized _); [done|].
  by rewrite same_queue_after_stop.
Qed.

Lemma waiters_after_stop_locked t s :
  _locked (after_stop t s) = _locked s.
Proof. by destruct (moved_after_stop t s) as (? & _). Qed.

(** *** Preservation *)

Lemma critical_alter_other (p : pc) (t : task) (ps : list pc) (t' : task) :
  t' ≠ t → critical ps t' → critical (alter (λ _, p) t ps) t'.
Proof.
  intros Hne (q & Hq & Hc). exists q. by rewrite list_lookup_alter_ne.
Qed.

Lemma critical_alter_self (p : pc) (t : task) (ps : list pc) :
  is_Some (ps !! t) → in_critical_section p = true →
  critical (alter (λ _, p) t ps) t.
Proof.
  intros [q Hq] Hp. exists p. by rewrite list_lookup_alter_eq, Hq.
Qed.

(** The queue after task [t], which stood at [p0], moved to a place that
    is not [AwaitLock] and left the queue if it was in it. *)
Lemma queue_after_move (q q' : list task) (ps : list pc) (t : task)
    (p0 p : pc) :
  (∀ t', t' ∈ q ↔ ps !! t' = Some AwaitLock) →
  ps !! t = Some p0 → p ≠ AwaitLock →
  (∀ t', t' ∈ q' ↔ t' ∈ q ∧ t' ≠ t) →
  ∀ t', t' ∈ q' ↔ alter (λ _, p) t ps !! t' = Some AwaitLock.
Proof.
  intros Hq Hp0 Hp Hq' t'. rewrite Hq'. destruct (decide (t' = t)) as [->|Hne].
  - rewrite list_lookup_alter_eq, Hp0. simpl. split; [tauto|]. by intros [=].
  - rewrite list_lookup_alter_ne by done. rewrite Hq. tauto.
Qed.

Lemma not_queued (q : list task) (ps : list pc) (t : task) (p0 : pc) :
  (∀ t', t' ∈ q ↔ ps !! t' = Some AwaitLock) →
  ps !! t = Some p0 → p0 ≠ AwaitLock →
  ∀ t', t' ∈ q ↔ t' ∈ q ∧ t' ≠ t.
Proof.
  intros Hq Hp0 Hne t'. split; [|tauto]. intros Hin. split; [done|].
  intros ->. apply Hq in Hin. congruence.
Qed.

(** A task that is not queued moves to a place that is not [AwaitLock];
    the lock flag and the queue stay. *)
Lemma consistent_moved t p0 p s s' :
  places s !! t = Some p0 → p0 ≠ AwaitLock → p ≠ AwaitLock →
  (in_critical_section p0 = true → in_critical_section p = true) →
  moved t p s s' → _waiters s' = _waiters s ∨ _locked s = true →
  queue s' = queue s →
  consistent s → consistent s'.
Proof.
  intros Hp0 Hne0 Hne Hcs (Hl & Hpl & _) Hw Hq [H1 H2 H3 H4]. split.
  - rewrite Hl, Hpl. intros [t' Hc]%H1. destruct (decide (t' = t)) as [->|Hn].
    + exists t. apply critical_alter_self; [by rewrite Hp0|].
      destruct Hc as (q & Hq' & Hc). rewrite Hp0 in Hq'.
      injection Hq' as <-. auto.
    + exists t'. by apply critical_alter_other.
  - by rewrite Hq.
  - rewrite Hq, Hpl. eapply queue_after_move; eauto.
    by eapply not_queued.
  - rewrite Hl. intros Hfree. destruct Hw as [->|Hlk]; [|congruence].
    by apply H4.
Qed.

Lemma places_lookup s t j :
  jobs s !! t = Some j → places s !! t = Some (point j).
Proof. intros Hj. unfold places. by rewrite list_lookup_fmap, Hj. Qed.

Lemma consistent_spawn sig s : consistent s → consistent (spawn sig s).
Proof.
  intros [H1 H2 H3 H4]. split; try done.
  - intros [t (q & Hq & Hc)]%H1. exists t, q. split; [|done].
    unfold places, spawn. simpl. rewrite fmap_app.
    by apply lookup_app_l_Some.
  - intros t. rewrite (H3 t). unfold places, spawn. simpl. rewrite fmap_app.
    split.
    + by apply lookup_app_l_Some.
    + intros [?|[_ Hn]]%lookup_app_Some; [done|].
      by apply list_lookup_singleton_Some in Hn as [_ ?].
Qed.

(** Taking the lock: the task leaves the queue, if it was in it, and is the
    one inside. *)
Lemma consistent_enter t p0 ws' s :
  consistent s → places s !! t = Some p0 → NoDup ws'.*1 →
  (∀ t', t' ∈ ws'.*1 ↔ t' ∈ queue s ∧ t' ≠ t) →
  consistent (enter t (with_lock_state true ws' s)).
Proof.
  intros [H1 H2 H3 H4] Hp0 Hnd Hq.
  destruct (moved_enter t (with_lock_state true ws' s))
    as (p & Hp & Hl & Hpl & _).
  pose proof (same_queue_enter t (with_lock_state true ws' s)) as Hsq.
  unfold same_queue in Hsq. change (places (with_lock_state true ws' s))
    with (places s) in Hpl.
  change (queue (with_lock_state true ws' s)) with (ws'.*1) in Hsq.
  split.
  - intros _. exists t. rewrite Hpl.
    apply critical_alter_self; [by rewrite Hp0|done].
  - by rewrite Hsq.
  - rewrite Hsq, Hpl.
    apply (queue_after_move (queue s) _ (places s) t p0 p);
      [done|done| |done].
    intros ->. done.
  - rewrite Hl. done.
Qed.

(** Releasing the lock from inside. *)
Lemma consistent_leave t p0 r s :
  consistent s → places s !! t = Some p0 → in_critical_section p0 = true →
  _locked s = true → consistent (leave t r s).
Proof.
  intros [H1 H2 H3 H4] Hp0 Hc Hl. unfold leave. simpl. rewrite Hl.
  split; simpl.
  - done.
  - unfold queue. simpl. by rewrite fst_wake.
  - unfold queue. simpl. rewrite fst_wake, places_set_point.
    change (places (with_lock_state _ _ _)) with (places s).
    apply (queue_after_move (queue s) _ (places s) t p0 (Done r));
      [done|done|done|].
    apply (not_queued _ (places s) t p0); [done|done|]. by intros ->.
  - intros _ t' f ws. apply head_wake.
Qed.

(** Leaving the queue cancelled. *)
Lemma consistent_give_up t r s :
  consistent s → places s !! t = Some AwaitLock →
  consistent
    (set_point t (Done r)
       (with_lock_state (_locked s)
          (if _locked s then remove_waiter t (_waiters s)
           else _wake_up_first (remove_waiter t (_waiters s))) s)).
Proof.
  intros [H1 H2 H3 H4] Hp0.
  assert (Hfst : (if _locked s then remove_waiter t (_waiters s)
                  else _wake_up_first (remove_waiter t (_waiters s))).*1
                 = (remove_waiter t (_waiters s)).*1).
  { destruct (_locked s); [done|apply fst_wake]. }
  split; simpl.
  - intros [t' Hc]%H1. exists t'. rewrite places_set_point.
    apply critical_alter_other; [|done]. intros ->.
    destruct Hc as (q & Hq & Hc). rewrite Hp0 in Hq. by injection Hq as <-.
  - unfold queue. simpl. rewrite Hfst. by apply NoDup_remove_waiter.
  - unfold queue. simpl. rewrite Hfst, places_set_point.
    change (places (with_lock_state _ _ _)) with (places s).
    apply (queue_after_move (queue s) _ (places s) t AwaitLock (Done r));
      [done|done|done|].
    intros t'. by apply elem_of_remove_waiter.
  - intros Hl. rewrite Hl. intros t' f ws. apply head_wake.
Qed.

(** Queueing on the lock. *)
Lemma consistent_wait t sig s :
  consistent s → places s !! t = Some (Created sig) →
  negb (_locked s) && forallb is_cancelled (_waiters s) = false →
  consistent
    (set_point t AwaitLock
       (with_lock_state (_locked s) (_waiters s ++ [(t, Pending)]) s)).
Proof.
  intros [H1 H2 H3 H4] Hp0 Hbusy.
  assert (Hnot : t ∉ queue s).
  { intros Hin%H3. congruence. }
  split; simpl.
  - intros [t' Hc]%H1. exists t'. rewrite places_set_point.
    apply critical_alter_other; [|done]. intros ->.
    destruct Hc as (q & Hq & Hc). rewrite Hp0 in Hq. by injection Hq as <-.
  - unfold queue. simpl. rewrite fmap_app. apply NoDup_app.
    split; [done|]. split; [|apply NoDup_singleton].
    intros t' Hin ->%list_elem_of_singleton. done.
  - intros t'. unfold queue. simpl. rewrite fmap_app, elem_of_app.
    rewrite places_set_point.
    change (places (with_lock_state _ _ _)) with (places s).
    simpl. rewrite list_elem_of_singleton.
    destruct (decide (t' = t)) as [->|Hne].
    + rewrite list_lookup_alter_eq, Hp0. simpl. tauto.
    + rewrite list_lookup_alter_ne by done. rewrite <- H3. tauto.
  - intros Hl. rewrite Hl in Hbusy. simpl in Hbusy.
    destruct (_waiters s) as [|[t0 f0] ws0] eqn:Hw; [done|].
    simpl. intros t' f ws [= <- <- <-]. by eapply H4.
Qed.

Lemma consistent_acquire t sig s :
  consistent s → places s !! t = Some (Created sig) →
  consistent (acquire t s).
Proof.
  intros Hc Hp0. unfold acquire.
  destruct (negb (_locked s) && forallb is_cancelled (_waiters s)) eqn:E.
  - eapply consistent_enter; eauto; [apply Hc|].
    eapply not_queued; [apply Hc|exact Hp0|done].
  - by eapply consistent_wait.
Qed.

Lemma consistent_same_calls s s' :
  _locked s' = _locked s → _waiters s' = _waiters s → jobs s' = jobs s →
  consistent s → consistent s'.
Proof.
  intros Hl Hw Hj [H1 H2 H3 H4]. unfold places, queue in *.
  split; unfold places, queue; rewrite ?Hl, ?Hw, ?Hj; done.
Qed.

Lemma consistent_resume t raised s s' :
  resume t raised s = Some s' → invariant s → consistent s → consistent s'.
Proof.
  unfold resume. intros Hr Hinv Hc.
  destruct (jobs s !! t) as [[p mc]|] eqn:Hj; [|done]. simpl in Hr.
  pose proof (places_lookup _ _ _ Hj) as Hp. simpl in Hp.
  assert (Hheld : in_critical_section p = true → _locked s = true).
  { intros Hin. clear Hr. destruct (_locked s) eqn:Hl; [done|].
    destruct (inv_free s Hinv Hl t). by exists p. }
  assert (Hleave : ∀ r, in_critical_section p = true →
            consistent (leave t r s)).
  { intros r Hin. eapply consistent_leave; eauto. }
  assert (Hmove : ∀ p' s1, in_critical_section p = true →
            in_critical_section p' = true → moved t p' s s1 →
            queue s1 = queue s → consistent s1).
  { intros p' s1 Hin Hin' Hm Hq.
    apply (consistent_moved t p p' s s1);
      [done|by intros ->|by intros ->|done|done|right; auto|done|done]. }
  destruct p; simpl in Hr.
  - destruct mc; injection Hr as <-.
    + apply (consistent_moved t (Created sig) (Done (Raise CancelledError)) s);
        [done|done|done|done|apply moved_set_point|by left|done|done].
    + destruct sig as [sig|].
      * eapply consistent_acquire; [|exact Hp].
        revert Hc. by apply consistent_same_calls.
      * by eapply consistent_acquire.
  - destruct mc.
    { injection Hr as <-. by apply consistent_give_up. }
    destruct (future_of t (_waiters s)) as [[]|] eqn:Hf; try done;
      injection Hr as <-.
    + eapply consistent_enter; eauto.
      * apply NoDup_remove_waiter, Hc.
      * intros t'. apply elem_of_remove_waiter, Hc.
    + by apply consistent_give_up.
  - injection Hr as <-. destruct mc; [auto|]. destruct raised; [auto|].
    apply (Hmove AwaitDisconnectDb); try done.
    eapply moved_same_view; [|apply moved_set_point]. done.
  - injection Hr as <-. destruct mc; [auto|]. destruct raised; [auto|].
    apply (Hmove AwaitPoolStop); try done.
    eapply moved_same_view; [|apply moved_set_point]. done.
  - injection Hr as <-. destruct mc; [auto|]. destruct raised; [auto|].
    apply (Hmove AwaitAsyncgens); try done; [apply moved_after_stop|].
    apply same_queue_after_stop.
  - injection Hr as <-. destruct mc; [auto|]. destruct raised; [auto|].
    eapply consistent_leave; eauto.
    revert Hc. by apply consistent_same_calls.
  - done.
Qed.

Lemma consistent_initial b : consistent (initial b).
Proof.
  split; simpl.
  - done.
  - apply NoDup_nil_2.
  - intros t. unfold queue, places. simpl. split; [by intros ?%elem_of_nil|].
    done.
  - done.
Qed.

Lemma consistent_steps ls : ∀ s s',
  steps s ls = Some s' → invariant s → consistent s → consistent s'.
Proof.
  induction ls as [|l ls IH]; intros s s'; simpl.
  - by intros [= <-].
  - destruct (step s l) as [s1|] eqn:Hs; [|done].
    intros Hsteps Hinv Hc.
    eapply IH; [exact Hsteps|by eapply invariant_step|].
    destruct l as [sig| |t raised]; simpl in Hs.
    + injection Hs as <-. by apply consistent_spawn.
    + injection Hs as <-. by apply consistent_spawn.
    + by eapply consistent_resume.
Qed.

Lemma reachable_consistent b ls s :
  steps (initial b) ls = Some s → invariant s ∧ consistent s.
Proof.
  intros Hs. split.
  - eapply invariant_steps; [exact Hs|apply invariant_initial].
  - eapply consistent_steps;
      [exact Hs|apply invariant_initial|apply consistent_initial].
Qed.

Lemma places_lookup_inv s t p :
  places s !! t = Some p → ∃ j, jobs s !! t = Some j ∧ point j = p.
Proof.
  unfold places. rewrite list_lookup_fmap.
  intros (j & Hj & ->)%fmap_Some. by exists j.
Qed.

(** X14: in every reachable state the lock is held exactly when a task is
    between taking and releasing it (it is never left held by a task that
    ended, whether it returned, raised or was cancelled), and the queue of
    the lock lists, once each, exactly the tasks suspended in
    [lock.acquire()]. *)
Theorem lock_held_iff_task_inside (initialized : bool) (ls : list label)
    (s : system) :
  steps (initial initialized) ls = Some s →
  (_locked s = true ↔
     ∃ t j, jobs s !! t = Some j ∧ in_critical_section (point j) = true) ∧
  NoDup (_waiters s).*1 ∧
  (∀ t, t ∈ (_waiters s).*1 ↔
        ∃ j, jobs s !! t = Some j ∧ point j = AwaitLock).
Proof.
  intros [Hinv Hc]%reachable_consistent. split; [|split].
  - split.
    + intros [t (p & Hp & Hin)]%(con_held s Hc).
      apply places_lookup_inv in Hp as (j & Hj & <-). by exists t, j.
    + intros (t & j & Hj & Hin). destruct (_locked s) eqn:Hl; [done|].
      destruct (inv_free s Hinv Hl t). exists (point j).
      split; [by apply places_lookup|done].
  - apply Hc.
  - intros t. rewrite (con_queue s Hc t). split.
    + apply places_lookup_inv.
    + intros (j & Hj & <-). by apply places_lookup.
Qed.

Lemma lock_held_iff_task_inside_witness :
  ∃ s, steps (initial true) three_signals = Some s ∧
    (_locked s = true ↔
       ∃ t j, jobs s !! t = Some j ∧ in_critical_section (point j) = true) ∧
    NoDup (_waiters s).*1 ∧
    (∀ t, t ∈ (_waiters s).*1 ↔
          ∃ j, jobs s !! t = Some j ∧ point j = AwaitLock).
Proof.
  eexists. split; [vm_compute; reflexivity|].
  apply (lock_held_iff_task_inside true three_signals).
  vm_compute; reflexivity.
Defined.

(** X15: no wake-up is lost.  In every reachable state in which a task is
    suspended in [lock.acquire()], either the lock is held and a task is
    between taking and releasing it, or the lock is free and the first task
    of the queue, itself suspended in [lock.acquire()], has had its future
    given its result or cancelled: the lock is never free with every waiter
    left pending. *)
Theorem no_wake_up_is_lost (initialized : bool) (ls : list label)
    (s : system) (t : task) (j : job) :
  steps (initial initialized) ls = Some s →
  jobs s !! t = Some j → point j = AwaitLock →
  (_locked s = true ∧
   ∃ t' j', jobs s !! t' = Some j' ∧ in_critical_section (point j') = true) ∨
  (_locked s = false ∧
   ∃ t1 f ws j1, _waiters s = (t1, f) :: ws ∧ f ≠ Pending ∧
                 jobs s !! t1 = Some j1 ∧ point j1 = AwaitLock).
Proof.
  intros [Hinv Hc]%reachable_consistent Hj Hp.
  destruct (_locked s) eqn:Hl.
  - left. split; [done|].
    destruct (con_held s Hc Hl) as [t' (p' & Hp' & Hin)].
    apply places_lookup_inv in Hp' as (j' & Hj' & <-). by exists t', j'.
  - right. split; [done|].
    assert (Hq : t ∈ queue s).
    { apply (con_queue s Hc). rewrite <- Hp. by apply places_lookup. }
    unfold queue in Hq. destruct (_waiters s) as [|[t1 f1] ws] eqn:Hw;
      [by apply elem_of_nil in Hq|].
    pose proof (con_head s Hc Hl t1 f1 ws Hw) as Hf1.
    assert (Hq1 : t1 ∈ queue s).
    { unfold queue. rewrite Hw. simpl. left. }
    apply (con_queue s Hc) in Hq1.
    apply places_lookup_inv in Hq1 as (j1 & Hj1 & Hp1).
    by exists t1, f1, ws, j1.
Qed.

(** Task 0 has left the lock on a failing [disconnect_db()]: the lock is
    free, task 1 has been woken and task 2 still waits. *)
Lemma no_wake_up_is_lost_witness :
  ∃ s, steps (initial true)
         (three_signals ++ [Resume 0 (Some ConnectionError)]) = Some s ∧
    _waiters s = [(1%nat, Woken); (2%nat, Pending)] ∧
    ((_locked s = true ∧
      ∃ t' j', jobs s !! t' = Some j' ∧
               in_critical_section (point j') = true) ∨
     (_locked s = false ∧
      ∃ t1 f ws j1, _waiters s = (t1, f) :: ws ∧ f ≠ Pending ∧
                    jobs s !! t1 = Some j1 ∧ point j1 = AwaitLock)).
Proof.
  eexists. split; [vm_compute; reflexivity|]. split; [reflexivity|].
  eapply (no_wake_up_is_lost true
            (three_signals ++ [Resume 0 (Some ConnectionError)]) _ 2).
  - vm_compute; reflexivity.
  - vm_compute; reflexivity.
  - reflexivity.
Defined.

(** *** The calls, in order *)

(** Reading the calls from the first on, [held] telling whether the lock is
    held: taking the lock needs it free, releasing it needs it held, and the
    calls of the critical section need it held.  The result is whether the
    lock is held after the last call, if every call was in order. *)
Fixpoint bracketed (held : bool) (l : list event) : option bool :=
  match l with
  | [] => Some held
  | e :: l' =>
    match e with
    | LockAcquire => if held then None else bracketed true l'
    | LockRelease => if held then bracketed false l' else None
    | ClientStop | DisconnectDb | PoolStop | CancelTracked _ | CancelOther _
    | ShutdownAsyncgens | LoopStop =>
        if held then bracketed true l' else None
    | _ => bracketed held l'
    end
  end.

Definition lock_call (e : event) : bool :=
  match e with LockAcquire | LockRelease => true | _ => false end.

Definition in_order (s : system) : Prop :=
  bracketed false (calls s) = Some (_locked s).

Lemma bracketed_snoc b l e :
  bracketed b (l ++ [e]) =
    match bracketed b l with
    | Some b' => bracketed b' [e]
    | None => None
    end.
Proof.
  revert b. induction l as [|x l IH]; intros b; simpl.
  - by destruct e, b.
  - destruct x, b; simpl; by rewrite ?IH.
Qed.

Lemma in_order_record_held e s :
  _locked s = true → lock_call e = false → in_order s → in_order (record e s).
Proof.
  unfold in_order. simpl. intros Hl He Hs. rewrite bracketed_snoc, Hs, Hl.
  by destruct e.
Qed.

Lemma in_order_record_log msg s : in_order s → in_order (record (Log msg) s).
Proof.
  unfold in_order. simpl. intros Hs. by rewrite bracketed_snoc, Hs.
Qed.

Lemma in_order_same s s' :
  _locked s' = _locked s → calls s' = calls s → in_order s → in_order s'.
Proof. unfold in_order. by intros -> ->. Qed.

Lemma locked_cancel t s : _locked (cancel t s) = _locked s.
Proof. by destruct (same_view_cancel t s) as (? & _). Qed.

Lemma calls_cancel t s : calls (cancel t s) = calls s.
Proof.
  unfold cancel. destruct (jobs s !! t) as [j|]; [|done].
  destruct (point j); try done.
  by destruct (future_of t (_waiters s)) as [[]|].
Qed.

Lemma in_order_cancel_each (mk : task → event) ts : ∀ s,
  (∀ t, lock_call (mk t) = false) → _locked s = true → in_order s →
  in_order (foldl (λ s t, cancel t (record (mk t) s)) s ts) ∧
  _locked (foldl (λ s t, cancel t (record (mk t) s)) s ts) = true.
Proof.
  induction ts as [|t ts IH]; intros s Hmk Hl Hs; simpl; [done|].
  apply IH; [done|by rewrite locked_cancel|].
  eapply in_order_same; [apply locked_cancel|apply calls_cancel|].
  by apply in_order_record_held.
Qed.

Lemma in_order_after_stop t s :
  _locked s = true → in_order s → in_order (after_stop t s).
Proof.
  intros Hl Hs. unfold after_stop, cancel_others.
  destruct (in_order_cancel_each CancelOther
              (filter (λ t', t' ≠ t) (all_tasks s)) s) as [Ho Hl']; try done.
  assert (H : in_order (record ShutdownAsyncgens
                 (foldl (λ s t, cancel t (record (CancelOther t) s)) s
                    (filter (λ t', t' ≠ t) (all_tasks s)))))
    by (by apply in_order_record_held).
  revert H. by apply in_order_same.
Qed.

(** Taking the lock, free until then. *)
Lemma in_order_enter t ws s :
  _locked s = false → in_order s →
  in_order (enter t (with_lock_state true ws s)).
Proof.
  intros Hl Hs. unfold enter, cancel_tracked.
  assert (Hacq : in_order (record LockAcquire (with_lock_state true ws s))).
  { unfold in_order in *. simpl. by rewrite bracketed_snoc, Hs, Hl. }
  destruct (in_order_cancel_each CancelTracked
              (tracked (record LockAcquire (with_lock_state true ws s)))
              (record LockAcquire (with_lock_state true ws s)))
    as [Ho Hl']; try done.
  destruct (client_initialized _).
  - set (s1 := foldl _ _ _) in *.
    assert (H : in_order (record ClientStop
                            (record (Log "Disconnecting...") s1)))
      by (apply in_order_record_held; [done|done|];
          by apply in_order_record_log).
    revert H. by apply in_order_same.
  - by apply in_order_after_stop.
Qed.

(** Releasing the lock, held until then. *)
Lemma in_order_leave t r s :
  _locked s = true → in_order s → in_order (leave t r s).
Proof.
  intros Hl Hs. unfold leave. simpl. rewrite Hl.
  unfold in_order in *. simpl. by rewrite bracketed_snoc, Hs, Hl.
Qed.

Lemma in_order_acquire t s : in_order s → in_order (acquire t s).
Proof.
  intros Hs. unfold acquire.
  destruct (negb (_locked s) && forallb is_cancelled (_waiters s)) eqn:E.
  - apply andb_true_iff in E as [Hl%negb_true_iff _]. by apply in_order_enter.
  - revert Hs. by apply in_order_same.
Qed.

Lemma in_order_resume t raised s s' :
  resume t raised s = Some s' → invariant s → in_order s → in_order s'.
Proof.
  unfold resume. intros Hr Hinv Hs.
  destruct (jobs s !! t) as [[p mc]|] eqn:Hj; [|done]. simpl in Hr.
  assert (Hheld : in_critical_section p = true → _locked s = true).
  { intros Hin. clear Hr. destruct (_locked s) eqn:Hl; [done|].
    destruct (inv_free s Hinv Hl t). exists p.
    split; [by apply (places_lookup _ _ _ Hj)|done]. }
  assert (Hleave : ∀ r, in_critical_section p = true →
            in_order (leave t r s)).
  { intros r Hin. apply in_order_leave; auto. }
  assert (Hgive : ∀ ws r,
            in_order (set_point t (Done r) (with_lock_state (_locked s) ws s))).
  { intros ws r. revert Hs. by apply in_order_same. }
  destruct p; simpl in Hr.
  - destruct mc; injection Hr as <-.
    + revert Hs. by apply in_order_same.
    + apply in_order_acquire. destruct sig; [|done].
      by apply in_order_record_log.
  - destruct mc; [by injection Hr as <-|].
    destruct (future_of t (_waiters s)) as [[]|] eqn:Hf; try done;
      injection Hr as <-; [|done].
    apply in_order_enter; [by eapply future_of_woken_held|done].
  - injection Hr as <-. destruct mc; [auto|]. destruct raised; [auto|].
    assert (H : in_order (record DisconnectDb (with_initialized false s)))
      by (apply in_order_record_held; [by apply Hheld|done|exact Hs]).
    revert H. by apply in_order_same.
  - injection Hr as <-. destruct mc; [auto|]. destruct raised; [auto|].
    assert (H : in_order (record PoolStop s))
      by (apply in_order_record_held; [by apply Hheld|done|exact Hs]).
    revert H. by apply in_order_same.
  - injection Hr as <-. destruct mc; [auto|]. destruct raised; [auto|].
    apply in_order_after_stop; auto.
  - injection Hr as <-. destruct mc; [auto|]. destruct raised; [auto|].
    apply in_order_leave; [by apply Hheld|].
    apply in_order_record_log.
    apply in_order_record_held; [by apply Hheld|done|done].
  - done.
Qed.

Lemma in_order_steps ls : ∀ s s',
  steps s ls = Some s' → invariant s → in_order s → in_order s'.
Proof.
  induction ls as [|l ls IH]; intros s s'; simpl.
  - by intros [= <-].
  - destruct (step s l) as [s1|] eqn:Hstep; [|done].
    intros Hsteps Hinv Hs.
    eapply IH; [exact Hsteps|by eapply invariant_step|].
    destruct l as [sig| |t raised]; simpl in Hstep.
    + injection Hstep as <-. revert Hs. by apply in_order_same.
    + injection Hstep as <-. revert Hs. by apply in_order_same.
    + by eapply in_order_resume.
Qed.

(** X16: in the calls of every run, whatever the schedule, taking and
    releasing the lock alternate, starting with a take, and every call of
    the critical section (the task cancellations, stopping the client, the
    database and the pool, shutting the generators down, stopping the loop)
    is made between a take and the release that follows it; the lock is held
    at the end exactly when the last of the two was a take. *)
Theorem critical_calls_are_bracketed (initialized : bool) (ls : list label)
    (s : system) :
  steps (initial initialized) ls = Some s →
  bracketed false (calls s) = Some (_locked s).
Proof.
  intros Hs. eapply in_order_steps;
    [exact Hs|apply invariant_initial|done].
Qed.

Lemma critical_calls_are_bracketed_witness :
  ∃ s, steps (initial true)
         (three_signals ++ [Resume 0 (Some ConnectionError); Resume 1 None])
       = Some s ∧
       bracketed false (calls s) = Some (_locked s).
Proof.
  eexists. split; [vm_compute; reflexivity|].
  apply (critical_calls_are_bracketed true
           (three_signals ++ [Resume 0 (Some ConnectionError); Resume 1 None])).
  vm_compute; reflexivity.
Defined.

(** *** Nothing makes the shutdown run once only *)









(** *** What line 97 does to the other shutdown tasks *)

(** The task has not taken the lock yet. *)
Definition waits (p : pc) : bool :=
  match p with Created _ | AwaitLock => true | _ => false end.

(** The task has not taken the lock and never will: a cancellation is
    pending on it, or it has ended cancelled. *)
Definition cancelled_waiting (s : system) (t : task) : Prop :=
  ∃ j, jobs s !! t = Some j ∧
    match point j with
    | Created _ => must_cancel j = true
    | AwaitLock =>
        must_cancel j = true ∨ future_of t (_waiters s) = Some Cancelled
    | Done r => r = Raise CancelledError
    | _ => False
    end.

Lemma future_of_remove_other t t' ws :
  t ≠ t' → future_of t (remove_waiter t' ws) = future_of t ws.
Proof.
  intros Hne. induction ws as [|[t0 f] ws IH]; simpl; [done|].
  destruct (decide (t0 = t')) as [->|H0]; simpl.
  - by rewrite decide_False by done.
  - by rewrite IH.
Qed.

Lemma future_of_wake t ws :
  future_of t ws = Some Cancelled →
  future_of t (_wake_up_first ws) = Some Cancelled.
Proof.
  destruct ws as [|[t0 []] ws]; simpl; try done. by case_decide.
Qed.

Lemma future_of_app t ws ws' f :
  future_of t ws = Some f → future_of t (ws ++ ws') = Some f.
Proof.
  induction ws as [|[t0 f0] ws IH]; simpl; [done|]. by case_decide.
Qed.

Lemma future_of_cancel_waiter t t' ws :
  future_of t ws = Some Cancelled →
  future_of t (cancel_waiter t' ws) = Some Cancelled.
Proof.
  induction ws as [|[t0 f0] ws IH]; simpl; [done|].
  destruct (decide (t0 = t')) as [->|H0]; simpl.
  - case_decide; [|done]. by intros [= ->].
  - case_decide; [done|]. apply IH.
Qed.

Lemma future_of_cancel_waiter_self t ws :
  future_of t ws = Some Pending →
  future_of t (cancel_waiter t ws) = Some Cancelled.
Proof.
  induction ws as [|[t0 f0] ws IH]; simpl; [done|].
  destruct (decide (t0 = t)) as [->|H0]; simpl.
  - rewrite decide_True by done. by intros [= ->].
  - rewrite decide_False by done. apply IH.
Qed.

(** Changes of the lock and of other tasks that leave a cancelled waiter
    cancelled. *)
Lemma cancelled_waiting_lock t l ws' s :
  (future_of t (_waiters s) = Some Cancelled →
   future_of t ws' = Some Cancelled) →
  cancelled_waiting s t → cancelled_waiting (with_lock_state l ws' s) t.
Proof.
  intros Hws (j & Hj & Hc). exists j. split; [done|].
  destruct (point j); try done. simpl. tauto.
Qed.

Lemma cancelled_waiting_same s s' t :
  jobs s' = jobs s → _waiters s' = _waiters s →
  cancelled_waiting s t → cancelled_waiting s' t.
Proof. unfold cancelled_waiting. by intros -> ->. Qed.

Lemma cancelled_waiting_record e s t :
  cancelled_waiting s t → cancelled_waiting (record e s) t.
Proof. by apply cancelled_waiting_same. Qed.

Lemma cancelled_waiting_set_point t t' p s :
  t ≠ t' → cancelled_waiting s t → cancelled_waiting (set_point t' p s) t.
Proof.
  intros Hne (j & Hj & Hc). exists j. split; [|done].
  simpl. by rewrite list_lookup_alter_ne.
Qed.

Lemma cancelled_waiting_must_cancel t t' s :
  cancelled_waiting s t → cancelled_waiting (set_must_cancel t' s) t.
Proof.
  intros (j & Hj & Hc). destruct (decide (t = t')) as [<-|Hne].
  - exists {| point := point j; must_cancel := true |}. simpl.
    rewrite list_lookup_alter_eq, Hj. split; [done|].
    destruct (point j); try done. by left.
  - exists j. split; [|done]. simpl. by rewrite list_lookup_alter_ne.
Qed.

Lemma cancelled_waiting_cancel t t' s :
  cancelled_waiting s t → cancelled_waiting (cancel t' s) t.
Proof.
  intros Hc. unfold cancel. destruct (jobs s !! t') as [j'|]; [|done].
  pose proof (cancelled_waiting_must_cancel t t' s Hc).
  destruct (point j'); try done.
  destruct (future_of t' (_waiters s)) as [[]|]; try done.
  apply cancelled_waiting_lock; [|done]. apply future_of_cancel_waiter.
Qed.

Lemma cancelled_waiting_cancel_each (mk : task → event) t ts : ∀ s,
  cancelled_waiting s t →
  cancelled_waiting (foldl (λ s t', cancel t' (record (mk t') s)) s ts) t.
Proof.
  induction ts as [|t0 ts IH]; intros s Hc; simpl; [done|].
  apply IH, cancelled_waiting_cancel. revert Hc.
  by apply cancelled_waiting_same.
Qed.

Lemma cancelled_waiting_after_stop t t' s :
  t ≠ t' → cancelled_waiting s t → cancelled_waiting (after_stop t' s) t.
Proof.
  intros Hne Hc. unfold after_stop, cancel_others.
  apply cancelled_waiting_set_point; [done|].
  by apply cancelled_waiting_record, cancelled_waiting_cancel_each.
Qed.

Lemma cancelled_waiting_enter t t' s :
  t ≠ t' → cancelled_waiting s t → cancelled_waiting (enter t' s) t.
Proof.
  intros Hne Hc. unfold enter, cancel_tracked.
  assert (Hc' : cancelled_waiting
    (foldl (λ s t, cancel t (record (CancelTracked t) s))
       (record LockAcquire s) (tracked (record LockAcquire s))) t).
  { apply cancelled_waiting_cancel_each. revert Hc.
    by apply cancelled_waiting_same. }
  destruct (client_initialized _).
  - apply cancelled_waiting_set_point; [done|]. revert Hc'.
    by apply cancelled_waiting_same.
  - by apply cancelled_waiting_after_stop.
Qed.

Lemma cancelled_waiting_leave t t' r s :
  t ≠ t' → cancelled_waiting s t → cancelled_waiting (leave t' r s) t.
Proof.
  intros Hne Hc. unfold leave. simpl.
  destruct (_locked s); apply cancelled_waiting_set_point; try done.
  apply cancelled_waiting_lock; [apply future_of_wake|].
  by apply cancelled_waiting_record.
Qed.

Lemma cancelled_waiting_give_up t t' r s :
  t ≠ t' → cancelled_waiting s t →
  cancelled_waiting
    (set_point t' (Done r)
       (with_lock_state (_locked s)
          (if _locked s then remove_waiter t' (_waiters s)
           else _wake_up_first (remove_waiter t' (_waiters s))) s)) t.
Proof.
  intros Hne Hc. apply cancelled_waiting_set_point; [done|].
  apply cancelled_waiting_lock; [|done]. intros Hf.
  destruct (_locked s); [|apply future_of_wake];
    by rewrite future_of_remove_other.
Qed.

Lemma cancelled_waiting_resume_other t t' raised s s' :
  t ≠ t' → resume t' raised s = Some s' →
  cancelled_waiting s t → cancelled_waiting s' t.
Proof.
  unfold resume. intros Hne Hr Hc.
  destruct (jobs s !! t') as [[p mc]|]; [|done]. simpl in Hr.
  assert (Hleave : ∀ r, cancelled_waiting (leave t' r s) t)
    by (intros r; by apply cancelled_waiting_leave).
  destruct p; simpl in Hr.
  - destruct mc; injection Hr as <-;
      [by apply cancelled_waiting_set_point|].
    unfold acquire.
    assert (Hc0 : cancelled_waiting
      match sig with
      | Some sig0 =>
          record (Log ("Received Stop Signal [" +:+ signal_name sig0 +:+
                       "], Exiting...")) s
      | None => s
      end t).
    { destruct sig; [|done]. revert Hc. by apply cancelled_waiting_same. }
    destruct (_ && _).
    + apply cancelled_waiting_enter; [done|].
      by apply cancelled_waiting_lock.
    + apply cancelled_waiting_set_point; [done|].
      apply cancelled_waiting_lock; [|done]. apply future_of_app.
  - destruct mc.
    { injection Hr as <-. by apply cancelled_waiting_give_up. }
    destruct (future_of t' (_waiters s)) as [[]|]; try done;
      injection Hr as <-.
    + apply cancelled_waiting_enter; [done|].
      apply cancelled_waiting_lock; [|done].
      by rewrite future_of_remove_other.
    + by apply cancelled_waiting_give_up.
  - injection Hr as <-. destruct mc; [done|]. destruct raised; [done|].
    apply cancelled_waiting_set_point; [done|]. revert Hc.
    by apply cancelled_waiting_same.
  - injection Hr as <-. destruct mc; [done|]. destruct raised; [done|].
    apply cancelled_waiting_set_point; [done|]. revert Hc.
    by apply cancelled_waiting_same.
  - injection Hr as <-. destruct mc; [done|]. destruct raised; [done|].
    by apply cancelled_waiting_after_stop.
  - injection Hr as <-. destruct mc; [done|]. destruct raised; [done|].
    apply cancelled_waiting_leave; [done|]. revert Hc.
    by apply cancelled_waiting_same.
  - done.
Qed.

(** When a cancelled waiter runs, it ends with [CancelledError]. *)
Lemma cancelled_waiting_resume_self t raised s s' :
  resume t raised s = Some s' →
  cancelled_waiting s t → cancelled_waiting s' t.
Proof.
  unfold resume. intros Hr (j & Hj & Hc). rewrite Hj in Hr.
  destruct j as [p mc]. simpl in *.
  assert (Hend : ∀ s0, is_Some (jobs s0 !! t) →
            cancelled_waiting (set_point t (Done (Raise CancelledError)) s0) t).
  { intros s0 [j0 Hj0]. eexists. simpl.
    rewrite list_lookup_alter_eq, Hj0. simpl. split; [done|]. done. }
  destruct p; try done.
  - subst mc. injection Hr as <-. apply Hend. by rewrite Hj.
  - destruct mc.
    + injection Hr as <-. apply Hend. simpl. by rewrite Hj.
    + destruct Hc as [?|Hf]; [done|]. rewrite Hf in Hr.
      injection Hr as <-. apply Hend. simpl. by rewrite Hj.
Qed.

Lemma cancelled_waiting_steps t ls : ∀ s s',
  steps s ls = Some s' → cancelled_waiting s t → cancelled_waiting s' t.
Proof.
  induction ls as [|l ls IH]; intros s s'; simpl.
  - by intros [= <-].
  - destruct (step s l) as [s1|] eqn:Hstep; [|done].
    intros Hsteps Hc. eapply IH; [exact Hsteps|].
    destruct l as [sig| |t' raised]; simpl in Hstep.
    + injection Hstep as <-. destruct Hc as (j & Hj & Hc). exists j.
      split; [|done]. simpl. by apply lookup_app_l_Some.
    + injection Hstep as <-. destruct Hc as (j & Hj & Hc). exists j.
      split; [|done]. simpl. by apply lookup_app_l_Some.
    + destruct (decide (t = t')) as [<-|Hne].
      * by eapply cancelled_waiting_resume_self.
      * by eapply cancelled_waiting_resume_other.
Qed.

(** [cancel()] on a task that has not taken the lock. *)
Lemma cancel_waiting t s p :
  places s !! t = Some p → waits p = true →
  cancelled_waiting (cancel t s) t.
Proof.
  intros (j & Hj & <-)%places_lookup_inv Hw. unfold cancel. rewrite Hj.
  assert (Hmc : cancelled_waiting (set_must_cancel t s) t).
  { eexists. simpl. rewrite list_lookup_alter_eq, Hj. simpl.
    split; [done|]. destruct (point j); try done. by left. }
  destruct (point j) eqn:Hp; try done.
  destruct (future_of t (_waiters s)) as [[]|] eqn:Hf; try done.
  exists j. split; [done|]. rewrite Hp. right. simpl.
  by apply future_of_cancel_waiter_self.
Qed.

Lemma elem_of_all_tasks s t p :
  places s !! t = Some p → waits p = true → t ∈ all_tasks s.
Proof.
  intros Hp Hw. apply places_lookup_inv in Hp as (j & Hj & <-).
  unfold all_tasks. apply list_elem_of_filter. split.
  - rewrite Hj. simpl. unfold is_done. by destruct (point j).
  - apply elem_of_seq. apply lookup_lt_Some in Hj. lia.
Qed.

Lemma cancel_each_waiting (mk : task → event) t p ts : ∀ s,
  t ∈ ts → places s !! t = Some p → waits p = true →
  cancelled_waiting (foldl (λ s t', cancel t' (record (mk t') s)) s ts) t.
Proof.
  induction ts as [|t0 ts IH]; intros s Hin Hp Hw; simpl.
  - by apply elem_of_nil in Hin.
  - destruct (decide (t0 = t)) as [->|Hne].
    + apply cancelled_waiting_cancel_each.
      by apply (cancel_waiting t (record (mk t) s) p).
    + apply elem_of_cons in Hin as [->|Hin]; [done|].
      apply IH; [done| |done].
      destruct (same_view_cancel t0 (record (mk t0) s)) as (_ & -> & _).
      done.
Qed.

(** X19: line 97 cancels the shutdown tasks that have not taken the lock:
    once a task has run it, every other task that was created or waiting for
    the lock never enters the critical section, whatever happens next, and
    can only end with [CancelledError]. *)
Theorem line_97_cancels_waiting_tasks (s s' : system) (me t : task) (p : pc)
    (ls : list label) :
  t ≠ me → places s !! t = Some p → waits p = true →
  steps (after_stop me s) ls = Some s' →
  ∃ j, jobs s' !! t = Some j ∧
       in_critical_section (point j) = false ∧
       (is_done j = true → point j = Done (Raise CancelledError)).
Proof.
  intros Hne Hp Hw Hs.
  assert (Hc : cancelled_waiting (after_stop me s) t).
  { unfold after_stop, cancel_others.
    apply cancelled_waiting_set_point; [done|].
    apply cancelled_waiting_record.
    apply (cancel_each_waiting CancelOther t p); [|done|done].
    apply list_elem_of_filter. split; [done|].
    by apply (elem_of_all_tasks s t p). }
  apply (cancelled_waiting_steps t ls _ _ Hs) in Hc as (j & Hj & Hc).
  exists j. split; [done|]. unfold is_done.
  destruct (point j); try done. split; [done|]. intros _. by rewrite Hc.
Qed.

(** Task 0 is in [pool.stop()], tasks 1 and 2 have not taken the lock. *)
Definition before_line_97 : list label :=
  [Deliver SIGINT; Deliver SIGTERM; Resume 0 None; Deliver SIGHUP;
   Resume 1 None; Resume 0 None; Resume 0 None].

Definition at_line_97 : system :=
  Eval vm_compute in default (initial true) (steps (initial true) before_line_97).

Lemma line_97_cancels_waiting_tasks_witness :
  steps (initial true) before_line_97 = Some at_line_97 ∧
  ∃ s', steps (after_stop 0 at_line_97)
          [Resume 0 None; Resume 1 None; Resume 2 None] = Some s' ∧
    ∃ j, jobs s' !! 2%nat = Some j ∧
         in_critical_section (point j) = false ∧
         (is_done j = true → point j = Done (Raise CancelledError)).
Proof.
  split; [vm_compute; reflexivity|].
  eexists. split; [vm_compute; reflexivity|].
  eapply (line_97_cancels_waiting_tasks at_line_97 _ 0 2
            (Created (Some SIGHUP))
            [Resume 0 None; Resume 1 None; Resume 2 None]).
  - done.
  - vm_compute; reflexivity.
  - reflexivity.
  - vm_compute; reflexivity.
Defined.

End ShutdownMore.
